(** * A shallow embedding of the SQL formatting engine of src/index.ts

    The engine is the function [formatSqlString] of src/index.ts: a chain of
    regular-expression substitutions, a keyword re-casing pass, a split into
    clauses and a final assembly.  JavaScript strings are sequences of
    UTF-16 code units; they are modelled as lists of numbers.  Every regular
    expression of the source is embedded as a function that says how long
    the match starting at the current position is; [String.prototype.replace]
    and [String.prototype.split] are embedded once, over such functions. *)

From Stdlib Require Import String Ascii.
From Stdlib Require Import List NArith Bool Arith Lia.
Import ListNotations.

(** ** Strings *)

Definition code_unit := N.
Definition jsstring := list code_unit.

(** A literal of the source, as a sequence of code units. *)
Definition js (s : string) : jsstring := map N_of_ascii (list_ascii_of_string s).

Definition cu_space : code_unit := 32%N.
Definition cu_newline : code_unit := 10%N.
Definition cu_comma : code_unit := 44%N.
Definition cu_lparen : code_unit := 40%N.
Definition cu_rparen : code_unit := 41%N.

Definition in_range (lo hi c : N) : bool := ((lo <=? c) && (c <=? hi))%N.

(** The class [\s] of ECMAScript regular expressions, which is also the set
    of code units that [String.prototype.trim] removes: WhiteSpace and
    LineTerminator. *)
Definition is_space (c : code_unit) : bool :=
  in_range 9 13 c || (c =? 32)%N || (c =? 160)%N || (c =? 0x1680)%N
  || in_range 0x2000 0x200a c || (c =? 0x2028)%N || (c =? 0x2029)%N
  || (c =? 0x202f)%N || (c =? 0x205f)%N || (c =? 0x3000)%N || (c =? 0xfeff)%N.

Definition is_upper_letter (c : code_unit) : bool := in_range 65 90 c.
Definition is_lower_letter (c : code_unit) : bool := in_range 97 122 c.
Definition is_digit (c : code_unit) : bool := in_range 48 57 c.

(** The class [\w]: [A-Za-z0-9_]. *)
Definition is_word (c : code_unit) : bool :=
  is_upper_letter c || is_lower_letter c || is_digit c || (c =? 95)%N.

(** The class [[=<>!]] of the operator rule. *)
Definition is_operator (c : code_unit) : bool :=
  (c =? 61)%N || (c =? 60)%N || (c =? 62)%N || (c =? 33)%N.

(** Case folding of a regular expression with the [i] flag and without the
    [u] flag (Canonicalize): a code unit is compared through its upper case,
    and a code unit outside ASCII never folds to an ASCII one.  All patterns
    of the source are ASCII, so only the ASCII part of the folding is ever
    observed. *)
Definition canonicalize (c : code_unit) : code_unit :=
  if is_lower_letter c then (c - 32)%N else c.

Definition ascii_lower (c : code_unit) : code_unit :=
  if is_upper_letter c then (c + 32)%N else c.

(** [String.prototype.toUpperCase], code unit by code unit.  The code units
    outside ASCII whose upper case contains an ASCII letter are spelled out
    (dotless i, long s, sharp s, the Latin ligatures and the letters with a
    combining mark); any other code unit outside ASCII is kept, because its
    upper case stays outside ASCII and the source only ever compares
    upper-cased text with ASCII constants. *)
Definition upper_code_unit (c : code_unit) : jsstring :=
  if is_lower_letter c then [(c - 32)%N]
  else if (c =? 0x131)%N then [73%N]
  else if (c =? 0x17f)%N then [83%N]
  else if (c =? 0xdf)%N then [83%N; 83%N]
  else if (c =? 0x149)%N then [0x2bc%N; 78%N]
  else if (c =? 0x1f0)%N then [74%N; 0x30c%N]
  else if (c =? 0x1e96)%N then [72%N; 0x331%N]
  else if (c =? 0x1e97)%N then [84%N; 0x308%N]
  else if (c =? 0x1e98)%N then [87%N; 0x30a%N]
  else if (c =? 0x1e99)%N then [89%N; 0x30a%N]
  else if (c =? 0x1e9a)%N then [65%N; 0x2be%N]
  else if (c =? 0xfb00)%N then [70%N; 70%N]
  else if (c =? 0xfb01)%N then [70%N; 73%N]
  else if (c =? 0xfb02)%N then [70%N; 76%N]
  else if (c =? 0xfb03)%N then [70%N; 70%N; 73%N]
  else if (c =? 0xfb04)%N then [70%N; 70%N; 76%N]
  else if (c =? 0xfb05)%N then [83%N; 84%N]
  else if (c =? 0xfb06)%N then [83%N; 84%N]
  else [c].

Definition toUpperCase (s : jsstring) : jsstring := flat_map upper_code_unit s.

(** [String.prototype.toLowerCase].  The source applies it to matches of the
    keyword expression only, which are made of ASCII letters and spaces. *)
Definition toLowerCase (s : jsstring) : jsstring := map ascii_lower s.

Fixpoint drop_while (p : code_unit -> bool) (s : jsstring) : jsstring :=
  match s with
  | c :: t => if p c then drop_while p t else s
  | [] => []
  end.

Definition trimStart (s : jsstring) : jsstring := drop_while is_space s.
Definition trimEnd (s : jsstring) : jsstring := rev (drop_while is_space (rev s)).

(** [String.prototype.trim]. *)
Definition trim (s : jsstring) : jsstring := trimEnd (trimStart s).

Definition cu_eqb (a b : code_unit) : bool := (a =? b)%N.

Fixpoint str_eqb (a b : jsstring) : bool :=
  match a, b with
  | [], [] => true
  | x :: a', y :: b' => cu_eqb x y && str_eqb a' b'
  | _, _ => false
  end.

Fixpoint startsWith (s p : jsstring) : bool :=
  match p, s with
  | [], _ => true
  | x :: p', y :: s' => cu_eqb x y && startsWith s' p'
  | _ :: _, [] => false
  end.

(** [String.prototype.endsWith]. *)
Definition endsWith (s p : jsstring) : bool := startsWith (rev s) (rev p).

(** [String.prototype.includes]. *)
Fixpoint includes (s p : jsstring) : bool :=
  startsWith s p ||
  match s with
  | [] => false
  | _ :: t => includes t p
  end.

(** [Array.prototype.includes] on an array of strings. *)
Definition array_includes (l : list jsstring) (x : jsstring) : bool :=
  existsb (str_eqb x) l.

(** [Array.prototype.join]. *)
Fixpoint array_join (sep : jsstring) (l : list jsstring) : jsstring :=
  match l with
  | [] => []
  | [x] => x
  | x :: t => x ++ sep ++ array_join sep t
  end.

(** A string is truthy when it is not empty. *)
Definition truthy (s : jsstring) : bool :=
  match s with [] => false | _ :: _ => true end.

(** ** Regular expressions *)

(** A regular expression is embedded as the function that, given the code
    unit before the current position (for [\b]) and the text from the
    current position on, returns the length of the match that starts there.
    No expression of the source matches the empty string. *)
Definition matcher := option code_unit -> jsstring -> option nat.

Fixpoint span_len (p : code_unit -> bool) (s : jsstring) : nat :=
  match s with
  | c :: t => if p c then S (span_len p t) else 0
  | [] => 0
  end.

(** [/p+/] for a character class [p] (greedy). *)
Definition re_plus (p : code_unit -> bool) : matcher :=
  fun _ s => match span_len p s with 0 => None | n => Some n end.

(** [/\s*x\s*/] for a single code unit [x] that is not white space. *)
Definition re_spaced (x : code_unit) : matcher :=
  fun _ s =>
    let a := span_len is_space s in
    match skipn a s with
    | c :: r => if cu_eqb c x then Some (a + 1 + span_len is_space r) else None
    | [] => None
    end.

(** [/(\w+)\s*\(/]: the capture is the leading run of word characters. *)
Definition re_call : matcher :=
  fun _ s =>
    let a := span_len is_word s in
    match a with
    | 0 => None
    | _ =>
      let b := span_len is_space (skipn a s) in
      match skipn (a + b) s with
      | c :: _ => if cu_eqb c cu_lparen then Some (a + b + 1) else None
      | [] => None
      end
    end.

Definition is_word_opt (c : option code_unit) : bool :=
  match c with Some c => is_word c | None => false end.

(** The assertion [\b] between two neighbouring positions. *)
Definition word_boundary (prev next : option code_unit) : bool :=
  xorb (is_word_opt prev) (is_word_opt next).

(** A literal matched with the [i] flag; the result is the rest of the text
    together with the last code unit that was consumed. *)
Fixpoint lit_ci (k : jsstring) (prev : option code_unit) (s : jsstring)
  : option (option code_unit * jsstring) :=
  match k with
  | [] => Some (prev, s)
  | x :: k' =>
    match s with
    | c :: t => if cu_eqb (canonicalize x) (canonicalize c)
                then lit_ci k' (Some c) t else None
    | [] => None
    end
  end.

(** One alternative [k] of [/\b(...|k|...)\b/i], tried at the current position. *)
Definition alt_matches (k : jsstring) (prev : option code_unit) (s : jsstring) : bool :=
  match lit_ci k prev s with
  | Some (l, r) => word_boundary l (hd_error r)
  | None => false
  end.

Fixpoint first_alt (alts : list jsstring) (prev : option code_unit) (s : jsstring)
  : option nat :=
  match alts with
  | [] => None
  | k :: rest =>
    if alt_matches k prev s then Some (length k) else first_alt rest prev s
  end.

(** [/\b(k1|k2|...)\b/i]: the alternatives are tried in the order they are
    written, and the first one that is followed by a word boundary wins. *)
Definition re_words (alts : list jsstring) : matcher :=
  fun prev s =>
    if word_boundary prev (hd_error s) then first_alt alts prev s else None.

(** [String.prototype.replace] with a global expression and a replacement
    computed from the matched text.  [skip] counts the code units of the
    current match that are still to be passed over. *)
Fixpoint replace_from (m : matcher) (f : jsstring -> jsstring)
    (prev : option code_unit) (s : jsstring) (skip : nat) : jsstring :=
  match s with
  | [] => []
  | c :: t =>
    match skip with
    | S k => replace_from m f (Some c) t k
    | 0 =>
      match m prev s with
      | Some (S k) => f (firstn (S k) s) ++ replace_from m f (Some c) t k
      | _ => c :: replace_from m f (Some c) t 0
      end
    end
  end.

Definition replace (m : matcher) (f : jsstring -> jsstring) (s : jsstring) : jsstring :=
  replace_from m f None s 0.

Definition cons_head (c : code_unit) (l : list jsstring) : list jsstring :=
  match l with
  | h :: r => (c :: h) :: r
  | [] => [[c]]
  end.

(** [String.prototype.split] with an expression whose single capture group
    is the whole match: the pieces between the matches alternate with the
    matched texts. *)
Fixpoint split_from (m : matcher) (prev : option code_unit) (s : jsstring)
    (skip : nat) : list jsstring :=
  match s with
  | [] => [[]]
  | c :: t =>
    match skip with
    | S k => split_from m (Some c) t k
    | 0 =>
      match m prev s with
      | Some (S k) => [] :: firstn (S k) s :: split_from m (Some c) t k
      | _ => cons_head c (split_from m (Some c) t 0)
      end
    end
  end.

Definition split (m : matcher) (s : jsstring) : list jsstring :=
  split_from m None s 0.

(** ** Abrupt completion *)

(** A JavaScript expression either completes with a value or throws.  The
    only way [formatSqlString] could throw is a method call on [undefined],
    the value of an array access out of range. *)
Inductive completion (A : Type) : Type :=
| Normal (a : A)
| Throw (e : string).

Arguments Normal {A} a.
Arguments Throw {A} e.

Definition bind {A B : Type} (c : completion A) (k : A -> completion B) : completion B :=
  match c with
  | Normal a => k a
  | Throw e => Throw e
  end.

Notation "x <- c ;; k" := (bind c (fun x => k))
  (at level 61, c at next level, right associativity).

(** [a[i]] followed by a method call: a [TypeError] when [i] is out of range. *)
Definition index (a : list jsstring) (i : nat) : completion jsstring :=
  match nth_error a i with
  | Some x => Normal x
  | None => Throw "TypeError: Cannot read properties of undefined"
  end.

(** [for (let i = start; i < start + n; i++) body]. *)
Fixpoint for_loop {St : Type} (n : nat) (i : nat) (body : nat -> St -> completion St)
    (st : St) : completion St :=
  match n with
  | 0 => Normal st
  | S n' => st' <- body i st ;; for_loop n' (S i) body st'
  end.

(** [for (const x of l) body]. *)
Fixpoint for_of {St : Type} (l : list jsstring) (body : jsstring -> St -> completion St)
    (st : St) : completion St :=
  match l with
  | [] => Normal st
  | x :: t => st' <- body x st ;; for_of t body st'
  end.

(** ** The formatter *)

(** [SqlFormatterOptions]: every field is optional.  The fields are typed as
    string unions in the source, but any string can arrive at run time, so
    they are kept as strings. *)
Record SqlFormatterOptions : Type := {
  keywordCase : option string;
  indentStyle : option string;
  linesBetweenQueries : option N;
  maxColumnLength : option N;
  commaPosition : option string
}.

(** The default argument [{}]. *)
Definition no_options : SqlFormatterOptions :=
  {| keywordCase := None; indentStyle := None; linesBetweenQueries := None;
     maxColumnLength := None; commaPosition := None |}.

Definition option_is (o : option string) (v : string) : bool :=
  match o with
  | Some x => String.eqb x v
  | None => false
  end.

(** [!o] for an optional string: [undefined] and the empty string are falsy. *)
Definition option_falsy (o : option string) : bool :=
  match o with
  | Some x => String.eqb x ""
  | None => true
  end.

Definition SQL_KEYWORDS : list jsstring :=
  map js
    ["SELECT"; "FROM"; "WHERE"; "AND"; "OR"; "INSERT"; "UPDATE"; "DELETE";
     "JOIN"; "INNER JOIN"; "LEFT JOIN"; "RIGHT JOIN"; "OUTER JOIN";
     "GROUP BY"; "ORDER BY"; "HAVING"; "LIMIT"; "OFFSET"; "AS";
     "UNION"; "ALL"; "IN"; "BETWEEN"; "LIKE"; "IS"; "NULL";
     "CREATE"; "TABLE"; "DROP"; "ALTER"; "INDEX"; "PRIMARY KEY";
     "FOREIGN KEY"; "CONSTRAINT"; "DEFAULT"; "CASCADE"]%string.

(** The list [keywords] of [formatSqlString]: [SQL_KEYWORDS] with DESC and ASC. *)
Definition keywords : list jsstring :=
  SQL_KEYWORDS ++ map js ["DESC"; "ASC"]%string.

(** [keywordRegex]. *)
Definition keywordRegex : matcher := re_words keywords.

Definition major_keywords : list jsstring :=
  map js ["SELECT"; "FROM"; "WHERE"; "GROUP BY"; "HAVING"; "ORDER BY"; "LIMIT"]%string.

(** [/\b(SELECT|FROM|WHERE|GROUP BY|HAVING|ORDER BY|LIMIT)\b/i]. *)
Definition majorRegex : matcher := re_words major_keywords.

(** [/\b((?:INNER |LEFT |RIGHT |OUTER )?JOIN\b)/i]: the optional group is
    greedy, so its four alternatives are tried in order before the empty
    one, each followed by JOIN and a word boundary. *)
Definition joinRegex : matcher :=
  re_words (map (fun q => js q ++ js "JOIN")
              ["INNER "; "LEFT "; "RIGHT "; "OUTER "; ""]%string).

(** [/\bON\b/gi]. *)
Definition onRegex : matcher := re_words [js "ON"].

(** Rule 1: [sql.replace(/\s+/g, ' ').trim()]. *)
Definition collapse_spaces (s : jsstring) : jsstring :=
  replace (re_plus is_space) (fun _ => [cu_space]) s.

Definition normalize_whitespace (s : jsstring) : jsstring := trim (collapse_spaces s).

(** [.replace(/([=<>!]+)/g, ' $1 ')]. *)
Definition space_operators (s : jsstring) : jsstring :=
  replace (re_plus is_operator) (fun m => [cu_space] ++ m ++ [cu_space]) s.

(** [.replace(/\s*,\s*/g, options.commaPosition === 'before' ? ' , ' : ', ')]. *)
Definition comma_text (o : SqlFormatterOptions) : jsstring :=
  if option_is (commaPosition o) "before" then js " , " else js ", ".

Definition space_commas (o : SqlFormatterOptions) (s : jsstring) : jsstring :=
  replace (re_spaced cu_comma) (fun _ => comma_text o) s.

(** [.replace(/\s*\(\s*/g, '(')]. *)
Definition open_parens (s : jsstring) : jsstring :=
  replace (re_spaced cu_lparen) (fun _ => js "(") s.

(** [.replace(/\s*\)\s*/g, ') ')]. *)
Definition close_parens (s : jsstring) : jsstring :=
  replace (re_spaced cu_rparen) (fun _ => js ") ") s.

(** [.replace(/(\w+)\s*\(/g, '$1(')]. *)
Definition call_parens (s : jsstring) : jsstring :=
  replace re_call (fun m => firstn (span_len is_word m) m ++ js "(") s.

(** Lines 59 to 70: the normalization stage. *)
Definition normalize (o : SqlFormatterOptions) (sql : jsstring) : jsstring :=
  let formattedSql := normalize_whitespace sql in
  let formattedSql :=
    collapse_spaces
      (close_parens (open_parens (space_commas o (space_operators formattedSql)))) in
  call_parens formattedSql.

(** Lines 82 to 86: the keyword case stage. *)
Definition keyword_case (o : SqlFormatterOptions) (formattedSql : jsstring) : jsstring :=
  if option_is (keywordCase o) "upper" || option_falsy (keywordCase o) then
    replace keywordRegex toUpperCase formattedSql
  else if option_is (keywordCase o) "lower" then
    replace keywordRegex toLowerCase formattedSql
  else formattedSql.

(** The two variables of the segmentation loop: [result] and [currentPart]. *)
Definition seg_state : Type := (list jsstring * jsstring)%type.

(** [if (currentPart) { result.push(currentPart.trim()); }] *)
Definition push_current (st : seg_state) : list jsstring :=
  let (result, currentPart) := st in
  if truthy currentPart then result ++ [trim currentPart] else result.

(** The body of the loop over [joinParts] (lines 106 to 120). *)
Definition join_body (joinParts : list jsstring) (i : nat) (st : seg_state)
  : completion seg_state :=
  p <- index joinParts i ;;
  let joinPart := trim p in
  if negb (truthy joinPart) then Normal st
  else if endsWith (toUpperCase joinPart) (js "JOIN") then
    Normal (push_current st, joinPart)
  else if (0 <? i) then
    q <- index joinParts (i - 1) ;;
    if endsWith (toUpperCase q) (js "JOIN") then
      Normal (fst st, snd st ++ js " " ++ joinPart)
    else
      Normal (fst st, snd st ++ js " " ++ joinPart)
  else
    Normal (fst st, snd st ++ js " " ++ joinPart).

(** The body of the loop over [mainParts] (lines 94 to 122). *)
Definition main_body (part : jsstring) (st : seg_state) : completion seg_state :=
  if negb (truthy (trim part)) then Normal st
  else
    let upperPart := toUpperCase (trim part) in
    if array_includes major_keywords upperPart then
      Normal (push_current st, part)
    else
      let joinParts := split joinRegex part in
      for_loop (length joinParts) 0 (join_body joinParts) st.

(** Lines 89 to 127: the clause segmentation stage. *)
Definition segment (formattedSql : jsstring) : completion (list jsstring) :=
  let mainParts := split majorRegex formattedSql in
  st <- for_of mainParts main_body ([], []) ;;
  Normal (push_current st).

(** The callback of [.map] in the final pass (lines 132 to 139). *)
Definition recase_on (o : SqlFormatterOptions) (clause : jsstring) : jsstring :=
  if includes (toUpperCase clause) (js "JOIN") then
    let onKeyword := if option_is (keywordCase o) "lower" then js "on" else js "ON" in
    replace onRegex (fun _ => onKeyword) clause
  else clause.

(** Lines 130 to 140: the assembly stage. *)
Definition assemble (o : SqlFormatterOptions) (result : list jsstring) : jsstring :=
  array_join [cu_newline] (map (recase_on o) (filter truthy result)).

Definition formatSqlString (sql : jsstring) (o : SqlFormatterOptions)
  : completion jsstring :=
  let formattedSql := keyword_case o (normalize o sql) in
  result <- segment formattedSql ;;
  Normal (assemble o result).

(** ** The loops without indices

    The loops of the segmentation stage, written as folds.  They are shown
    below to be what the indexed loops compute; no array access of the source
    is ever out of range. *)

Definition join_piece (st : seg_state) (p : jsstring) : seg_state :=
  let joinPart := trim p in
  if negb (truthy joinPart) then st
  else if endsWith (toUpperCase joinPart) (js "JOIN") then (push_current st, joinPart)
  else (fst st, snd st ++ js " " ++ joinPart).

Definition main_piece (st : seg_state) (part : jsstring) : seg_state :=
  if negb (truthy (trim part)) then st
  else if array_includes major_keywords (toUpperCase (trim part)) then
    (push_current st, part)
  else fold_left join_piece (split joinRegex part) st.

Definition clauses_of (formattedSql : jsstring) : list jsstring :=
  push_current (fold_left main_piece (split majorRegex formattedSql) ([], [])).

Definition format_text (sql : jsstring) (o : SqlFormatterOptions) : jsstring :=
  assemble o (clauses_of (keyword_case o (normalize o sql))).

(** The number of lines of an output: none for the empty output, and one
    more than the number of line feeds otherwise. *)
Definition line_count (s : jsstring) : nat :=
  match s with
  | [] => 0
  | _ => S (count_occ N.eq_dec s cu_newline)
  end.

(** The number of matches of an expression in a text: [split] returns one
    piece more than matches, and each match once as a capture. *)
Definition count_matches (m : matcher) (s : jsstring) : nat :=
  Nat.div2 (length (split m s)).

(** Options that differ from [o] in [keywordCase] only. *)
Definition with_keywordCase (o : SqlFormatterOptions) (kc : option string)
  : SqlFormatterOptions :=
  {| keywordCase := kc; indentStyle := indentStyle o;
     linesBetweenQueries := linesBetweenQueries o;
     maxColumnLength := maxColumnLength o; commaPosition := commaPosition o |}.

(** ** Matches and occurrences *)

(** The last code unit of [m], or [prev] when [m] is empty. *)
Definition last_cu (prev : option code_unit) (m : jsstring) : option code_unit :=
  fold_left (fun _ c => Some c) m prev.

(** [slice i n s] is [s.substring(i, i + n)]. *)
Definition slice (i n : nat) (s : jsstring) : jsstring := firstn n (skipn i s).

(** A whole-word, case-insensitive occurrence of [k] at index [i] of a text
    that is preceded by [prev]: the text reads [k] there up to case, with a
    word boundary before and after. *)
Definition occurs_at (k : jsstring) (prev : option code_unit) (s : jsstring) (i : nat)
  : Prop :=
  exists a m b : jsstring,
    s = a ++ m ++ b /\ length a = i /\
    map canonicalize m = map canonicalize k /\
    word_boundary (last_cu prev a) (hd_error (m ++ b)) = true /\
    word_boundary (last_cu (last_cu prev a) m) (hd_error b) = true.

(** The positions of a text that lie inside a match of [replace]. *)
Fixpoint cover (m : matcher) (prev : option code_unit) (s : jsstring) (skip : nat)
  : list bool :=
  match s with
  | [] => []
  | c :: t =>
    match skip with
    | S k => true :: cover m (Some c) t k
    | 0 =>
      match m prev s with
      | Some (S k) => true :: cover m (Some c) t k
      | _ => false :: cover m (Some c) t 0
      end
    end
  end.

(** The text in which the marked positions are folded to upper case and
    then sent through [g]; the other positions are kept. *)
Fixpoint recase (g : code_unit -> code_unit) (mask : list bool) (s : jsstring) : jsstring :=
  match mask, s with
  | b :: mask', c :: t => (if b then g (canonicalize c) else c) :: recase g mask' t
  | _, _ => []
  end.

Definition junction (x y : jsstring) : bool :=
  word_boundary (last_cu None x) (hd_error y).

(** Alternative [k] starts at offset [i] inside alternative [k'], at a word
    boundary, and runs past the end of [k'] although [k'] ends at a word
    boundary.  A list of alternatives without such a pair has the property
    that the matches of [re_words] contain every whole-word occurrence. *)
Definition straddles (k' k : jsstring) (i : nat) : bool :=
  let U := skipn i k' in
  let V := skipn (length U) k in
  truthy U && truthy V
  && str_eqb (map canonicalize U) (map canonicalize (firstn (length U) k))
  && ((i =? 0) || junction (firstn i k') U)
  && junction U V.

Definition no_straddle (alts : list jsstring) : bool :=
  forallb (fun k' =>
    forallb (fun k =>
      forallb (fun i => negb (straddles k' k i)) (seq 0 (length k'))) alts) alts.

(** Upper-case ASCII letters and the space: the code units of the keywords. *)
Definition is_plain (c : code_unit) : bool := is_upper_letter c || cu_eqb c cu_space.

(** The text that the final pass writes for ON. *)
Definition on_keyword (o : SqlFormatterOptions) : jsstring :=
  if option_is (keywordCase o) "lower" then js "on" else js "ON".

(** An options record whose keywordCase is none of the three choices. *)
Definition title_case_options : SqlFormatterOptions :=
  with_keywordCase no_options (Some "title"%string).

(** ** The comma rule, field by field *)

(** The pieces of a text between its commas. *)
Fixpoint comma_fields (s : jsstring) : list jsstring :=
  match s with
  | [] => [[]]
  | c :: t =>
    if cu_eqb c cu_comma then [] :: comma_fields t
    else cons_head c (comma_fields t)
  end.

(** The fields after the first one, each introduced by the comma text [r]:
    a field loses the white space next to its commas. *)
Fixpoint render_rest (r : jsstring) (fields : list jsstring) : jsstring :=
  match fields with
  | [] => []
  | [x] => r ++ trimStart x
  | x :: rest => r ++ trim x ++ render_rest r rest
  end.

(** The text in which every comma, together with the white space on both
    sides of it, is replaced by [r]. *)
Definition render_commas (r : jsstring) (s : jsstring) : jsstring :=
  match comma_fields s with
  | [] => []
  | [x] => x
  | x :: rest => trimEnd x ++ render_rest r rest
  end.

(** ** Texts as code units with the number of spaces before each *)

Definition cell : Type := (nat * code_unit)%type.

Definition spaces (n : nat) : jsstring := repeat cu_space n.

(** The text of a list of cells, followed by [tr] spaces. *)
Fixpoint flat (l : list cell) (tr : nat) : jsstring :=
  match l with
  | [] => spaces tr
  | (n, c) :: t => spaces n ++ c :: flat t tr
  end.

(** The code units of a text that are not white space; each is marked 1
    when white space comes before it and 0 otherwise. *)
Fixpoint cells_from (sp : nat) (s : jsstring) : list cell :=
  match s with
  | [] => []
  | c :: t => if is_space c then cells_from 1 t else (sp, c) :: cells_from 0 t
  end.

Fixpoint trail_from (sp : nat) (s : jsstring) : nat :=
  match s with
  | [] => sp
  | c :: t => if is_space c then trail_from 1 t else trail_from 0 t
  end.

(** A rule that only changes the number of spaces between two neighbouring
    code units, as a function of the two. *)
Definition spacing : Type := option code_unit -> nat -> option code_unit -> nat.

Fixpoint respace (h : spacing) (p : option code_unit) (l : list cell) : list cell :=
  match l with
  | [] => []
  | (n, c) :: t => (h p n (Some c), c) :: respace h (Some c) t
  end.

Definition last_char (p : option code_unit) (l : list cell) : option code_unit :=
  fold_left (fun _ x => Some (snd x)) l p.

Definition respace_trail (h : spacing) (p : option code_unit) (l : list cell) (tr : nat) : nat :=
  h (last_char p l) tr None.

Definition opt_is (x : code_unit) (p : option code_unit) : bool :=
  match p with Some c => cu_eqb c x | None => false end.

Definition opt_operator (p : option code_unit) : bool :=
  match p with Some c => is_operator c | None => false end.

(** The operator rule: a space on both sides of every run of operators. *)
Definition h_operators : spacing :=
  fun p n c =>
    let same_run := opt_operator p && opt_operator c && (n =? 0) in
    n + (if opt_operator p && negb same_run then 1 else 0)
      + (if opt_operator c && negb same_run then 1 else 0).

(** A rule [/\s*x\s*/] with a replacement made of [a] spaces, [x], [b] spaces. *)
Definition h_spaced (x : code_unit) (a b : nat) : spacing :=
  fun p n c =>
    if opt_is x p || opt_is x c then
      (if opt_is x p then b else 0) + (if opt_is x c then a else 0)
    else n.

Definition h_collapse : spacing := fun _ n _ => Nat.min n 1.

(** The spacing of the normalization stage under the default options. *)
Definition h_normalize : spacing :=
  fun p n c =>
    h_collapse p
      (h_spaced cu_rparen 0 1 p
         (h_spaced cu_lparen 0 0 p
            (h_spaced cu_comma 0 1 p (h_operators p n c) c) c) c) c.

Definition unlead (l : list cell) : list cell :=
  match l with
  | [] => []
  | (_, c) :: t => (0, c) :: t
  end.

Definition normalize_cells (sql : jsstring) : jsstring :=
  let l := unlead (cells_from 0 sql) in
  flat (respace h_normalize None l) (respace_trail h_normalize None l 0).

Definition valid (l : list cell) : Prop := Forall (fun x => is_space (snd x) = false) l.

Definition op_text (m : jsstring) : jsstring := [cu_space] ++ m ++ [cu_space].

(** No opening parenthesis has spaces before it when the code unit before
    them is a word character. *)
Fixpoint call_ok (p : option code_unit) (l : list cell) : Prop :=
  match l with
  | [] => True
  | (n, c) :: t =>
    (c = cu_lparen -> is_word_opt p = true -> n = 0) /\ call_ok (Some c) t
  end.

Definition call_text (m : jsstring) : jsstring :=
  firstn (span_len is_word m) m ++ js "(".

(** A match of the call expression that has no white space in it. *)
Definition tight_call (s : jsstring) : Prop :=
  hd_error (skipn (span_len is_word s
                   + span_len is_space (skipn (span_len is_word s) s)) s)
  = Some cu_lparen ->
  0 < span_len is_word s ->
  span_len is_space (skipn (span_len is_word s) s) = 0.

Definition default_commas (o : SqlFormatterOptions) : Prop :=
  option_is (commaPosition o) "before" = false.

(** ** Keyword expressions on cells *)

(** A literal matched against cells: the numbers of spaces must agree and
    the code units must agree up to case. *)
Fixpoint cmatch (kc : list cell) (l : list cell) : option (list cell) :=
  match kc with
  | [] => Some l
  | (pn, pc) :: kc' =>
    match l with
    | (n, c) :: l' =>
      if (n =? pn) && cu_eqb (canonicalize pc) (canonicalize c)
      then cmatch kc' l' else None
    | [] => None
    end
  end.

(** The first cell of a text starts a word. *)
Definition starts_word (l : list cell) : bool :=
  match l with
  | (0, c) :: _ => is_word c
  | _ => false
  end.

(** One alternative at a cell whose code unit is [c]; the result is the
    number of cells of the match. *)
Definition calt_matches (k : jsstring) (c : code_unit) (t : list cell) : bool :=
  match cmatch (cells_from 0 k) ((0, c) :: t) with
  | Some rest => negb (starts_word rest)
  | None => false
  end.

Fixpoint cfirst_alt (alts : list jsstring) (c : code_unit) (t : list cell) : option nat :=
  match alts with
  | [] => None
  | k :: rest =>
    if calt_matches k c t then Some (length (cells_from 0 k)) else cfirst_alt rest c t
  end.

(** [re_words] at the code unit of the first cell. *)
Definition cre_words (alts : list jsstring) (p : option code_unit) (l : list cell)
  : option nat :=
  match l with
  | (n, c) :: t =>
    if xorb ((n =? 0) && is_word_opt p) (is_word c) then cfirst_alt alts c t else None
  | [] => None
  end.

Definition cons_group (x : cell) (g : list (list cell)) : list (list cell) :=
  match g with
  | h :: r => (x :: h) :: r
  | [] => [[x]]
  end.

(** The cells of a text grouped as [split] cuts it: text, capture, text,
    and so on.  [skip] counts the cells of the current capture that are
    still to come, the first cell of the list included. *)
Fixpoint cgroups (alts : list jsstring) (p : option code_unit) (l : list cell)
    (skip : nat) : list (list cell) :=
  match l with
  | [] => [[]]
  | (n, c) :: t =>
    match skip with
    | S 0 => [(n, c)] :: cgroups alts (Some c) t 0
    | S k => cons_group (n, c) (cgroups alts (Some c) t k)
    | 0 =>
      match cre_words alts p l with
      | Some 1 => [] :: [(n, c)] :: cgroups alts (Some c) t 0
      | Some (S k) => [] :: cons_group (n, c) (cgroups alts (Some c) t k)
      | _ => cons_group (n, c) (cgroups alts (Some c) t 0)
      end
    end
  end.

Definition first_count (l : list cell) (tr : nat) : nat :=
  match l with
  | (n, _) :: _ => n
  | [] => tr
  end.

(** The strings of the groups: a text ends with the spaces that come before
    the capture after it, and a capture starts at its first code unit. *)
Fixpoint render_groups (text : bool) (g : list (list cell)) (tr : nat) : list jsstring :=
  match g with
  | [] => []
  | x :: r =>
    (if text then flat x (first_count (concat r) tr) else flat (unlead x) 0)
    :: render_groups (negb text) r tr
  end.

(** An alternative made of words separated by single spaces. *)
Definition kw_shaped (k : jsstring) : bool :=
  str_eqb k (flat (cells_from 0 k) 0)
  && starts_word (cells_from 0 k)
  && forallb (fun x => is_word (snd x)) (cells_from 0 k).

Definition prepend (a : jsstring) (l : list jsstring) : list jsstring :=
  match l with
  | h :: r => (a ++ h) :: r
  | [] => [a]
  end.

(** Two texts with the same code units up to case; the numbers of spaces
    may differ between two code units that are not both word characters. *)
Fixpoint respaced (p : option code_unit) (l l' : list cell) : Prop :=
  match l, l' with
  | [], [] => True
  | (n, c) :: t, (n', c') :: t' =>
    canonicalize c = canonicalize c'
    /\ (n = n' \/ is_word_opt p && is_word c = false)
    /\ respaced (Some c) t t'
  | _, _ => False
  end.

Definition cons_len (l : list nat) : list nat :=
  match l with
  | h :: r => S h :: r
  | [] => [1]
  end.

(** Every number of spaces of the text is the one the normalization stage
    gives. *)
Fixpoint stable (p : option code_unit) (l : list cell) : Prop :=
  match l with
  | [] => True
  | (n, c) :: t => h_normalize p n (Some c) = n /\ stable (Some c) t
  end.

Definition opt_canon (p : option code_unit) : option code_unit :=
  match p with Some c => Some (canonicalize c) | None => None end.

Definition cv (a b : jsstring) : Prop := map canonicalize a = map canonicalize b.

(** The text of a group without the spaces around it. *)
Definition cstr (g : list cell) : jsstring := flat (unlead g) 0.

Definition join_item (st : seg_state) (joinPart : jsstring) : seg_state :=
  if negb (truthy joinPart) then st
  else if endsWith (toUpperCase joinPart) (js "JOIN") then (push_current st, joinPart)
  else (fst st, snd st ++ js " " ++ joinPart).

Definition setfirst (n : nat) (l : list cell) : list cell :=
  match l with
  | [] => []
  | (_, c) :: t => (n, c) :: t
  end.

(** The cells of the text the segmentation would give if it stopped now. *)
Definition state_cells (st : seg_state) : list cell :=
  cells_from 0 (array_join [cu_newline] (fst st))
  ++ setfirst (match fst st with [] => 0 | _ :: _ => 1 end) (cells_from 0 (snd st)).

Definition seg_inv (st : seg_state) (acc : list cell) : Prop :=
  state_cells st = unlead acc
  /\ (snd st = [] -> fst st = [] /\ acc = [])
  /\ (snd st <> [] -> cells_from 0 (snd st) <> [] /\ acc <> [])
  /\ Forall (fun c => truthy c = true) (fst st).

(** The cells that one of the [mainParts] adds to the output. *)
Definition piece_cells (part : jsstring) : list cell :=
  if negb (truthy (trim part)) then []
  else if array_includes major_keywords (toUpperCase (trim part)) then
    setfirst 1 (cells_from 0 part)
  else concat (map (fun p => setfirst 1 (cells_from 0 (trim p))) (split joinRegex part)).

(** ** The parser and the printer *)

(** [SqlNode]. *)
Record SqlNode : Type := { type : string; value : jsstring }.

(** [parsers.sql.parse]: the options are not read. *)
Definition parse (text : jsstring) (options : SqlFormatterOptions) : SqlNode :=
  {| type := "sql"; value := text |}.

(** [locStart] and [locEnd]. *)
Definition locStart : N := 0.
Definition locEnd : N := 0.

(** [PrinterOptions]: the printer reads [sqlFormatter] only, and it may be
    absent. *)
Record PrinterOptions : Type := { sqlFormatter : option SqlFormatterOptions }.

(** An [AstPath]: the printer only calls [getValue]. *)
Record AstPath : Type := { getValue : SqlNode }.

(** [printers.sql.print]: [options.sqlFormatter ?? {}] is the argument of
    the formatter.  The third argument of the source is never called. *)
Definition print (path : AstPath) (options : PrinterOptions) : completion jsstring :=
  let node := getValue path in
  let pluginOptions :=
    match sqlFormatter options with Some o => o | None => no_options end in
  formatSqlString (value node) pluginOptions.

(** [defaultOptions]. *)
Definition defaultOptions : SqlFormatterOptions :=
  {| keywordCase := Some "upper"%string; indentStyle := Some "standard"%string;
     linesBetweenQueries := Some 1%N; maxColumnLength := Some 50%N;
     commaPosition := Some "after"%string |}.

(** [createMockPath] and [formatSQL] of the test suite. *)
Definition createMockPath (v : SqlNode) : AstPath := {| getValue := v |}.

Definition formatSQL (input : jsstring) (formatterOptions : SqlFormatterOptions)
  : completion jsstring :=
  let ast := parse input formatterOptions in
  print (createMockPath ast) {| sqlFormatter := Some formatterOptions |}.

(** ** The normalization stage for any options *)

(** The number of spaces the comma rule writes before a comma. *)
Definition comma_lead (o : SqlFormatterOptions) : nat :=
  if option_is (commaPosition o) "before" then 1 else 0.

(** The spacing of the normalization stage. *)
Definition h_stage (o : SqlFormatterOptions) : spacing :=
  fun p n c =>
    h_collapse p
      (h_spaced cu_rparen 0 1 p
         (h_spaced cu_lparen 0 0 p
            (h_spaced cu_comma (comma_lead o) 1 p (h_operators p n c) c) c) c) c.

(** Every white-space code unit of a text is a plain space that no white
    space follows. *)
Fixpoint single_spaced (s : jsstring) : bool :=
  match s with
  | [] => true
  | c :: t =>
    (negb (is_space c)
     || (cu_eqb c cu_space
         && match t with d :: _ => negb (is_space d) | [] => true end))
    && single_spaced t
  end.

(** The code units of a text that are not white space. *)
Definition content (s : jsstring) : jsstring := filter (fun c => negb (is_space c)) s.

(** Cells with at most one space before each. *)
Definition small (l : list cell) : Prop := Forall (fun x => fst x <= 1) l.

(** The letter the final pass writes for a letter of ON. *)
Definition on_letter (o : SqlFormatterOptions) : code_unit -> code_unit :=
  if option_is (keywordCase o) "lower" then ascii_lower else fun c => c.

(** A code unit that is not white space, or the plain space. *)
Definition plain_space (c : code_unit) : bool := negb (is_space c) || cu_eqb c cu_space.

(** The only white space of a text is the plain space. *)
Definition plain_spaced (s : jsstring) : bool := forallb plain_space s.

(** A clause as the segmentation leaves it: not empty, without white space
    at either end, and with plain spaces as its only white space. *)
Definition clause_shaped (c : jsstring) : Prop :=
  c <> [] /\ trim c = c /\ plain_spaced c = true.

(** What the segmentation loop keeps true of its two variables. *)
Definition shape_inv (st : seg_state) : Prop :=
  Forall (fun c => trim c = c /\ plain_spaced c = true) (fst st)
  /\ plain_spaced (snd st) = true.

(** ** Neighbouring code units *)

(** Every code unit of a text is in relation [R] with the code unit after
    it, if any; [p] is the code unit before the text. *)
Fixpoint adjacent (R : code_unit -> option code_unit -> bool) (p : option code_unit)
    (s : jsstring) : bool :=
  match s with
  | [] => match p with Some x => R x None | None => true end
  | c :: t =>
    match p with Some x => R x (Some c) | None => true end && adjacent R (Some c) t
  end.

(** The same on cells: [n] spaces between [p] and [next]. *)
Definition gap (R : code_unit -> option code_unit -> bool) (p : option code_unit)
    (n : nat) (next : option code_unit) : Prop :=
  match n with
  | 0 => match p with Some x => R x next = true | None => True end
  | 1 => match p with Some x => R x (Some cu_space) = true | None => True end
         /\ R cu_space next = true
  | _ => False
  end.

(** No operator is next to a word character. *)
Definition operator_apart (x : code_unit) (next : option code_unit) : bool :=
  match next with
  | Some y => negb ((is_operator x && is_word y) || (is_word x && is_operator y))
  | None => true
  end.

(** No white space after an opening parenthesis. *)
Definition open_tight (x : code_unit) (next : option code_unit) : bool :=
  negb (cu_eqb x cu_lparen
        && match next with Some y => is_space y | None => false end).

(** A plain space after every closing parenthesis. *)
Definition close_spaced (x : code_unit) (next : option code_unit) : bool :=
  negb (cu_eqb x cu_rparen) || opt_is cu_space next.

(** After a comma comes a plain space or a parenthesis. *)
Definition comma_spaced (x : code_unit) (next : option code_unit) : bool :=
  negb (cu_eqb x cu_comma)
  || opt_is cu_space next || opt_is cu_lparen next || opt_is cu_rparen next.

(** The text that starts a clause: one of the seven clause keywords up to
    case, or a text whose upper case ends in JOIN. *)
Definition clause_head (w : jsstring) : bool :=
  array_includes major_keywords (toUpperCase w) || endsWith (toUpperCase w) (js "JOIN").

Definition headed (c : jsstring) : Prop :=
  exists w t, c = w ++ t /\ w <> [] /\ clause_head w = true.

(** What the segmentation loop keeps true of the clause under way once a
    first clause has been pushed. *)
Definition head_inv (st : seg_state) : Prop :=
  Forall headed (tl (fst st)) /\ (fst st <> [] -> headed (trim (snd st))).

(** Two states of the segmentation loop that agree up to case. *)
Definition state_cv (st st' : seg_state) : Prop :=
  Forall2 cv (fst st) (fst st') /\ cv (snd st) (snd st').

(** Every two code units of a text that are not white space and have
    nothing but white space between them are in relation [R]; the boolean
    tells whether there is white space between them.  [p] is the last code
    unit before the text that is not white space and [sp] tells whether
    white space has been passed since. *)
Fixpoint separated (R : code_unit -> bool -> code_unit -> bool) (p : option code_unit)
    (sp : bool) (s : jsstring) : bool :=
  match s with
  | [] => true
  | c :: t =>
    if is_space c then separated R p true t
    else match p with Some x => R x sp c | None => true end
         && separated R (Some c) false t
  end.

(** White space comes before an opening parenthesis only after a closing
    parenthesis. *)
Definition open_after (x : code_unit) (sp : bool) (y : code_unit) : bool :=
  negb (sp && cu_eqb y cu_lparen) || cu_eqb x cu_rparen.

(** White space comes before a comma only after a comma or a closing
    parenthesis. *)
Definition comma_after (x : code_unit) (sp : bool) (y : code_unit) : bool :=
  negb (sp && cu_eqb y cu_comma) || cu_eqb x cu_comma || cu_eqb x cu_rparen.

(** A comma comes directly after an opening parenthesis only. *)
Definition comma_before (x : code_unit) (sp : bool) (y : code_unit) : bool :=
  negb (negb sp && cu_eqb y cu_comma) || cu_eqb x cu_lparen.

(** White space, for a code unit that may be missing. *)
Definition is_space_opt (c : option code_unit) : bool :=
  match c with Some c => is_space c | None => false end.

(** A comma comes directly after a plain space or an opening parenthesis. *)
Definition comma_led (x : code_unit) (next : option code_unit) : bool :=
  negb (opt_is cu_comma next) || cu_eqb x cu_space || cu_eqb x cu_lparen.

(** * Properties *)

(** ** The indexed loops *)

Lemma index_app_r (l1 l2 : list jsstring) (x : jsstring) :
  index (l1 ++ x :: l2) (length l1) = Normal x.
Proof.
  unfold index. rewrite nth_error_app2 by lia.
  now rewrite Nat.sub_diag.
Qed.

Lemma join_body_piece (l1 l2 : list jsstring) (x : jsstring) (st : seg_state) :
  join_body (l1 ++ x :: l2) (length l1) st = Normal (join_piece st x).
Proof.
  unfold join_body, join_piece. rewrite index_app_r. cbn [bind].
  destruct (negb (truthy (trim x))); [reflexivity|].
  destruct (endsWith (toUpperCase (trim x)) (js "JOIN")); [reflexivity|].
  destruct l1 as [|y l1] using rev_ind; [reflexivity|].
  rewrite length_app. cbn [length].
  replace (0 <? length l1 + 1) with true by (symmetry; apply Nat.ltb_lt; lia).
  replace (length l1 + 1 - 1) with (length l1) by lia.
  rewrite <- app_assoc. cbn [app]. rewrite index_app_r. cbn [bind].
  now destruct (endsWith (toUpperCase y) (js "JOIN")).
Qed.

Lemma join_loop_fold (l2 l1 : list jsstring) (st : seg_state) :
  for_loop (length l2) (length l1) (join_body (l1 ++ l2)) st
  = Normal (fold_left join_piece l2 st).
Proof.
  revert l1 st. induction l2 as [|x l2 IH]; intros l1 st; [reflexivity|].
  cbn [length for_loop fold_left]. rewrite join_body_piece. cbn [bind].
  specialize (IH (l1 ++ [x]) (join_piece st x)).
  rewrite length_app, <- app_assoc in IH. cbn [length app] in IH.
  now replace (length l1 + 1) with (S (length l1)) in IH by lia.
Qed.

Lemma main_body_piece (part : jsstring) (st : seg_state) :
  main_body part st = Normal (main_piece st part).
Proof.
  unfold main_body, main_piece.
  destruct (negb (truthy (trim part))); [reflexivity|].
  destruct (array_includes major_keywords (toUpperCase (trim part))); [reflexivity|].
  apply (join_loop_fold (split joinRegex part) []).
Qed.

Lemma main_loop_fold (l : list jsstring) (st : seg_state) :
  for_of l main_body st = Normal (fold_left main_piece l st).
Proof.
  revert st. induction l as [|x l IH]; intros st; [reflexivity|].
  cbn [for_of fold_left]. rewrite main_body_piece. cbn [bind]. apply IH.
Qed.

Lemma segment_clauses (s : jsstring) : segment s = Normal (clauses_of s).
Proof.
  unfold segment, clauses_of. now rewrite main_loop_fold.
Qed.

Lemma formatSqlString_text (sql : jsstring) (o : SqlFormatterOptions) :
  formatSqlString sql o = Normal (format_text sql o).
Proof.
  unfold formatSqlString, format_text. now rewrite segment_clauses.
Qed.

(** ** The concrete scenario of the test suite *)

(** C1. The basic query of the test suite, formatted with the default
    (empty) options, gives SELECT, FROM and WHERE clauses on three lines:
    keywords in upper case, commas followed by one space, the equals sign
    surrounded by spaces, no trailing line feed. *)
Theorem format_basic_query :
  formatSqlString (js "select id,name,email from users where status=1") no_options
  = Normal (js "SELECT id, name, email" ++ [cu_newline]
            ++ js "FROM users" ++ [cu_newline]
            ++ js "WHERE status = 1").
Proof. vm_compute. reflexivity. Qed.

(** ** Options that are never read *)

(** C5. Two option records that agree on keywordCase and commaPosition give
    the same output on every input, whatever their indentStyle,
    linesBetweenQueries and maxColumnLength are. *)
Theorem unused_options_noninterference (sql : jsstring) (o1 o2 : SqlFormatterOptions) :
  keywordCase o1 = keywordCase o2 ->
  commaPosition o1 = commaPosition o2 ->
  formatSqlString sql o1 = formatSqlString sql o2.
Proof.
  intros Hk Hc.
  unfold formatSqlString, normalize, space_commas, comma_text, keyword_case,
    assemble, recase_on.
  rewrite Hk, Hc. reflexivity.
Qed.

Lemma unused_options_noninterference_witness :
  formatSqlString (js "select a,b from t")
    {| keywordCase := Some "lower"%string; indentStyle := Some "tabular"%string;
       linesBetweenQueries := Some 3%N; maxColumnLength := Some 10%N;
       commaPosition := Some "before"%string |}
  = formatSqlString (js "select a,b from t")
    {| keywordCase := Some "lower"%string; indentStyle := None;
       linesBetweenQueries := None; maxColumnLength := Some 80%N;
       commaPosition := Some "before"%string |}.
Proof.
  apply unused_options_noninterference; reflexivity.
Defined.

(** ** Totality *)

(** C7. For every input string and every options record the formatter
    completes normally with a string: no method is ever called on an array
    element that is out of range, and there is no other way to throw. *)
Theorem formatSqlString_total (sql : jsstring) (o : SqlFormatterOptions) :
  exists out : jsstring, formatSqlString sql o = Normal out.
Proof.
  exists (format_text sql o). apply formatSqlString_text.
Qed.

(** ** Unrecognized keywordCase *)

(** C6, as stated, fails: with a keywordCase outside the three choices the
    keywords are left as they are, while 'upper' re-cases them. *)
Lemma unrecognized_keywordCase_not_upper :
  formatSqlString (js "select 1") title_case_options = Normal (js "select 1")
  /\ formatSqlString (js "select 1") (with_keywordCase no_options (Some "upper"%string))
     = Normal (js "SELECT 1")
  /\ formatSqlString (js "select 1") title_case_options
     <> formatSqlString (js "select 1") (with_keywordCase no_options (Some "upper"%string)).
Proof.
  repeat split; try (vm_compute; reflexivity).
  vm_compute. discriminate.
Qed.

(** C6, amended.  A keywordCase that is a non-empty string other than
    'upper' and 'lower' gives, on every input, the output of 'preserve'.
    Only a falsy keywordCase behaves like 'upper': the empty string gives the
    output of an absent keywordCase, and an absent keywordCase gives the
    output of 'upper'. *)
Theorem unrecognized_keywordCase_preserves
    (sql : jsstring) (o : SqlFormatterOptions) (kc : string) :
  kc <> "upper"%string -> kc <> "lower"%string -> kc <> ""%string ->
  formatSqlString sql (with_keywordCase o (Some kc))
  = formatSqlString sql (with_keywordCase o (Some "preserve"%string))
  /\ formatSqlString sql (with_keywordCase o (Some ""%string))
     = formatSqlString sql (with_keywordCase o None)
  /\ formatSqlString sql (with_keywordCase o None)
     = formatSqlString sql (with_keywordCase o (Some "upper"%string)).
Proof.
  intros Hu Hl He.
  apply String.eqb_neq in Hu, Hl, He.
  split; [|split].
  - unfold formatSqlString, normalize, space_commas, comma_text, keyword_case,
      assemble, recase_on.
    cbn [keywordCase commaPosition with_keywordCase option_is option_falsy].
    rewrite Hu, Hl, He. reflexivity.
  - reflexivity.
  - reflexivity.
Qed.

Lemma unrecognized_keywordCase_preserves_witness :
  formatSqlString (js "select 1 from t") (with_keywordCase no_options (Some "title"%string))
  = formatSqlString (js "select 1 from t") (with_keywordCase no_options (Some "preserve"%string))
  /\ formatSqlString (js "select 1 from t") (with_keywordCase no_options (Some ""%string))
     = formatSqlString (js "select 1 from t") (with_keywordCase no_options None)
  /\ formatSqlString (js "select 1 from t") (with_keywordCase no_options None)
     = formatSqlString (js "select 1 from t")
         (with_keywordCase no_options (Some "upper"%string)).
Proof.
  apply unrecognized_keywordCase_preserves; discriminate.
Defined.

(** ** White space only *)

Lemma replace_from_skip_all (m : matcher) (f : jsstring -> jsstring)
    (s : jsstring) (prev : option code_unit) (skip : nat) :
  length s <= skip -> replace_from m f prev s skip = [].
Proof.
  revert prev skip. induction s as [|c t IH]; intros prev skip H; [reflexivity|].
  cbn [length] in H. destruct skip as [|k]; [lia|].
  cbn [replace_from]. apply IH. lia.
Qed.

Lemma span_len_all (p : code_unit -> bool) (s : jsstring) :
  forallb p s = true -> span_len p s = length s.
Proof.
  induction s as [|c t IH]; [reflexivity|].
  cbn [forallb span_len length]. intros H. apply andb_prop in H as [Hc Ht].
  rewrite Hc. now rewrite IH.
Qed.

Lemma collapse_spaces_blank (s : jsstring) :
  forallb is_space s = true -> s <> [] -> collapse_spaces s = [cu_space].
Proof.
  intros H Hne. destruct s as [|c t]; [congruence|].
  unfold collapse_spaces, replace. cbn [replace_from].
  unfold re_plus. rewrite (span_len_all is_space (c :: t) H). cbn [length firstn app].
  now rewrite replace_from_skip_all.
Qed.

Lemma normalize_whitespace_blank (s : jsstring) :
  forallb is_space s = true -> normalize_whitespace s = [].
Proof.
  intros H. destruct s as [|c t]; [reflexivity|].
  unfold normalize_whitespace. rewrite collapse_spaces_blank; [reflexivity|assumption|discriminate].
Qed.

(** C10. An input made of white space only, the empty input included,
    is formatted to the empty string under every options record: no clause
    is emitted and the output has no line feed. *)
Theorem format_blank_input (sql : jsstring) (o : SqlFormatterOptions) :
  forallb is_space sql = true ->
  formatSqlString sql o = Normal [] /\ line_count [] = 0.
Proof.
  intros H. split; [|reflexivity].
  rewrite formatSqlString_text. f_equal.
  unfold format_text, normalize. rewrite (normalize_whitespace_blank sql H).
  unfold keyword_case.
  destruct (option_is (keywordCase o) "upper" || option_falsy (keywordCase o));
    [reflexivity|].
  destruct (option_is (keywordCase o) "lower"); reflexivity.
Qed.

Lemma format_blank_input_witness :
  formatSqlString [cu_space; 9%N; cu_newline; 160%N] no_options = Normal []
  /\ line_count [] = 0.
Proof.
  apply format_blank_input. reflexivity.
Defined.

(** ** Character classes *)

Ltac no_if t := lazymatch t with context [if _ then _ else _] => fail | _ => idtac end.
Ltac class_step :=
  match goal with
  | |- context [(?a <=? ?b)%N] => no_if a; no_if b;
      let E := fresh "E" in destruct (a <=? b)%N eqn:E in *;
      [apply N.leb_le in E | apply N.leb_gt in E]
  | |- context [(?a =? ?b)%N] => no_if a; no_if b;
      let E := fresh "E" in destruct (a =? b)%N eqn:E in *;
      [apply N.eqb_eq in E | apply N.eqb_neq in E]
  | H : context [(?a <=? ?b)%N] |- _ => no_if a; no_if b;
      let E := fresh "E" in destruct (a <=? b)%N eqn:E in *;
      [apply N.leb_le in E | apply N.leb_gt in E]
  | H : context [(?a =? ?b)%N] |- _ => no_if a; no_if b;
      let E := fresh "E" in destruct (a =? b)%N eqn:E in *;
      [apply N.eqb_eq in E | apply N.eqb_neq in E]
  end; cbn [andb orb negb xorb] in *.
Ltac class_cases :=
  cbv beta delta [is_word is_space is_operator is_plain is_upper_letter is_lower_letter
    is_digit in_range canonicalize ascii_lower cu_eqb cu_space cu_comma
    cu_lparen cu_rparen cu_newline] in *;
  repeat class_step;
  try reflexivity; try discriminate; try lia.

Lemma is_word_canonicalize (c : code_unit) : is_word (canonicalize c) = is_word c.
Proof. class_cases. Qed.

Lemma canonicalize_idem (c : code_unit) : canonicalize (canonicalize c) = canonicalize c.
Proof. class_cases. Qed.

Lemma canonicalize_is_word (a b : code_unit) :
  canonicalize a = canonicalize b -> is_word a = is_word b.
Proof.
  intros H. rewrite <- (is_word_canonicalize a), H. apply is_word_canonicalize.
Qed.

Lemma cu_eqb_eq (a b : code_unit) : cu_eqb a b = true <-> a = b.
Proof. apply N.eqb_eq. Qed.

Lemma str_eqb_eq (a b : jsstring) : str_eqb a b = true <-> a = b.
Proof.
  revert b. induction a as [|x a IH]; intros [|y b]; cbn [str_eqb]; split;
    try congruence; try discriminate.
  - intros H. apply andb_prop in H as [H1 H2].
    apply cu_eqb_eq in H1. apply IH in H2. congruence.
  - intros H. injection H as -> ->. apply andb_true_intro. split.
    + now apply cu_eqb_eq.
    + now apply IH.
Qed.

(** ** Literals *)

Lemma last_cu_app (p : option code_unit) (a b : jsstring) :
  last_cu p (a ++ b) = last_cu (last_cu p a) b.
Proof. unfold last_cu. apply fold_left_app. Qed.

Lemma last_cu_nonempty (p q : option code_unit) (a : jsstring) :
  a <> [] -> last_cu p a = last_cu q a.
Proof.
  destruct a as [|c a] using rev_ind; [congruence|]. intros _.
  now rewrite !last_cu_app.
Qed.

Lemma last_cu_is_word (p : option code_unit) (a b : jsstring) :
  map canonicalize a = map canonicalize b ->
  is_word_opt (last_cu p a) = is_word_opt (last_cu p b).
Proof.
  revert p b. induction a as [|x a IH]; intros p [|y b] H; try discriminate; [reflexivity|].
  cbn [map] in H. injection H as Hx Hab.
  unfold last_cu. cbn [fold_left]. fold (last_cu (Some x) a). fold (last_cu (Some y) b).
  destruct a as [|x' a].
  - destruct b; [|discriminate]. cbn. now apply canonicalize_is_word.
  - rewrite (last_cu_nonempty (Some x) (Some y)) by discriminate. now apply IH.
Qed.

Lemma hd_error_is_word (a b : jsstring) :
  map canonicalize a = map canonicalize b ->
  is_word_opt (hd_error a) = is_word_opt (hd_error b).
Proof.
  destruct a, b; try discriminate; [reflexivity|].
  cbn. intros H. injection H as H _. now apply canonicalize_is_word.
Qed.

Lemma lit_ci_spec (k : jsstring) (prev : option code_unit) (s : jsstring)
    (l : option code_unit) (r : jsstring) :
  lit_ci k prev s = Some (l, r) <->
  exists m, s = m ++ r /\ map canonicalize m = map canonicalize k /\ l = last_cu prev m.
Proof.
  revert prev s. induction k as [|x k IH]; intros prev s; cbn [lit_ci].
  - split.
    + intros H. injection H as <- <-. now exists [].
    + intros ([|c m] & -> & Hm & ->); [reflexivity|discriminate].
  - destruct s as [|c t].
    + split; [discriminate|]. intros ([|c m] & Hs & Hm & _); discriminate.
    + destruct (cu_eqb (canonicalize x) (canonicalize c)) eqn:E.
      * apply cu_eqb_eq in E. rewrite IH. split.
        -- intros (m & -> & Hm & ->). exists (c :: m). cbn [map app]. now rewrite Hm, E.
        -- intros ([|c' m] & Hs & Hm & ->); [discriminate|].
           cbn [map app] in *. injection Hs as <- ->. injection Hm as _ Hm.
           now exists m.
      * split; [discriminate|].
        intros ([|c' m] & Hs & Hm & _); [discriminate|].
        cbn [map app] in *. injection Hs as <- ->. injection Hm as Hc _.
        rewrite Hc in E. unfold cu_eqb in E. now rewrite N.eqb_refl in E.
Qed.

Lemma alt_matches_spec (k : jsstring) (prev : option code_unit) (s : jsstring) :
  alt_matches k prev s = true <->
  exists m r, s = m ++ r /\ map canonicalize m = map canonicalize k /\
              word_boundary (last_cu prev m) (hd_error r) = true.
Proof.
  unfold alt_matches. split.
  - destruct (lit_ci k prev s) as [[l r]|] eqn:E; [|discriminate].
    intros H. apply lit_ci_spec in E as (m & -> & Hm & ->). now exists m, r.
  - intros (m & r & Hs & Hm & Hb).
    assert (E : lit_ci k prev s = Some (last_cu prev m, r)) by (apply lit_ci_spec; now exists m).
    now rewrite E.
Qed.

Lemma first_alt_some (alts : list jsstring) (prev : option code_unit) (s : jsstring) (n : nat) :
  first_alt alts prev s = Some n ->
  exists k, In k alts /\ n = length k /\ alt_matches k prev s = true.
Proof.
  induction alts as [|k alts IH]; cbn [first_alt]; [discriminate|].
  destruct (alt_matches k prev s) eqn:E.
  - intros H. injection H as <-. exists k. auto with datatypes.
  - intros H. destruct (IH H) as (k' & ? & ? & ?). exists k'. auto with datatypes.
Qed.

Lemma first_alt_complete (alts : list jsstring) (prev : option code_unit) (s k : jsstring) :
  In k alts -> alt_matches k prev s = true ->
  exists n, first_alt alts prev s = Some n.
Proof.
  induction alts as [|k' alts IH]; cbn [first_alt In]; [tauto|].
  intros [->|Hin] Hk.
  - rewrite Hk. eauto.
  - destruct (alt_matches k' prev s); eauto.
Qed.

(** ** Replacement as re-casing under a mask *)

Lemma slice_cons (i n : nat) (c : code_unit) (s : jsstring) :
  slice (S i) n (c :: s) = slice i n s.
Proof. reflexivity. Qed.

Lemma recase_length (g : code_unit -> code_unit) (mask : list bool) (s : jsstring) :
  length mask = length s -> length (recase g mask s) = length s.
Proof.
  revert mask. induction s as [|c t IH]; intros [|b mask] H; try discriminate; [reflexivity|].
  cbn [recase length]. f_equal. apply IH. now injection H.
Qed.

Lemma recase_prefix (g : code_unit -> code_unit) (n : nat) (mask : list bool) (s : jsstring) :
  (forall j, j < n -> nth j mask false = true) ->
  n <= length s -> length mask = length s ->
  firstn n (recase g mask s) = map g (map canonicalize (firstn n s)).
Proof.
  revert mask s. induction n as [|n IH]; intros mask s Hm Hn Hl; [reflexivity|].
  destruct s as [|c t]; [cbn in Hn; lia|]. destruct mask as [|b mask]; [discriminate|].
  cbn [recase firstn map]. rewrite (Hm 0 ltac:(lia) : b = true). f_equal.
  apply IH.
  - intros j Hj. apply (Hm (S j)). lia.
  - cbn in Hn. lia.
  - now injection Hl.
Qed.

Lemma recase_slice (g : code_unit -> code_unit) (i n : nat) (mask : list bool) (s : jsstring) :
  (forall j, i <= j < i + n -> nth j mask false = true) ->
  i + n <= length s -> length mask = length s ->
  slice i n (recase g mask s) = map g (map canonicalize (slice i n s)).
Proof.
  revert mask s. induction i as [|i IH]; intros mask s Hm Hn Hl.
  - apply recase_prefix; auto. intros j Hj. apply Hm. lia.
  - destruct s as [|c t]; [cbn in Hn; lia|]. destruct mask as [|b mask]; [discriminate|].
    cbn [recase]. rewrite !slice_cons. apply IH.
    + intros j Hj. apply (Hm (S j)). lia.
    + cbn in Hn. lia.
    + now injection Hl.
Qed.

Section Replace.

Variable m : matcher.
Variable f : jsstring -> jsstring.
Variable g : code_unit -> code_unit.

Hypothesis m_bounded : forall prev s n, m prev s = Some n -> n <= length s.
Hypothesis f_recase : forall prev s n,
m prev s = Some n -> f (firstn n s) = map g (map canonicalize (firstn n s)).

Lemma cover_length (prev : option code_unit) (s : jsstring) (skip : nat) :
length (cover m prev s skip) = length s.
Proof.
revert prev skip. induction s as [|c t IH]; intros prev skip; [reflexivity|].
cbn [cover]. destruct skip as [|k].
- destruct (m prev (c :: t)) as [[|k]|]; cbn [length]; now rewrite IH.
- cbn [length]. now rewrite IH.
Qed.

Lemma cover_skip (prev : option code_unit) (s : jsstring) (skip j : nat) :
j < skip -> j < length s -> nth j (cover m prev s skip) false = true.
Proof.
revert prev skip j. induction s as [|c t IH]; intros prev skip j Hj Hl; [cbn in Hl; lia|].
destruct skip as [|k]; [lia|]. cbn [cover].
destruct j as [|j]; [reflexivity|]. cbn [nth]. apply IH; cbn in Hl; lia.
Qed.

Lemma replace_from_recase (prev : option code_unit) (s : jsstring) (skip : nat) :
replace_from m f prev s skip = skipn skip (recase g (cover m prev s skip) s).
Proof.
revert prev skip. induction s as [|c t IH]; intros prev skip.
- now destruct skip.
- cbn [replace_from cover]. destruct skip as [|k].
+ destruct (m prev (c :: t)) as [[|k]|] eqn:E.
* cbn [recase skipn]. f_equal. now rewrite IH.
* pose proof (m_bounded _ _ _ E) as Hb. cbn [length] in Hb.
rewrite (f_recase _ _ _ E), IH. cbn [recase skipn firstn map app]. f_equal.
rewrite <- (firstn_skipn k (recase g (cover m (Some c) t k) t)) at 2.
f_equal. symmetry. apply recase_prefix.
-- intros j Hj. apply cover_skip; lia.
-- lia.
-- apply cover_length.
* cbn [recase skipn]. f_equal. now rewrite IH.
+ cbn [recase skipn]. apply IH.
Qed.

Lemma replace_recase (s : jsstring) :
replace m f s = recase g (cover m None s 0) s.
Proof. unfold replace. now rewrite replace_from_recase. Qed.

Lemma replace_length (s : jsstring) : length (replace m f s) = length s.
Proof. rewrite replace_recase. apply recase_length, cover_length. Qed.

End Replace.

(** ** Every whole-word occurrence lies inside a match *)

Lemma occurs_at_tail (k : jsstring) (prev : option code_unit) (c : code_unit)
    (t : jsstring) (i : nat) :
  occurs_at k prev (c :: t) (S i) -> occurs_at k (Some c) t i.
Proof.
  intros (a & m & b & Hs & Ha & Hm & H1 & H2).
  destruct a as [|c' a]; [discriminate|]. cbn [app] in Hs. injection Hs as <- ->.
  exists a, m, b. repeat split; auto.
Qed.

Section Words.

Variable alts : list jsstring.
Hypothesis alts_free : no_straddle alts = true.
Hypothesis alts_nonempty : forall k, In k alts -> k <> [].

Lemma straddles_false (k' k : jsstring) (i : nat) :
In k' alts -> In k alts -> i < length k' -> straddles k' k i = false.
Proof.
intros Hk' Hk Hi. unfold no_straddle in alts_free.
rewrite forallb_forall in alts_free. specialize (alts_free _ Hk').
rewrite forallb_forall in alts_free. specialize (alts_free _ Hk).
rewrite forallb_forall in alts_free. specialize (alts_free i).
apply negb_true_iff, alts_free, in_seq. lia.
Qed.

Lemma no_straddle_text (k' k m' b' a m b : jsstring) (prev : option code_unit) :
In k' alts -> In k alts ->
m' ++ b' = a ++ m ++ b ->
map canonicalize m' = map canonicalize k' ->
map canonicalize m = map canonicalize k ->
word_boundary (last_cu prev m') (hd_error b') = true ->
a = [] \/ word_boundary (last_cu prev a) (hd_error (m ++ b)) = true ->
length a < length m' -> length m' < length a + length m -> False.
Proof.
intros Hk' Hk Hs Hm' Hm Hend Hstart Hlt Hgt.
assert (Hlk' : length k' = length m')
by (rewrite <- (length_map canonicalize k'), <- Hm'; apply length_map).
assert (Hlk : length k = length m)
by (rewrite <- (length_map canonicalize k), <- Hm; apply length_map).
(* the two readings of the text overlap *)
assert (exists u v, m' = a ++ u /\ m = u ++ v /\ b' = v ++ b /\ u <> [] /\ v <> [])
as (u & v & -> & -> & -> & Hu & Hv).
{ apply app_eq_app in Hs as [l [[-> Hl]|[-> Hl]]].
- apply app_eq_app in Hl as [l' [[-> Hl']|[-> Hl']]].
+ exists l, l'. repeat split; auto.
* intros ->. rewrite app_nil_r in Hlt. lia.
* intros ->. rewrite !length_app in *. cbn in *. lia.
+ rewrite !length_app in *. lia.
- rewrite length_app in Hlt. lia. }
rewrite length_app in *.
pose proof (@straddles_false k' k (length a) Hk' Hk ltac:(lia)) as F.
rewrite !map_app in *.
assert (HU : map canonicalize (skipn (length a) k') = map canonicalize u).
{ rewrite <- skipn_map, <- Hm'.
rewrite <- (length_map canonicalize a) at 1. now rewrite skipn_app, skipn_all, Nat.sub_diag. }
assert (HA : map canonicalize (firstn (length a) k') = map canonicalize a).
{ rewrite <- firstn_map, <- Hm'.
rewrite <- (length_map canonicalize a) at 1.
now rewrite firstn_app, firstn_all, Nat.sub_diag, app_nil_r. }
assert (HlU : length (skipn (length a) k') = length u)
by (rewrite <- (length_map canonicalize (skipn _ _)), HU; apply length_map).
assert (HF : map canonicalize (firstn (length u) k) = map canonicalize u).
{ rewrite <- firstn_map, <- Hm.
rewrite <- (length_map canonicalize u) at 1.
now rewrite firstn_app, firstn_all, Nat.sub_diag, app_nil_r. }
assert (HV : map canonicalize (skipn (length u) k) = map canonicalize v).
{ rewrite <- skipn_map, <- Hm.
rewrite <- (length_map canonicalize u) at 1. now rewrite skipn_app, skipn_all, Nat.sub_diag. }
unfold straddles in F. rewrite HlU in F.
assert (T1 : truthy (skipn (length a) k') = true).
{ destruct (skipn (length a) k'); [|reflexivity]. destruct u; [congruence|discriminate]. }
assert (T2 : truthy (skipn (length u) k) = true).
{ destruct (skipn (length u) k); [|reflexivity]. destruct v; [congruence|discriminate]. }
assert (T3 : str_eqb (map canonicalize (skipn (length a) k'))
         (map canonicalize (firstn (length u) k)) = true)
by (apply str_eqb_eq; congruence).
assert (T5 : junction (skipn (length a) k') (skipn (length u) k) = true).
{ unfold junction, word_boundary.
rewrite (last_cu_is_word None _ _ HU), (hd_error_is_word _ _ HV).
rewrite <- Hend. unfold word_boundary. f_equal.
- rewrite last_cu_app. f_equal. now apply last_cu_nonempty.
- destruct v; [congruence|reflexivity]. }
assert (T4 : (length a =? 0) || junction (firstn (length a) k') (skipn (length a) k') = true).
{ destruct (length a =? 0) eqn:E0; [reflexivity|].
assert (Ha : a <> []) by (intros ->; discriminate).
destruct Hstart as [Hstart|Hstart]; [congruence|].
apply orb_true_iff. right. unfold junction, word_boundary.
rewrite (last_cu_is_word None _ _ HA), (hd_error_is_word _ _ HU).
rewrite <- Hstart. unfold word_boundary. f_equal.
- f_equal. now apply last_cu_nonempty.
- destruct u; [congruence|reflexivity]. }
rewrite T1, T2, T3, T4, T5 in F. discriminate.
Qed.

Lemma re_words_bounded (prev : option code_unit) (s : jsstring) (n : nat) :
re_words alts prev s = Some n -> n <= length s.
Proof.
unfold re_words. destruct (word_boundary prev (hd_error s)); [|discriminate].
intros H. apply first_alt_some in H as (k & _ & -> & H).
apply alt_matches_spec in H as (m & r & -> & Hm & _).
rewrite <- (length_map canonicalize k), <- Hm, length_map, length_app. lia.
Qed.

Lemma re_words_match (prev : option code_unit) (s : jsstring) (n : nat) :
re_words alts prev s = Some n ->
exists k m r, In k alts /\ s = m ++ r /\ n = length m /\
map canonicalize m = map canonicalize k /\
word_boundary (last_cu prev m) (hd_error r) = true.
Proof.
unfold re_words. destruct (word_boundary prev (hd_error s)); [|discriminate].
intros H. apply first_alt_some in H as (k & Hk & -> & H).
apply alt_matches_spec in H as (m & r & -> & Hm & Hb).
exists k, m, r. repeat split; auto.
now rewrite <- (length_map canonicalize k), <- Hm, length_map.
Qed.

Lemma cover_occurrence (s : jsstring) :
forall (prev : option code_unit) (skip i : nat) (k : jsstring),
In k alts -> occurs_at k prev s i ->
(i < skip -> i + length k <= skip) ->
forall j, i <= j < i + length k -> nth j (cover (re_words alts) prev s skip) false = true.
Proof.
induction s as [|c t IH]; intros prev skip i k Hk Hocc Hskip j Hj.
{ destruct Hocc as (a & m & b & Hs & _ & Hm & _).
symmetry in Hs. apply app_eq_nil in Hs as [_ Hs]. apply app_eq_nil in Hs as [-> _].
destruct k; [now apply alts_nonempty in Hk|discriminate]. }
assert (Hlen : i + length k <= length (c :: t)).
{ destruct Hocc as (a & m & b & -> & <- & Hm & _).
rewrite <- (length_map canonicalize k), <- Hm, !length_app, length_map. lia. }
cbn [cover]. destruct skip as [|sk].
- destruct i as [|i].
+ (* the occurrence starts here: some alternative matches here *)
destruct Hocc as (a & m & b & Hs & Ha & Hm & H1 & H2).
destruct a; [|discriminate]. cbn [app last_cu fold_left] in *. rewrite <- Hs in H1.
assert (Hk1 : alt_matches k prev (c :: t) = true)
by (apply alt_matches_spec; now exists m, b).
destruct (first_alt_complete alts prev (c :: t) k Hk Hk1) as [n Hn].
assert (Hre : re_words alts prev (c :: t) = Some n) by (unfold re_words; now rewrite H1).
rewrite Hre.
destruct (re_words_match _ _ _ Hre) as (k' & m' & b' & Hk' & Hs' & -> & Hm' & Hb').
assert (Hge : length m <= length m').
{ destruct (Nat.le_gt_cases (length m) (length m')) as [|Hlt]; [assumption|].
exfalso. rewrite Hs in Hs'.
refine (@no_straddle_text k' k m' b' [] m b prev Hk' Hk _ Hm' Hm Hb' (or_introl eq_refl) _ _).
- now symmetry.
- cbn. destruct m'; [|cbn; lia].
  destruct k'; [now apply alts_nonempty in Hk'|discriminate].
- cbn. lia. }
assert (Hmk : length m = length k)
by (rewrite <- (length_map canonicalize k), <- Hm; now rewrite length_map).
destruct (length m') as [|n'] eqn:En; [lia|].
destruct j as [|j]; [reflexivity|]. cbn [nth].
apply cover_skip; cbn [length] in *; lia.
+ apply occurs_at_tail in Hocc as Hocc'.
destruct (re_words alts prev (c :: t)) as [[|n']|] eqn:Hre.
* destruct j as [|j]; [lia|]. cbn [nth].
apply (IH (Some c) 0 i k Hk Hocc'); lia.
* destruct j as [|j]; [lia|]. cbn [nth].
apply (IH (Some c) n' i k Hk Hocc'); [|lia].
intros Hin.
destruct (re_words_match _ _ _ Hre) as (k' & m' & b' & Hk' & Hs' & Hn & Hm' & Hb').
destruct Hocc as (a & m & b & Hs & Ha & Hm & H1 & H2).
assert (Hmk : length m = length k)
  by (rewrite <- (length_map canonicalize k), <- Hm; now rewrite length_map).
destruct (Nat.le_gt_cases (i + length k) n') as [|Hlt]; [assumption|].
exfalso. rewrite Hs in Hs'.
refine (@no_straddle_text k' k m' b' a m b prev Hk' Hk _ Hm' Hm Hb' (or_intror H1) _ _).
-- now symmetry.
-- lia.
-- lia.
* destruct j as [|j]; [lia|]. cbn [nth].
apply (IH (Some c) 0 i k Hk Hocc'); lia.
- destruct i as [|i].
+ destruct j as [|j]; [reflexivity|]. cbn [nth].
apply cover_skip; cbn [length] in *; lia.
+ apply occurs_at_tail in Hocc. destruct j as [|j]; [lia|]. cbn [nth].
apply (IH (Some c) sk i k Hk Hocc); lia.
Qed.

Variable f : jsstring -> jsstring.
Variable g : code_unit -> code_unit.
Hypothesis f_recase : forall k m,
In k alts -> map canonicalize m = map canonicalize k ->
f m = map g (map canonicalize m).

Lemma re_words_recase (prev : option code_unit) (s : jsstring) (n : nat) :
re_words alts prev s = Some n ->
f (firstn n s) = map g (map canonicalize (firstn n s)).
Proof.
intros H. apply re_words_match in H as (k & m & r & Hk & -> & -> & Hm & _).
rewrite firstn_app, firstn_all, Nat.sub_diag, app_nil_r. now apply (f_recase k).
Qed.

(** The text of a whole-word occurrence of an alternative is replaced by
its folded form sent through [g], and nothing changes length. *)
Lemma replace_words_occurrence (s k : jsstring) (i : nat) :
In k alts -> occurs_at k None s i ->
slice i (length k) (replace (re_words alts) f s) = map g (map canonicalize k).
Proof.
intros Hk Hocc.
rewrite (replace_recase _ _ g re_words_bounded re_words_recase).
assert (Hs : map canonicalize (slice i (length k) s) = map canonicalize k
       /\ i + length k <= length s).
{ destruct Hocc as (a & m & b & -> & <- & Hm & _).
assert (Hmk : length m = length k)
by (rewrite <- (length_map canonicalize k), <- Hm; now rewrite length_map).
unfold slice. rewrite skipn_app, skipn_all, Nat.sub_diag. cbn [app skipn].
rewrite <- Hmk, firstn_app, firstn_all, Nat.sub_diag, app_nil_r.
split; [assumption|]. rewrite !length_app. lia. }
destruct Hs as [Hs Hl].
rewrite recase_slice.
- now rewrite Hs.
- intros j Hj. apply (cover_occurrence s None 0 i k Hk Hocc); lia.
- assumption.
- apply cover_length.
Qed.

End Words.

(** ** The keyword case stage *)

Lemma upper_code_unit_plain (x c : code_unit) :
  is_plain x = true -> canonicalize c = canonicalize x ->
  upper_code_unit c = [canonicalize c].
Proof.
  intros Hx Hc. unfold upper_code_unit. class_cases.
Qed.

Lemma toUpperCase_plain (k m : jsstring) :
  forallb is_plain k = true -> map canonicalize m = map canonicalize k ->
  toUpperCase m = map canonicalize m.
Proof.
  revert k. induction m as [|c m IH]; intros [|x k] Hk Hm; try discriminate; [reflexivity|].
  cbn [forallb map] in *. apply andb_prop in Hk as [Hx Hk]. injection Hm as Hc Hm.
  unfold toUpperCase. cbn [flat_map]. rewrite (upper_code_unit_plain x c Hx Hc).
  cbn [app]. f_equal. now apply (IH k).
Qed.

Lemma canonicalize_plain (k : jsstring) :
  forallb is_plain k = true -> map canonicalize k = k.
Proof.
  induction k as [|x k IH]; [reflexivity|]. cbn [forallb map]. intros H.
  apply andb_prop in H as [Hx Hk]. rewrite (IH Hk). f_equal. clear - Hx. class_cases.
Qed.

Lemma ascii_lower_canonicalize (c : code_unit) :
  ascii_lower (canonicalize c) = ascii_lower c.
Proof. class_cases. Qed.

Lemma keywords_plain (k : jsstring) : In k keywords -> forallb is_plain k = true.
Proof.
  assert (H : forallb (forallb is_plain) keywords = true) by (vm_compute; reflexivity).
  rewrite forallb_forall in H. apply H.
Qed.

Lemma keywords_nonempty (k : jsstring) : In k keywords -> k <> [].
Proof.
  assert (H : forallb truthy keywords = true) by (vm_compute; reflexivity).
  rewrite forallb_forall in H. intros Hk ->. now apply H in Hk.
Qed.

Lemma keywords_free : no_straddle keywords = true.
Proof. vm_compute. reflexivity. Qed.

Lemma keyword_upper_recase (k m : jsstring) :
  In k keywords -> map canonicalize m = map canonicalize k ->
  toUpperCase m = map (fun c => c) (map canonicalize m).
Proof.
  intros Hk Hm. rewrite map_id. apply (toUpperCase_plain k); [now apply keywords_plain|assumption].
Qed.

Lemma keyword_lower_recase (k m : jsstring) :
  In k keywords -> map canonicalize m = map canonicalize k ->
  toLowerCase m = map ascii_lower (map canonicalize m).
Proof.
  intros _ _. unfold toLowerCase. rewrite map_map. apply map_ext.
  intros c. symmetry. apply ascii_lower_canonicalize.
Qed.

(** C2. The keyword case stage on the 38 recognized keywords.  When
    keywordCase is 'upper' or absent, the text of every whole-word,
    case-insensitive occurrence of a keyword reads, in the result, that
    keyword in upper case; when it is 'lower', it reads the keyword in lower
    case; in both cases the length of the text is kept.  When it is
    'preserve' the stage returns its input. *)
Theorem keyword_case_occurrences (o : SqlFormatterOptions) (s : jsstring) :
  keywords = map js
    ["SELECT"; "FROM"; "WHERE"; "AND"; "OR"; "INSERT"; "UPDATE"; "DELETE"; "JOIN";
     "INNER JOIN"; "LEFT JOIN"; "RIGHT JOIN"; "OUTER JOIN"; "GROUP BY"; "ORDER BY";
     "HAVING"; "LIMIT"; "OFFSET"; "AS"; "UNION"; "ALL"; "IN"; "BETWEEN"; "LIKE";
     "IS"; "NULL"; "CREATE"; "TABLE"; "DROP"; "ALTER"; "INDEX"; "PRIMARY KEY";
     "FOREIGN KEY"; "CONSTRAINT"; "DEFAULT"; "CASCADE"; "DESC"; "ASC"]%string
  /\ (keywordCase o = Some "upper"%string \/ keywordCase o = None ->
      length (keyword_case o s) = length s /\
      forall k i, In k keywords -> occurs_at k None s i ->
        slice i (length k) (keyword_case o s) = k)
  /\ (keywordCase o = Some "lower"%string ->
      length (keyword_case o s) = length s /\
      forall k i, In k keywords -> occurs_at k None s i ->
        slice i (length k) (keyword_case o s) = toLowerCase k)
  /\ (keywordCase o = Some "preserve"%string -> keyword_case o s = s).
Proof.
  split; [reflexivity|]. unfold keyword_case, keywordRegex. repeat split.
  - destruct H as [-> | ->]; cbn [option_is option_falsy String.eqb orb];
      apply (replace_length _ _ (fun c => c) (re_words_bounded keywords)
               (re_words_recase keywords _ _ keyword_upper_recase)).
  - intros k i Hk Hocc.
    assert (E : option_is (keywordCase o) "upper" || option_falsy (keywordCase o) = true)
      by (destruct H as [-> | ->]; reflexivity).
    rewrite E.
    rewrite (replace_words_occurrence keywords keywords_free keywords_nonempty _ _
               keyword_upper_recase s k i Hk Hocc).
    rewrite map_id. now apply canonicalize_plain, keywords_plain.
  - rewrite H. cbn.
    apply (replace_length _ _ ascii_lower (re_words_bounded keywords)
             (re_words_recase keywords _ _ keyword_lower_recase)).
  - intros k i Hk Hocc. rewrite H. cbn [option_is option_falsy orb].
    replace (String.eqb "lower" "upper") with false by reflexivity.
    replace (String.eqb "lower" "") with false by reflexivity.
    replace (String.eqb "lower" "lower") with true by reflexivity.
    cbn [orb].
    rewrite (replace_words_occurrence keywords keywords_free keywords_nonempty _ _
               keyword_lower_recase s k i Hk Hocc).
    unfold toLowerCase. f_equal. now apply canonicalize_plain, keywords_plain.
  - intros ->. reflexivity.
Qed.

Lemma keyword_case_occurrences_witness :
  slice 7 8 (keyword_case no_options (js "select order by")) = js "ORDER BY".
Proof.
  destruct (keyword_case_occurrences no_options (js "select order by")) as (_ & Hu & _).
  destruct (Hu (or_intror eq_refl)) as [_ H].
  apply (H (js "ORDER BY") 7).
  - vm_compute. repeat (first [left; reflexivity | right]).
  - exists (js "select "), (js "order by"), []. repeat split; reflexivity.
Defined.

(** ** The ON pass of the assembly stage *)

Lemma on_free : no_straddle [js "ON"] = true.
Proof. vm_compute. reflexivity. Qed.

Lemma on_nonempty (k : jsstring) : In k [js "ON"] -> k <> [].
Proof. intros [<-|[]]. discriminate. Qed.

Lemma on_recase (o : SqlFormatterOptions) (k m : jsstring) :
  In k [js "ON"] -> map canonicalize m = map canonicalize k ->
  on_keyword o
  = map (if option_is (keywordCase o) "lower" then ascii_lower else fun c => c)
        (map canonicalize m).
Proof.
  intros [<-|[]] ->. unfold on_keyword.
  now destruct (option_is (keywordCase o) "lower").
Qed.

(** C4. The final pass over the clauses.  In a clause whose upper-cased
    text contains JOIN, the text of every whole-word, case-insensitive
    occurrence of ON reads 'on' in the result when keywordCase is 'lower' and
    'ON' for any other keywordCase, absent included, and the length of the
    clause is kept; a clause without JOIN is returned as it is.  The
    assembly stage applies this pass to every non-empty clause and joins
    the results with line feeds. *)
Theorem recase_on_occurrences (o : SqlFormatterOptions) (clause : jsstring) :
  (includes (toUpperCase clause) (js "JOIN") = true ->
     length (recase_on o clause) = length clause /\
     forall i, occurs_at (js "ON") None clause i ->
       slice i 2 (recase_on o clause)
       = if option_is (keywordCase o) "lower" then js "on" else js "ON")
  /\ (includes (toUpperCase clause) (js "JOIN") = false -> recase_on o clause = clause)
  /\ (forall result,
        assemble o result
        = array_join [cu_newline] (map (recase_on o) (filter truthy result))).
Proof.
  assert (E : recase_on o clause
              = if includes (toUpperCase clause) (js "JOIN")
                then replace (re_words [js "ON"]) (fun _ => on_keyword o) clause
                else clause) by reflexivity.
  rewrite E. repeat split.
  - rewrite H.
    apply (replace_length _ _ _ (re_words_bounded [js "ON"])
             (re_words_recase [js "ON"] _ _ (on_recase o))).
  - intros i Hocc. rewrite H. change 2 with (length (js "ON")).
    rewrite (replace_words_occurrence [js "ON"] on_free on_nonempty _ _
               (on_recase o) clause (js "ON") i (or_introl eq_refl) Hocc).
    now destruct (option_is (keywordCase o) "lower").
  - intros ->. reflexivity.
Qed.

Lemma recase_on_occurrences_witness :
  slice 7 2 (recase_on no_options (js "JOIN b on x")) = js "ON".
Proof.
  destruct (recase_on_occurrences no_options (js "JOIN b on x")) as (H & _).
  destruct (H eq_refl) as [_ H'].
  apply (H' 7).
  exists (js "JOIN b "), (js "on"), (js " x"). repeat split; reflexivity.
Defined.

(** ** The comma rule *)

Lemma replace_from_skip (m : matcher) (f : jsstring -> jsstring)
    (s : jsstring) (prev : option code_unit) (skip : nat) :
  skip <= length s ->
  replace_from m f prev s skip = replace_from m f (last_cu prev (firstn skip s)) (skipn skip s) 0.
Proof.
  revert prev skip. induction s as [|c t IH]; intros prev skip H.
  - destruct skip; [reflexivity|cbn in H; lia].
  - destruct skip as [|k]; [reflexivity|].
    cbn [replace_from firstn skipn]. unfold last_cu. cbn [fold_left].
    apply IH. cbn in H. lia.
Qed.

Lemma span_len_le (p : code_unit -> bool) (s : jsstring) : span_len p s <= length s.
Proof.
  induction s as [|c t IH]; [reflexivity|]. cbn. destruct (p c); cbn; lia.
Qed.

Lemma skipn_span_len (p : code_unit -> bool) (s : jsstring) :
  skipn (span_len p s) s = drop_while p s.
Proof.
  induction s as [|c t IH]; [reflexivity|]. cbn. now destruct (p c).
Qed.

Lemma drop_while_app_stop (p : code_unit -> bool) (x : jsstring) (c : code_unit) (y : jsstring) :
  p c = false ->
  drop_while p (x ++ c :: y) = drop_while p x ++ c :: y.
Proof.
  intros Hc. induction x as [|d x IH]; cbn; [now rewrite Hc|].
  destruct (p d); [assumption|reflexivity].
Qed.

Lemma drop_while_snoc (p : code_unit -> bool) (l : jsstring) (c : code_unit) :
  drop_while p (l ++ [c])
  = if forallb p l then (if p c then [] else [c]) else drop_while p l ++ [c].
Proof.
  induction l as [|d l IH]; [reflexivity|]. cbn. now destruct (p d).
Qed.

Lemma forallb_rev (p : code_unit -> bool) (l : jsstring) :
  forallb p (rev l) = forallb p l.
Proof.
  induction l as [|d l IH]; [reflexivity|].
  cbn. rewrite forallb_app, IH. cbn. rewrite andb_true_r. apply andb_comm.
Qed.

Lemma trimEnd_cons (c : code_unit) (x : jsstring) :
  trimEnd (c :: x) = if is_space c && forallb is_space x then [] else c :: trimEnd x.
Proof.
  unfold trimEnd. cbn [rev]. rewrite drop_while_snoc, forallb_rev.
  destruct (forallb is_space x) eqn:E.
  - rewrite andb_true_r. destruct (is_space c); [reflexivity|].
    cbn. f_equal.
    assert (H : drop_while is_space (rev x) = []).
    { rewrite <- forallb_rev in E. induction (rev x) as [|d l IH]; [reflexivity|].
      cbn in *. apply andb_prop in E as [-> E]. now apply IH. }
    now rewrite H.
  - rewrite andb_false_r. now rewrite rev_app_distr.
Qed.

Lemma drop_while_all (p : code_unit -> bool) (x : jsstring) :
  forallb p x = true -> drop_while p x = [].
Proof.
  induction x as [|d x IH]; [reflexivity|]. cbn. intros H.
  apply andb_prop in H as [-> H]. now apply IH.
Qed.

Lemma is_space_comma : is_space cu_comma = false.
Proof. reflexivity. Qed.

Lemma span_len_app_stop (p : code_unit -> bool) (l : jsstring) (d : code_unit) (y : jsstring) :
  forallb p l = true -> p d = false -> span_len p (l ++ d :: y) = length l.
Proof.
  intros Hl Hd. induction l as [|e l IH]; cbn; [now rewrite Hd|].
  cbn in Hl. apply andb_prop in Hl as [-> Hl]. now rewrite IH.
Qed.

Lemma drop_while_free (x : code_unit) (l : jsstring) :
  existsb (cu_eqb x) l = false ->
  existsb (cu_eqb x) (drop_while is_space l) = false.
Proof.
  induction l as [|d l IH]; [reflexivity|]. cbn. intros H.
  apply orb_false_elim in H as [Hd Hl]. destruct (is_space d); [now apply IH|].
  cbn. now rewrite Hd, Hl.
Qed.

Lemma re_spaced_none (x : code_unit) (p : option code_unit) (s : jsstring) :
  existsb (cu_eqb x) s = false -> re_spaced x p s = None.
Proof.
  intros H. unfold re_spaced. rewrite skipn_span_len.
  apply drop_while_free in H.
  destruct (drop_while is_space s) as [|d l]; [reflexivity|].
  cbn in H. apply orb_false_elim in H as [Hd _].
  unfold cu_eqb in *. rewrite N.eqb_sym. now rewrite Hd.
Qed.

Section CommaRule.

Variable r : jsstring.

Let R (s : jsstring) : jsstring := replace (re_spaced cu_comma) (fun _ => r) s.

Lemma replace_from_spaced_prev (x : code_unit) (f : jsstring -> jsstring)
(p q : option code_unit) (s : jsstring) (skip : nat) :
replace_from (re_spaced x) f p s skip = replace_from (re_spaced x) f q s skip.
Proof.
revert p q skip. induction s as [|c t IH]; intros p q skip; [reflexivity|].
cbn [replace_from]. destruct skip; [|apply IH].
change (re_spaced x p (c :: t)) with (re_spaced x q (c :: t)).
destruct (re_spaced x q (c :: t)) as [[|k]|]; f_equal; apply IH.
Qed.

Lemma comma_free_fixed (x : jsstring) :
existsb (cu_eqb cu_comma) x = false -> R x = x.
Proof.
unfold R, replace. generalize (@None code_unit).
induction x as [|c x IH]; intros p H; [reflexivity|].
cbn [replace_from]. rewrite (re_spaced_none cu_comma p (c :: x) H).
cbn [existsb] in H. apply orb_false_elim in H as [Hc Hx].
f_equal. now apply IH.
Qed.

(** A comma-free field, its comma and what follows. *)
Lemma replace_field (x y : jsstring) :
existsb (cu_eqb cu_comma) x = false ->
R (x ++ cu_comma :: y) = trimEnd x ++ r ++ R (trimStart y).
Proof.
unfold R, replace. generalize (@None code_unit) at 1. generalize (@None code_unit).
induction x as [|c x IH]; intros q p H.
- cbn [app replace_from]. unfold re_spaced at 1. cbn.
rewrite replace_from_skip by apply span_len_le.
rewrite skipn_span_len. f_equal. apply replace_from_spaced_prev.
- cbn [existsb] in H. apply orb_false_elim in H as [Hc Hx].
cbn [app replace_from]. rewrite trimEnd_cons.
unfold re_spaced at 1. rewrite skipn_span_len.
change (c :: x ++ cu_comma :: y) with ((c :: x) ++ cu_comma :: y).
rewrite (drop_while_app_stop is_space (c :: x) cu_comma y is_space_comma).
destruct (is_space c && forallb is_space x) eqn:E.
+ (* the field is white space: it belongs to the match *)
assert (Hall : forallb is_space (c :: x) = true) by exact E.
rewrite (drop_while_all _ _ Hall). cbn [app].
unfold cu_eqb at 1. rewrite N.eqb_refl.
pose proof (span_len_app_stop is_space (c :: x) cu_comma y Hall is_space_comma) as Hs.
cbn [app] in Hs.
rewrite Hs. cbn [length Nat.add app].
rewrite (replace_from_skip _ _ (x ++ cu_comma :: y)).
* replace (skipn (length x + 1 + span_len is_space y) (x ++ cu_comma :: y))
  with (drop_while is_space y).
-- cbn [app]. f_equal. apply replace_from_spaced_prev.
-- rewrite <- Nat.add_assoc, skipn_app, skipn_all2 by lia.
   replace (length x + (1 + span_len is_space y) - length x)
     with (S (span_len is_space y)) by lia.
   cbn [app skipn]. symmetry. apply skipn_span_len.
* rewrite length_app. cbn [length]. pose proof (span_len_le is_space y). lia.
+ (* the field has a code unit that is not white space *)
assert (Hd : exists d l, drop_while is_space (c :: x) = d :: l /\ cu_eqb d cu_comma = false).
{ assert (G : forall l, existsb (cu_eqb cu_comma) l = false ->
            forallb is_space l = false ->
            exists d l', drop_while is_space l = d :: l' /\ cu_eqb d cu_comma = false).
{ clear. induction l as [|d l IH]; [discriminate|]. cbn. intros H1 H2.
  apply orb_false_elim in H1 as [Hd Hl]. destruct (is_space d) eqn:Ed.
  - now apply IH.
  - exists d, l. split; [reflexivity|]. unfold cu_eqb in *. now rewrite N.eqb_sym. }
apply G; [cbn [existsb]; now rewrite Hc, Hx | exact E]. }
destruct Hd as (d & l & -> & Hd). cbn [app]. rewrite Hd.
cbn [app]. f_equal. now apply IH.
Qed.

End CommaRule.

Lemma cu_eqb_sym (a b : code_unit) : cu_eqb a b = cu_eqb b a.
Proof. apply N.eqb_sym. Qed.

Lemma array_join_cons2 (sep x y : jsstring) (t : list jsstring) :
  array_join sep (x :: y :: t) = x ++ sep ++ array_join sep (y :: t).
Proof. reflexivity. Qed.

Lemma comma_fields_nonempty (s : jsstring) : comma_fields s <> [].
Proof.
  destruct s as [|c t]; cbn; [discriminate|].
  destruct (cu_eqb c cu_comma); [discriminate|].
  now destruct (comma_fields t).
Qed.

Lemma comma_fields_join (s : jsstring) :
  array_join [cu_comma] (comma_fields s) = s.
Proof.
  induction s as [|c t IH]; [reflexivity|]. cbn [comma_fields].
  destruct (cu_eqb c cu_comma) eqn:E.
  - apply cu_eqb_eq in E as ->.
    pose proof (comma_fields_nonempty t).
    destruct (comma_fields t) as [|x l] eqn:F; [congruence|].
    cbn [array_join app] in *. now rewrite IH.
  - destruct (comma_fields t) as [|x l] eqn:F; [now destruct (comma_fields_nonempty t)|].
    cbn [cons_head]. destruct l; cbn [array_join app] in *; now rewrite IH.
Qed.

Lemma comma_fields_free (s : jsstring) :
  Forall (fun x => existsb (cu_eqb cu_comma) x = false) (comma_fields s).
Proof.
  induction s as [|c t IH]; cbn [comma_fields]; [now repeat constructor|].
  destruct (cu_eqb c cu_comma) eqn:E; [now constructor|].
  destruct (comma_fields t) as [|x l]; cbn [cons_head].
  - repeat constructor. cbn [existsb]. now rewrite cu_eqb_sym, E.
  - inversion IH as [|? ? Hx Hl]; subst. constructor; [|assumption].
    cbn [existsb]. now rewrite cu_eqb_sym, E.
Qed.

Lemma trimStart_field (x y : jsstring) :
  trimStart (x ++ cu_comma :: y) = trimStart x ++ cu_comma :: y.
Proof. apply drop_while_app_stop. reflexivity. Qed.

Lemma trimStart_free (x : jsstring) :
  existsb (cu_eqb cu_comma) x = false -> existsb (cu_eqb cu_comma) (trimStart x) = false.
Proof. apply drop_while_free. Qed.

Lemma replace_rest (r : jsstring) (fields : list jsstring) :
  fields <> [] ->
  Forall (fun x => existsb (cu_eqb cu_comma) x = false) fields ->
  r ++ replace (re_spaced cu_comma) (fun _ => r) (trimStart (array_join [cu_comma] fields))
  = render_rest r fields.
Proof.
  induction fields as [|x fields IH]; [congruence|]. intros _ H.
  inversion H as [|? ? Hx Hrest]; subst.
  destruct fields as [|x2 rest].
  - cbn [array_join render_rest]. f_equal.
    now apply comma_free_fixed, trimStart_free.
  - cbn [array_join render_rest app]. rewrite trimStart_field.
    rewrite replace_field by now apply trimStart_free.
    fold (trim x). f_equal. f_equal. apply IH; [discriminate|assumption].
Qed.

(** C3, as stated, fails: the parenthesis rule, which comes after the comma
    rule, removes the space between a comma and an opening parenthesis, in
    the normalized text and in the output. *)
Lemma comma_before_paren_unspaced :
  normalize no_options (js "select a,(b)") = js "select a,(b) "
  /\ formatSqlString (js "select a,(b)") no_options = Normal (js "SELECT a,(b)")
  /\ nth_error (js "SELECT a,(b)") 8 = Some cu_comma
  /\ nth_error (js "SELECT a,(b)") 9 <> Some cu_space.
Proof.
  repeat split; try (vm_compute; reflexivity). vm_compute. discriminate.
Qed.

(** The comma rule on its own replaces every comma, together with all
    the white space on both sides of it, by space-comma-space when
    commaPosition is 'before' and by comma-space for any other value, absent
    included.  The rules that come after it can still change the spaces
    next to a comma, for instance before a parenthesis. *)
Theorem space_commas_renders (o : SqlFormatterOptions) (s : jsstring) :
  space_commas o s = render_commas (comma_text o) s
  /\ (commaPosition o = Some "before"%string -> comma_text o = js " , ")
  /\ (commaPosition o <> Some "before"%string -> comma_text o = js ", ").
Proof.
  repeat split.
  - unfold space_commas, render_commas.
    pose proof (comma_fields_free s) as Hf. pose proof (comma_fields_join s) as Hj.
    destruct (comma_fields s) as [|x [|x2 rest]].
    + cbn in Hj. now subst.
    + cbn in Hj. subst. apply comma_free_fixed. now inversion Hf.
    + rewrite <- Hj. inversion Hf as [|? ? Hx Hrest]; subst.
      rewrite array_join_cons2.
      change ([cu_comma] ++ array_join [cu_comma] (x2 :: rest))
        with (cu_comma :: array_join [cu_comma] (x2 :: rest)).
      rewrite (replace_field _ _ _ Hx). f_equal.
      apply replace_rest; [discriminate|assumption].
  - unfold comma_text. now intros ->.
  - unfold comma_text. intros H. destruct (commaPosition o) as [p|]; [|reflexivity].
    cbn [option_is]. destruct (String.eqb_spec p "before"); [congruence|reflexivity].
Qed.

Lemma space_commas_renders_witness :
  space_commas no_options (js "a ,b,  c") = js "a, b, c".
Proof.
  destruct (space_commas_renders no_options (js "a ,b,  c")) as (H & _ & H').
  rewrite H, H' by discriminate. reflexivity.
Defined.

(** ** Line count *)

(** C8 fails on a table whose name ends in join: the text after FROM is not
    a JOIN unit, yet it is put on a line of its own.  The input has two
    top-level clauses and no JOIN unit, the output has three lines. *)
Lemma table_named_join_line_count :
  formatSqlString (js "select id from t_join") no_options
  = Normal (js "SELECT id" ++ [cu_newline] ++ js "FROM" ++ [cu_newline] ++ js "t_join")
  /\ line_count (js "SELECT id" ++ [cu_newline] ++ js "FROM" ++ [cu_newline] ++ js "t_join") = 3
  /\ count_matches majorRegex
       (keyword_case no_options (normalize no_options (js "select id from t_join"))) = 2
  /\ count_matches joinRegex
       (keyword_case no_options (normalize no_options (js "select id from t_join"))) = 0.
Proof. repeat split; vm_compute; reflexivity. Qed.

(** ** Cells *)

Lemma is_space_cu_space : is_space cu_space = true.
Proof. reflexivity. Qed.

Lemma spaces_S (n : nat) : spaces (S n) = cu_space :: spaces n.
Proof. reflexivity. Qed.

Lemma spaces_add (a b : nat) : spaces (a + b) = spaces a ++ spaces b.
Proof. unfold spaces. apply repeat_app. Qed.

Lemma spaces_snoc (n : nat) : spaces n ++ [cu_space] = cu_space :: spaces n.
Proof. unfold spaces. symmetry. apply repeat_cons. Qed.

Lemma forallb_spaces (n : nat) : forallb is_space (spaces n) = true.
Proof.
  induction n; [reflexivity|]. rewrite spaces_S. cbn [forallb].
  now rewrite is_space_cu_space, IHn.
Qed.

Lemma span_len_spaces (n : nat) (c : code_unit) (t : jsstring) :
  is_space c = false -> span_len is_space (spaces n ++ c :: t) = n.
Proof.
  intros H. rewrite span_len_app_stop; [apply repeat_length|apply forallb_spaces|assumption].
Qed.

Lemma span_len_spaces_end (n : nat) : span_len is_space (spaces n) = n.
Proof. rewrite span_len_all; [apply repeat_length|apply forallb_spaces]. Qed.

Lemma drop_while_spaces (n : nat) (t : jsstring) :
  drop_while is_space (spaces n ++ t) = drop_while is_space t.
Proof.
  induction n; [reflexivity|]. rewrite spaces_S. cbn [app drop_while].
  now rewrite is_space_cu_space.
Qed.

Lemma drop_while_stop (p : code_unit -> bool) (c : code_unit) (t : jsstring) :
  p c = false -> drop_while p (c :: t) = c :: t.
Proof. intros H. cbn. now rewrite H. Qed.

Lemma valid_cons (n : nat) (c : code_unit) (l : list cell) :
  valid ((n, c) :: l) <-> is_space c = false /\ valid l.
Proof.
  unfold valid. split.
  - intros H. inversion H; subst. auto.
  - intros [H1 H2]. now constructor.
Qed.

Lemma cells_from_valid (s : jsstring) (sp : nat) : valid (cells_from sp s).
Proof.
  revert sp. induction s as [|c t IH]; intros sp; cbn; [constructor|].
  destruct (is_space c) eqn:E; [apply IH|]. apply valid_cons. auto.
Qed.

Lemma respace_valid (h : spacing) (l : list cell) (p : option code_unit) :
  valid l -> valid (respace h p l).
Proof.
  revert p. induction l as [|[n c] l IH]; intros p H; cbn; [constructor|].
  apply valid_cons in H as [H1 H2]. apply valid_cons. auto.
Qed.

Lemma unlead_valid (l : list cell) : valid l -> valid (unlead l).
Proof.
  destruct l as [|[n c] l]; [auto|]. cbn. intros H.
  apply valid_cons in H. now apply valid_cons.
Qed.

Lemma last_char_respace (h : spacing) (l : list cell) (p q : option code_unit) :
  last_char q (respace h p l) = last_char q l.
Proof.
  revert p q. induction l as [|[n c] l IH]; intros p q; [reflexivity|].
  cbn. unfold last_char in *. cbn. apply IH.
Qed.

Lemma respace_respace (h1 h2 : spacing) (l : list cell) (p : option code_unit) :
  respace h2 p (respace h1 p l) = respace (fun p n c => h2 p (h1 p n c) c) p l.
Proof.
  revert p. induction l as [|[n c] l IH]; intros p; [reflexivity|].
  cbn. now rewrite IH.
Qed.

(** ** White space collapsed *)

Lemma cells_from_spaced (t : jsstring) :
  flat (cells_from 1 t) (trail_from 1 t)
  = cu_space :: flat (cells_from 0 (drop_while is_space t)) (trail_from 0 (drop_while is_space t)).
Proof.
  induction t as [|d t IH]; [reflexivity|]. cbn.
  destruct (is_space d) eqn:E; [exact IH|]. cbn. now rewrite E.
Qed.

Lemma collapse_spaces_from (k : nat) :
  forall (x : jsstring) (p : option code_unit), length x <= k ->
  replace_from (re_plus is_space) (fun _ => [cu_space]) p x 0
  = flat (cells_from 0 x) (trail_from 0 x).
Proof.
  induction k as [|k IH]; intros x p Hk.
  - destruct x; [reflexivity|cbn in Hk; lia].
  - destruct x as [|c t]; [reflexivity|]. cbn [replace_from cells_from trail_from].
    unfold re_plus at 1. cbn [span_len]. destruct (is_space c) eqn:E.
    + cbn [app]. rewrite replace_from_skip by apply span_len_le.
      rewrite skipn_span_len, cells_from_spaced. f_equal.
      apply IH. cbn in Hk.
      assert (length (drop_while is_space t) <= length t).
      { clear. induction t as [|d t IH]; cbn; [lia|]. destruct (is_space d); cbn; lia. }
      lia.
    + cbn [flat spaces repeat app]. f_equal. apply IH. cbn in Hk. lia.
Qed.

Lemma collapse_spaces_cells (x : jsstring) :
  collapse_spaces x = flat (cells_from 0 x) (trail_from 0 x).
Proof. apply (collapse_spaces_from (length x)). lia. Qed.

Lemma trimStart_flat (n : nat) (c : code_unit) (l : list cell) (tr : nat) :
  is_space c = false -> trimStart (flat ((n, c) :: l) tr) = c :: flat l tr.
Proof.
  intros H. cbn [flat]. unfold trimStart. rewrite drop_while_spaces.
  now apply drop_while_stop.
Qed.

Lemma trimEnd_spaces (n : nat) : trimEnd (spaces n) = [].
Proof.
  induction n; [reflexivity|]. rewrite spaces_S, trimEnd_cons.
  now rewrite is_space_cu_space, forallb_spaces.
Qed.

Lemma forallb_flat_cons (n : nat) (c : code_unit) (t : jsstring) :
  is_space c = false -> forallb is_space (spaces n ++ c :: t) = false.
Proof.
  intros H. rewrite forallb_app. cbn. rewrite H. now rewrite andb_false_r.
Qed.

Lemma trimEnd_stop (n : nat) (c : code_unit) (t : jsstring) :
  is_space c = false ->
  trimEnd (spaces n ++ c :: t) = spaces n ++ c :: trimEnd t.
Proof.
  intros H. induction n as [|n IH].
  - cbn [spaces repeat app]. rewrite trimEnd_cons, H. reflexivity.
  - rewrite spaces_S. cbn [app]. rewrite trimEnd_cons, forallb_flat_cons by assumption.
    rewrite andb_false_r. now rewrite IH.
Qed.

Lemma trimEnd_flat (l : list cell) (tr : nat) :
  valid l -> trimEnd (flat l tr) = flat l 0 \/ l = [].
Proof.
  induction l as [|[n c] l IH]; intros H; [now right|]. left.
  apply valid_cons in H as [Hc Hl]. cbn [flat]. rewrite trimEnd_stop by assumption.
  destruct (IH Hl) as [->| ->]; [reflexivity|]. cbn [flat]. now rewrite trimEnd_spaces.
Qed.

Lemma trim_flat (l : list cell) (tr : nat) :
  valid l -> trim (flat l tr) = flat (unlead l) 0.
Proof.
  intros H. destruct l as [|[n c] l].
  - cbn [flat unlead]. unfold trim, trimStart.
    rewrite (drop_while_all is_space (spaces tr)) by apply forallb_spaces. reflexivity.
  - apply valid_cons in H as [Hc Hl]. unfold trim. rewrite trimStart_flat by assumption.
    change (c :: flat l tr) with (spaces 0 ++ c :: flat l tr).
    rewrite trimEnd_stop by assumption. cbn [unlead flat]. do 2 f_equal.
    destruct (trimEnd_flat l tr Hl) as [->| ->]; [reflexivity|].
    cbn. apply trimEnd_spaces.
Qed.

Lemma normalize_whitespace_cells (x : jsstring) :
  normalize_whitespace x = flat (unlead (cells_from 0 x)) 0.
Proof.
  unfold normalize_whitespace. rewrite collapse_spaces_cells.
  apply trim_flat, cells_from_valid.
Qed.

(** ** The rules around a single code unit *)

Section SpacedRule.

Variable x : code_unit.
Variables a b : nat.
Hypothesis x_not_space : is_space x = false.

Let r : jsstring := spaces a ++ x :: spaces b.
Let R (s : jsstring) : jsstring := replace (re_spaced x) (fun _ => r) s.

Lemma spaced_step_other (p : option code_unit) (c : code_unit) (t : jsstring) :
is_space c = false -> cu_eqb c x = false ->
replace_from (re_spaced x) (fun _ => r) p (c :: t) 0 = c :: R t.
Proof.
intros Hs Hx. cbn [replace_from]. unfold re_spaced at 1. cbn [span_len].
rewrite Hs. cbn [skipn]. rewrite Hx. f_equal. apply replace_from_spaced_prev.
Qed.

Lemma spaced_step_spaces (p : option code_unit) (n : nat) (c : code_unit) (t : jsstring) :
is_space c = false -> cu_eqb c x = false ->
replace_from (re_spaced x) (fun _ => r) p (spaces n ++ c :: t) 0
= spaces n ++ c :: R t.
Proof.
intros Hs Hx. revert p. induction n as [|n IH]; intros p.
- now apply spaced_step_other.
- rewrite spaces_S. cbn [app replace_from]. unfold re_spaced at 1.
change (cu_space :: spaces n ++ c :: t) with (spaces (S n) ++ c :: t).
rewrite span_len_spaces by assumption.
rewrite skipn_app, skipn_all2 by (unfold spaces; rewrite repeat_length; lia).
unfold spaces at 1. rewrite repeat_length, Nat.sub_diag. cbn [app skipn].
rewrite Hx. f_equal. apply IH.
Qed.

Lemma spaced_step_match (p : option code_unit) (n : nat) (t : jsstring) :
replace_from (re_spaced x) (fun _ => r) p (spaces n ++ x :: t) 0
= r ++ R (drop_while is_space t).
Proof.
assert (E : re_spaced x p (spaces n ++ x :: t) = Some (n + 1 + span_len is_space t)).
{ unfold re_spaced. rewrite span_len_spaces by assumption.
rewrite skipn_app, skipn_all2 by (unfold spaces; rewrite repeat_length; lia).
unfold spaces at 1. rewrite repeat_length, Nat.sub_diag. cbn [app skipn].
unfold cu_eqb. now rewrite N.eqb_refl. }
assert (Hlen : n + span_len is_space t <= length (spaces n ++ x :: t) - 1).
{ rewrite length_app. unfold spaces. rewrite repeat_length. cbn [length].
pose proof (span_len_le is_space t). lia. }
destruct (spaces n ++ x :: t) as [|c s] eqn:Es.
{ destruct n; discriminate. }
cbn [replace_from]. rewrite E.
replace (n + 1 + span_len is_space t) with (S (n + span_len is_space t)) by lia.
f_equal. cbn [length] in Hlen.
rewrite replace_from_skip by lia.
assert (Hs : skipn (n + span_len is_space t) s = drop_while is_space t).
{ change s with (skipn 1 (c :: s)). rewrite <- Es, skipn_skipn.
replace (n + span_len is_space t + 1) with (n + (1 + span_len is_space t)) by lia.
rewrite skipn_app, skipn_all2 by (unfold spaces; rewrite repeat_length; lia).
unfold spaces. rewrite repeat_length.
replace (n + (1 + span_len is_space t) - n) with (S (span_len is_space t)) by lia.
cbn [app skipn]. apply skipn_span_len. }
rewrite Hs. apply replace_from_spaced_prev.
Qed.

Lemma spaced_step_end (n : nat) : R (spaces n) = spaces n.
Proof.
unfold R, replace. generalize (@None code_unit).
induction n as [|n IH]; intros p; [reflexivity|].
rewrite spaces_S. cbn [replace_from].
rewrite re_spaced_none.
- f_equal. apply IH.
- change (cu_space :: spaces n) with (spaces (S n)).
generalize (S n). intros k. induction k as [|k IHk]; [reflexivity|].
rewrite spaces_S. cbn [existsb]. rewrite IHk, orb_false_r.
unfold cu_eqb. apply N.eqb_neq. intros ->. now rewrite is_space_cu_space in x_not_space.
Qed.

Lemma opt_is_some (c : code_unit) : opt_is x (Some c) = cu_eqb c x.
Proof. reflexivity. Qed.

Lemma spaced_rule_cells (l : list cell) (tr : nat) :
valid l ->
(forall p, opt_is x p = false ->
 R (flat l tr)
 = flat (respace (h_spaced x a b) p l) (respace_trail (h_spaced x a b) p l tr))
/\ spaces b ++ R (drop_while is_space (flat l tr))
 = flat (respace (h_spaced x a b) (Some x) l)
    (respace_trail (h_spaced x a b) (Some x) l tr).
Proof.
assert (Hxx : cu_eqb x x = true) by (unfold cu_eqb; apply N.eqb_refl).
induction l as [|[n c] l IH]; intros Hv.
- split.
+ intros p Hp. cbn [flat respace]. unfold respace_trail, h_spaced. cbn [last_char fold_left].
rewrite Hp. cbn [opt_is orb]. apply spaced_step_end.
+ cbn [flat respace]. unfold respace_trail, h_spaced. cbn [last_char fold_left opt_is].
rewrite Hxx. cbn [orb]. rewrite drop_while_all by apply forallb_spaces.
cbn. now rewrite app_nil_r, Nat.add_0_r.
- apply valid_cons in Hv as [Hc Hv]. destruct (IH Hv) as [IH1 IH2]. clear IH.
unfold respace_trail in *. cbn [flat respace last_char fold_left snd].
fold (last_char (Some c) l).
destruct (cu_eqb c x) eqn:Ec.
+ apply cu_eqb_eq in Ec. subst c. split.
* intros p Hp. unfold R, replace. rewrite spaced_step_match.
unfold h_spaced at 1. rewrite Hp. cbn [opt_is]. rewrite Hxx. cbn [orb Nat.add].
unfold r. rewrite <- app_assoc. f_equal. cbn [app]. f_equal. exact IH2.
* rewrite drop_while_spaces, drop_while_stop by assumption.
change (x :: flat l tr) with (spaces 0 ++ x :: flat l tr).
unfold R, replace. rewrite spaced_step_match.
unfold h_spaced at 1. cbn [opt_is]. rewrite Hxx. cbn [orb].
unfold r. rewrite spaces_add, <- !app_assoc. do 2 f_equal. cbn [app]. f_equal.
exact IH2.
+ split.
* intros p Hp. unfold R, replace. rewrite spaced_step_spaces by assumption.
unfold h_spaced at 1. rewrite Hp. cbn [opt_is]. rewrite Ec. cbn [orb].
do 2 f_equal. apply IH1. exact Ec.
* rewrite drop_while_spaces, drop_while_stop by assumption.
unfold R, replace. rewrite spaced_step_other by assumption.
unfold h_spaced at 1. cbn [opt_is]. rewrite Hxx, Ec. cbn [orb].
rewrite Nat.add_0_r. do 2 f_equal. apply IH1. exact Ec.
Qed.

Lemma spaced_rule (l : list cell) (tr : nat) :
valid l ->
replace (re_spaced x) (fun _ => spaces a ++ x :: spaces b) (flat l tr)
= flat (respace (h_spaced x a b) None l) (respace_trail (h_spaced x a b) None l tr).
Proof.
intros Hv. now apply (spaced_rule_cells l tr Hv).
Qed.

End SpacedRule.

(** ** The operator rule *)

Lemma is_operator_space (c : code_unit) : is_operator c = true -> is_space c = false.
Proof. class_cases. Qed.

Lemma operators_step_other (p : option code_unit) (c : code_unit) (t : jsstring) :
  is_operator c = false ->
  replace_from (re_plus is_operator) op_text p (c :: t) 0
  = c :: replace_from (re_plus is_operator) op_text (Some c) t 0.
Proof.
  intros H. cbn [replace_from]. unfold re_plus at 1. cbn [span_len]. now rewrite H.
Qed.

Lemma replace_from_plus_prev (q : code_unit -> bool) (f : jsstring -> jsstring)
    (p p' : option code_unit) (s : jsstring) (skip : nat) :
  replace_from (re_plus q) f p s skip = replace_from (re_plus q) f p' s skip.
Proof.
  revert p p' skip. induction s as [|c t IH]; intros p p' skip; [reflexivity|].
  cbn [replace_from]. destruct skip; [|apply IH].
  change (re_plus q p (c :: t)) with (re_plus q p' (c :: t)).
  destruct (re_plus q p' (c :: t)) as [[|k]|]; f_equal; apply IH.
Qed.

Lemma operators_step_spaces (p : option code_unit) (n : nat) (t : jsstring) :
  replace_from (re_plus is_operator) op_text p (spaces n ++ t) 0
  = spaces n ++ replace_from (re_plus is_operator) op_text None t 0.
Proof.
  revert p. induction n as [|n IH]; intros p.
  - apply replace_from_plus_prev.
  - rewrite spaces_S. cbn [app]. rewrite operators_step_other by reflexivity.
    f_equal. apply IH.
Qed.

Lemma firstn_span_len_spaces (n : nat) (t : jsstring) :
  0 < n -> span_len is_operator (spaces n ++ t) = 0.
Proof. destruct n; [lia|]. reflexivity. Qed.

Lemma operators_step_run (p : option code_unit) (c : code_unit) (t : jsstring) :
  is_operator c = true ->
  replace_from (re_plus is_operator) op_text p (c :: t) 0
  = cu_space :: c :: firstn (span_len is_operator t) t
    ++ cu_space :: replace_from (re_plus is_operator) op_text None
                     (skipn (span_len is_operator t) t) 0.
Proof.
  intros H. cbn [replace_from]. unfold re_plus at 1. cbn [span_len]. rewrite H.
  unfold op_text. cbn [firstn app]. do 2 f_equal. rewrite <- app_assoc. f_equal.
  cbn [app]. f_equal. rewrite replace_from_skip by apply span_len_le.
  apply replace_from_plus_prev.
Qed.

Lemma h_operators_none (p c : option code_unit) (n : nat) :
  opt_operator p = false -> opt_operator c = false -> h_operators p n c = n.
Proof. intros Hp Hc. unfold h_operators. rewrite Hp, Hc. cbn. lia. Qed.

Lemma h_operators_next (p c : option code_unit) (n : nat) :
  opt_operator p = false -> opt_operator c = true -> h_operators p n c = n + 1.
Proof. intros Hp Hc. unfold h_operators. rewrite Hp, Hc. cbn. lia. Qed.

Lemma h_operators_prev (p c : option code_unit) (n : nat) :
  opt_operator p = true -> opt_operator c = false -> h_operators p n c = n + 1.
Proof. intros Hp Hc. unfold h_operators. rewrite Hp, Hc. cbn. lia. Qed.

Lemma h_operators_run (p c : option code_unit) :
  opt_operator p = true -> opt_operator c = true -> h_operators p 0 c = 0.
Proof. intros Hp Hc. unfold h_operators. rewrite Hp, Hc. reflexivity. Qed.

Lemma h_operators_both (p c : option code_unit) (n : nat) :
  opt_operator p = true -> opt_operator c = true -> h_operators p (S n) c = S n + 2.
Proof. intros Hp Hc. unfold h_operators. rewrite Hp, Hc. cbn. lia. Qed.

Lemma operators_rule_cells (l : list cell) (tr : nat) :
  valid l ->
  let R := fun s => replace_from (re_plus is_operator) op_text None s 0 in
  let E := fun p => flat (respace h_operators p l) (respace_trail h_operators p l tr) in
  (forall p, opt_operator p = false -> R (flat l tr) = E p)
  /\ (forall p, opt_operator p = true ->
        firstn (span_len is_operator (flat l tr)) (flat l tr)
        ++ cu_space :: R (skipn (span_len is_operator (flat l tr)) (flat l tr)) = E p).
Proof.
  intros Hv R E. subst R E. cbv beta.
  induction l as [|[n c] l IH].
  - unfold respace_trail. cbn [flat respace last_char fold_left].
    split; intros p Hp.
    + rewrite h_operators_none by (assumption || reflexivity).
      rewrite <- (app_nil_r (spaces tr)) at 1.
      rewrite operators_step_spaces. cbn. now rewrite app_nil_r.
    + rewrite h_operators_prev by (assumption || reflexivity).
      assert (Hs : span_len is_operator (spaces tr) = 0) by (destruct tr; reflexivity).
      rewrite Hs. cbn [firstn skipn app].
      rewrite <- (app_nil_r (spaces tr)) at 1.
      rewrite operators_step_spaces. cbn [replace_from]. rewrite app_nil_r.
      rewrite Nat.add_comm. reflexivity.
  - apply valid_cons in Hv as [Hc Hv]. destruct (IH Hv) as [IH1 IH2]. clear IH.
    unfold respace_trail in *. cbn [flat respace last_char fold_left snd].
    fold (last_char (Some c) l).
    destruct (is_operator c) eqn:Ec.
    + (* the cell is an operator *)
      assert (Hrun : replace_from (re_plus is_operator) op_text None (spaces n ++ c :: flat l tr) 0
                     = spaces n ++ cu_space :: c
                       :: flat (respace h_operators (Some c) l)
                            (h_operators (last_char (Some c) l) tr None)).
      { rewrite operators_step_spaces, operators_step_run by assumption.
        do 3 f_equal. apply IH2. cbn. exact Ec. }
      split; intros p Hp.
      * rewrite Hrun. rewrite (h_operators_next p (Some c) n Hp Ec).
        rewrite spaces_add, <- app_assoc. reflexivity.
      * destruct n as [|n].
        -- (* the run goes on *)
           rewrite (h_operators_run p (Some c) Hp Ec).
           cbn [spaces repeat app span_len]. rewrite Ec.
           cbn [firstn skipn app]. f_equal. apply IH2. cbn. exact Ec.
        -- rewrite (h_operators_both p (Some c) n Hp Ec).
           rewrite firstn_span_len_spaces by lia. cbn [firstn skipn app].
           rewrite Hrun.
           replace (S n + 2) with (S (S n + 1)) by lia.
           rewrite (spaces_S (S n + 1)). cbn [app]. f_equal.
           rewrite spaces_add, <- app_assoc. reflexivity.
    + (* the cell is no operator *)
      assert (Hstep : replace_from (re_plus is_operator) op_text None (spaces n ++ c :: flat l tr) 0
                     = spaces n ++ c
                       :: flat (respace h_operators (Some c) l)
                            (h_operators (last_char (Some c) l) tr None)).
      { rewrite operators_step_spaces, operators_step_other by assumption.
        do 2 f_equal. rewrite (replace_from_plus_prev _ _ (Some c) None).
        apply IH1. cbn. exact Ec. }
      split; intros p Hp.
      * rewrite Hstep. now rewrite (h_operators_none p (Some c) n Hp Ec).
      * rewrite (h_operators_prev p (Some c) n Hp Ec).
        assert (Hs : span_len is_operator (spaces n ++ c :: flat l tr) = 0).
        { destruct n; cbn; [now rewrite Ec|reflexivity]. }
        rewrite Hs. cbn [firstn skipn app]. rewrite Hstep.
        rewrite Nat.add_comm. reflexivity.
Qed.

Lemma operators_rule (l : list cell) (tr : nat) :
  valid l ->
  space_operators (flat l tr)
  = flat (respace h_operators None l) (respace_trail h_operators None l tr).
Proof.
  intros Hv. now apply (operators_rule_cells l tr Hv).
Qed.

(** ** Collapsing a text of cells *)

Lemma cells_from_flat (l : list cell) (tr : nat) :
  valid l ->
  cells_from 0 (flat l tr) = respace h_collapse None l
  /\ trail_from 0 (flat l tr) = respace_trail h_collapse None l tr.
Proof.
  assert (G : forall (n sp : nat) (t : jsstring),
            cells_from sp (spaces n ++ t) = cells_from (if n =? 0 then sp else 1) t
            /\ trail_from sp (spaces n ++ t) = trail_from (if n =? 0 then sp else 1) t).
  { induction n as [|n IHn]; intros sp t; [now split|].
    rewrite spaces_S. cbn [app cells_from trail_from]. rewrite is_space_cu_space.
    destruct (IHn 1 t) as [-> ->]. now destruct n. }
  assert (H : forall l p, valid l ->
            cells_from 0 (flat l tr) = respace h_collapse p l
            /\ trail_from 0 (flat l tr) = respace_trail h_collapse p l tr).
  { clear l. induction l as [|[n c] l IH]; intros p Hv.
    - cbn [flat respace]. unfold respace_trail, h_collapse.
      rewrite <- (app_nil_r (spaces tr)). destruct (G tr 0 []) as [-> ->].
      cbn [cells_from trail_from last_char fold_left].
      split; [reflexivity|]. now destruct tr as [|[|]].
    - apply valid_cons in Hv as [Hc Hv]. cbn [flat respace].
      destruct (G n 0 (c :: flat l tr)) as [-> ->]. cbn [cells_from trail_from].
      rewrite Hc. destruct (IH (Some c) Hv) as [-> ->]. split.
      + f_equal. unfold h_collapse. now destruct n as [|[|]].
      + unfold respace_trail. reflexivity. }
  apply H.
Qed.

Lemma collapse_rule (l : list cell) (tr : nat) :
  valid l ->
  collapse_spaces (flat l tr)
  = flat (respace h_collapse None l) (respace_trail h_collapse None l tr).
Proof.
  intros Hv. rewrite collapse_spaces_cells.
  now destruct (cells_from_flat l tr Hv) as [-> ->].
Qed.

(** ** The call rule changes nothing *)

Lemma is_word_space (c : code_unit) : is_word c = true -> is_space c = false.
Proof. class_cases. Qed.

Lemma replace_from_fixed (m : matcher) (f : jsstring -> jsstring) (s : jsstring) :
  (forall u v p n, s = u ++ v -> m p v = Some n ->
     n <= length v /\ f (firstn n v) = firstn n v) ->
  forall p skip, skip <= length s ->
  firstn skip s ++ replace_from m f p s skip = s.
Proof.
  induction s as [|c t IH]; intros H p skip Hs.
  - destruct skip; [reflexivity|cbn in Hs; lia].
  - assert (Ht : forall u v p n, t = u ++ v -> m p v = Some n ->
                 n <= length v /\ f (firstn n v) = firstn n v).
    { intros u v q n -> Hm. apply (H (c :: u) v q n eq_refl Hm). }
    cbn [replace_from]. destruct skip as [|k].
    + cbn [firstn app]. destruct (m p (c :: t)) as [[|k]|] eqn:E.
      * f_equal. apply (IH Ht (Some c) 0). lia.
      * destruct (H [] (c :: t) p (S k) eq_refl E) as [Hk Hf].
        cbn [firstn] in Hf. rewrite Hf.
        cbn [firstn app]. f_equal. apply (IH Ht (Some c) k). cbn in Hk. lia.
      * f_equal. apply (IH Ht (Some c) 0). lia.
    + cbn [firstn app]. f_equal. apply (IH Ht (Some c) k). cbn in Hs. lia.
Qed.

Lemma re_call_eq (p : option code_unit) (v : jsstring) :
  re_call p v
  = let a := span_len is_word v in
    let b := span_len is_space (skipn a v) in
    if a =? 0 then None
    else match skipn (a + b) v with
         | c :: _ => if cu_eqb c cu_lparen then Some (a + b + 1) else None
         | [] => None
         end.
Proof. unfold re_call. now destruct (span_len is_word v). Qed.

Lemma span_len_firstn (q : code_unit -> bool) (v : jsstring) (t : jsstring) (c : code_unit) :
  q c = false -> span_len q (firstn (span_len q v) v ++ c :: t) = span_len q v.
Proof.
  intros Hc. induction v as [|d v IH]; cbn [span_len firstn app].
  - now rewrite Hc.
  - destruct (q d) eqn:Ed; cbn [firstn app span_len]; [now rewrite Ed, IH|now rewrite Hc].
Qed.

Lemma re_call_tight (p : option code_unit) (v : jsstring) (n : nat) :
  tight_call v -> re_call p v = Some n ->
  n <= length v /\ call_text (firstn n v) = firstn n v.
Proof.
  unfold tight_call. rewrite re_call_eq. cbv zeta.
  remember (span_len is_word v) as a eqn:Ea.
  remember (span_len is_space (skipn a v)) as b eqn:Eb.
  intros Ht. destruct (Nat.eqb_spec a 0) as [|Ha]; [discriminate|].
  destruct (skipn (a + b) v) as [|c r] eqn:Es; [discriminate|].
  destruct (cu_eqb c cu_lparen) eqn:Ec; [|discriminate].
  apply cu_eqb_eq in Ec. subst c. intros Hn. injection Hn as <-.
  assert (Hb : b = 0) by (apply Ht; [reflexivity|lia]).
  rewrite Hb, Nat.add_0_r in *. clear Hb Ht Eb.
  assert (Hl : a < length v).
  { destruct (Nat.lt_ge_cases a (length v)) as [|Hge]; [assumption|].
    rewrite skipn_all2 in Es by assumption. discriminate. }
  split; [lia|].
  assert (Hv : v = firstn a v ++ cu_lparen :: r)
    by (rewrite <- Es; symmetry; apply firstn_skipn).
  assert (Hf : firstn (a + 1) v = firstn a v ++ [cu_lparen]).
  { rewrite Hv at 1. rewrite firstn_app, length_firstn, Nat.min_l by lia.
    replace (a + 1 - a) with 1 by lia. cbn [firstn].
    rewrite firstn_firstn, Nat.min_r by lia. reflexivity. }
  rewrite Hf. unfold call_text.
  assert (Hw : span_len is_word (firstn a v ++ [cu_lparen]) = a).
  { rewrite Ea. now apply span_len_firstn. }
  rewrite Hw, firstn_app, length_firstn, Nat.min_l by lia.
  rewrite Nat.sub_diag, firstn_firstn, Nat.min_id. cbn [firstn]. now rewrite app_nil_r.
Qed.

Lemma tight_call_word (c : code_unit) (t : jsstring) :
  is_word c = true -> tight_call t -> 0 < span_len is_word t -> tight_call (c :: t).
Proof.
  unfold tight_call. intros Hc Ht Hpos. cbn [span_len]. rewrite Hc.
  cbn [skipn Nat.add]. intros H _. now apply Ht.
Qed.

Lemma tight_call_flat (l : list cell) (tr : nat) (c : code_unit) :
  valid l -> is_word c = true -> call_ok (Some c) l -> tight_call (c :: flat l tr).
Proof.
  revert c. induction l as [|[n d] l IH]; intros c Hv Hc Hok.
  - unfold tight_call. cbn [flat span_len]. rewrite Hc.
    assert (Hs : span_len is_word (spaces tr) = 0) by (destruct tr; reflexivity).
    rewrite Hs. cbn [skipn Nat.add]. rewrite span_len_spaces_end.
    rewrite skipn_all2 by (unfold spaces; rewrite repeat_length; lia). discriminate.
  - apply valid_cons in Hv as [Hd Hv]. cbn [call_ok] in Hok. destruct Hok as [Hn Hok].
    cbn [flat]. destruct n as [|n].
    + cbn [spaces repeat app]. destruct (is_word d) eqn:Ed.
      * apply tight_call_word; [assumption|now apply IH|]. cbn [span_len]. rewrite Ed. lia.
      * unfold tight_call. cbn [span_len]. rewrite Hc, Ed. cbn [skipn span_len].
        now rewrite Hd.
    + unfold tight_call. cbn [span_len]. rewrite Hc.
      assert (Hs : span_len is_word (spaces (S n) ++ d :: flat l tr) = 0) by reflexivity.
      rewrite Hs. cbn [skipn Nat.add]. rewrite span_len_spaces by assumption.
      rewrite skipn_app, skipn_all2 by (unfold spaces; rewrite repeat_length; lia).
      unfold spaces at 1. rewrite repeat_length, Nat.sub_diag. cbn [app skipn hd_error].
      intros H _. injection H as ->. specialize (Hn eq_refl). cbn in Hn.
      specialize (Hn Hc). discriminate.
Qed.

Lemma flat_suffix (l : list cell) (tr : nat) (u v : jsstring) (c : code_unit) :
  valid l -> is_space c = false -> flat l tr = u ++ c :: v ->
  exists l1 n l2, l = l1 ++ (n, c) :: l2 /\ v = flat l2 tr.
Proof.
  revert u. induction l as [|[n d] l IH]; intros u Hv Hc H.
  - cbn [flat] in H. exfalso.
    assert (Hin : In c (spaces tr)) by (rewrite H; apply in_elt).
    apply repeat_spec in Hin. subst c. now rewrite is_space_cu_space in Hc.
  - apply valid_cons in Hv as [Hd Hv]. cbn [flat] in H.
    apply app_eq_app in H as [w [[Hu Hw]|[Hu Hw]]].
    + (* the cut is inside the spaces of the first cell, or right after them *)
      destruct w as [|e w].
      * cbn [app] in Hw. injection Hw as -> ->. now exists [], n, l.
      * exfalso. cbn [app] in Hw. injection Hw as <- Hw.
        assert (Hin : In c (spaces n)) by (rewrite Hu; apply in_elt).
        apply repeat_spec in Hin. subst c. now rewrite is_space_cu_space in Hc.
    + (* the cut is after the spaces of the first cell *)
      destruct w as [|e w].
      * cbn [app] in Hw. injection Hw as -> <-. now exists [], n, l.
      * cbn [app] in Hw. injection Hw as <- Hw.
        destruct (IH w Hv Hc Hw) as (l1 & k & l2 & -> & ->).
        now exists ((n, d) :: l1), k, l2.
Qed.

Lemma call_ok_suffix (l1 l2 : list cell) (n : nat) (c : code_unit) (p : option code_unit) :
  call_ok p (l1 ++ (n, c) :: l2) -> call_ok (Some c) l2.
Proof.
  revert p. induction l1 as [|[k d] l1 IH]; intros p H; cbn [app call_ok] in H.
  - apply H.
  - apply (IH (Some d)), H.
Qed.

Lemma valid_suffix (l1 l2 : list cell) : valid (l1 ++ l2) -> valid l2.
Proof. unfold valid. rewrite Forall_app. tauto. Qed.

Lemma call_rule (l : list cell) (tr : nat) :
  valid l -> call_ok None l -> call_parens (flat l tr) = flat l tr.
Proof.
  intros Hv Hok. unfold call_parens, replace.
  apply (replace_from_fixed re_call call_text (flat l tr)) with (skip := 0); [|lia].
  intros u v p n Huv Hm. apply (re_call_tight p v n); [|assumption].
  destruct v as [|c v]; [discriminate|].
  destruct (is_word c) eqn:Ec.
  - destruct (flat_suffix l tr u v c Hv (is_word_space c Ec) Huv) as (l1 & k & l2 & -> & ->).
    apply tight_call_flat; [|assumption|].
    + apply valid_suffix in Hv. now apply valid_cons in Hv.
    + eapply call_ok_suffix, Hok.
  - unfold tight_call. cbn [span_len]. rewrite Ec. lia.
Qed.

(** ** The normalization stage on cells *)

Lemma h_normalize_lparen (p : option code_unit) (n : nat) :
  is_word_opt p = true -> h_normalize p n (Some cu_lparen) = 0.
Proof.
  intros Hp. unfold h_normalize, h_collapse, h_spaced.
  assert (E : opt_is cu_rparen p = false).
  { destruct p as [c|]; [|reflexivity]. cbn in *. clear n. class_cases. }
  rewrite E. cbn. now destruct (opt_is cu_lparen p).
Qed.

Lemma call_ok_normalize (l : list cell) (p : option code_unit) :
  call_ok p (respace h_normalize p l).
Proof.
  revert p. induction l as [|[n c] l IH]; intros p; cbn [respace call_ok]; [exact I|].
  split; [|apply IH]. intros -> Hp. now apply h_normalize_lparen.
Qed.

Lemma normalize_cells_eq (o : SqlFormatterOptions) (sql : jsstring) :
  default_commas o -> normalize o sql = normalize_cells sql.
Proof.
  intros Ho. unfold normalize, normalize_cells.
  rewrite normalize_whitespace_cells.
  set (l0 := unlead (cells_from 0 sql)).
  assert (Hv0 : valid l0) by apply unlead_valid, cells_from_valid.
  rewrite (operators_rule l0 0 Hv0).
  set (l1 := respace h_operators None l0).
  assert (Hv1 : valid l1) by now apply respace_valid.
  unfold space_commas, comma_text. rewrite Ho.
  change (fun _ : jsstring => js ", ")
    with (fun _ : jsstring => spaces 0 ++ cu_comma :: spaces 1).
  rewrite (spaced_rule cu_comma 0 1 eq_refl l1 _ Hv1).
  set (l2 := respace (h_spaced cu_comma 0 1) None l1).
  assert (Hv2 : valid l2) by now apply respace_valid.
  unfold open_parens.
  change (fun _ : jsstring => js "(")
    with (fun _ : jsstring => spaces 0 ++ cu_lparen :: spaces 0).
  rewrite (spaced_rule cu_lparen 0 0 eq_refl l2 _ Hv2).
  set (l3 := respace (h_spaced cu_lparen 0 0) None l2).
  assert (Hv3 : valid l3) by now apply respace_valid.
  unfold close_parens.
  change (fun _ : jsstring => js ") ")
    with (fun _ : jsstring => spaces 0 ++ cu_rparen :: spaces 1).
  rewrite (spaced_rule cu_rparen 0 1 eq_refl l3 _ Hv3).
  set (l4 := respace (h_spaced cu_rparen 0 1) None l3).
  assert (Hv4 : valid l4) by now apply respace_valid.
  rewrite (collapse_rule l4 _ Hv4).
  assert (El : respace h_collapse None l4 = respace h_normalize None l0).
  { subst l4 l3 l2 l1. now rewrite !respace_respace. }
  assert (Et : respace_trail h_collapse None l4
                 (respace_trail (h_spaced cu_rparen 0 1) None l3
                    (respace_trail (h_spaced cu_lparen 0 0) None l2
                       (respace_trail (h_spaced cu_comma 0 1) None l1
                          (respace_trail h_operators None l0 0))))
               = respace_trail h_normalize None l0 0).
  { unfold respace_trail. subst l4 l3 l2 l1. now rewrite !last_char_respace. }
  rewrite El, Et. apply call_rule.
  - now apply respace_valid.
  - apply call_ok_normalize.
Qed.

(** ** Literals on cells *)

Lemma canonicalize_space (c : code_unit) :
  canonicalize c = canonicalize cu_space -> c = cu_space.
Proof. class_cases. Qed.

Lemma cu_eqb_refl (c : code_unit) : cu_eqb c c = true.
Proof. apply N.eqb_refl. Qed.

Lemma cu_eqb_neq (a b : code_unit) : cu_eqb a b = false <-> a <> b.
Proof. apply N.eqb_neq. Qed.

Lemma lit_ci_spaces (a b : nat) (P T : jsstring) (pc c : code_unit)
    (p : option code_unit) :
  is_space pc = false -> is_space c = false ->
  lit_ci (spaces a ++ pc :: P) p (spaces b ++ c :: T)
  = if a =? b
    then lit_ci (pc :: P) (if a =? 0 then p else Some cu_space) (c :: T)
    else None.
Proof.
  intros Hpc Hc. revert b p. induction a as [|a IH]; intros b p.
  - destruct b as [|b]; [reflexivity|].
    cbn [spaces repeat app Nat.eqb lit_ci].
    destruct (cu_eqb (canonicalize pc) (canonicalize cu_space)) eqn:E; [|reflexivity].
    apply cu_eqb_eq, canonicalize_space in E. subst pc. discriminate.
  - destruct b as [|b].
    + cbn [spaces repeat app Nat.eqb lit_ci].
      destruct (cu_eqb (canonicalize cu_space) (canonicalize c)) eqn:E; [|reflexivity].
      apply cu_eqb_eq in E. symmetry in E. apply canonicalize_space in E. subst c.
      discriminate.
    + rewrite !spaces_S. cbn [app lit_ci]. rewrite cu_eqb_refl, IH.
      cbn [Nat.eqb]. now destruct a.
Qed.

Lemma lit_ci_spaces_end (a b : nat) (P : jsstring) (pc : code_unit)
    (p : option code_unit) :
  is_space pc = false ->
  lit_ci (spaces a ++ pc :: P) p (spaces b) = None.
Proof.
  intros Hpc. revert b p. induction a as [|a IH]; intros b p.
  - destruct b as [|b]; [reflexivity|].
    cbn [spaces repeat app lit_ci].
    destruct (cu_eqb (canonicalize pc) (canonicalize cu_space)) eqn:E; [|reflexivity].
    apply cu_eqb_eq, canonicalize_space in E. subst pc. discriminate.
  - destruct b as [|b]; [reflexivity|].
    rewrite !spaces_S. cbn [app lit_ci]. rewrite cu_eqb_refl. apply IH.
Qed.

Lemma lit_ci_cells (kc : list cell) :
  forall (l : list cell) (p : option code_unit) (tr : nat),
  valid kc -> valid l -> kc <> [] ->
  lit_ci (flat kc 0) p (flat l tr)
  = match cmatch kc l with
    | Some rest => Some (last_char p (firstn (length kc) l), flat rest tr)
    | None => None
    end.
Proof.
  induction kc as [|[pn pc] kc IH]; intros l p tr Hk Hl Hne; [congruence|].
  apply valid_cons in Hk as [Hpc Hk]. cbn [flat cmatch].
  destruct l as [|[n c] l].
  - cbn [flat]. now apply lit_ci_spaces_end.
  - apply valid_cons in Hl as [Hc Hl]. cbn [flat].
    rewrite lit_ci_spaces by assumption. rewrite (Nat.eqb_sym n pn).
    destruct (pn =? n) eqn:En; [|reflexivity]. cbn [andb lit_ci].
    destruct (cu_eqb (canonicalize pc) (canonicalize c)); [|reflexivity].
    cbn [length firstn]. unfold last_char. cbn [fold_left snd].
    fold (last_char (Some c) (firstn (length kc) l)).
    destruct kc as [|x kc].
    + cbn [flat spaces repeat lit_ci cmatch length firstn last_char fold_left]. reflexivity.
    + apply IH; [assumption|assumption|discriminate].
Qed.

Lemma cmatch_app (kc l rest : list cell) :
  cmatch kc l = Some rest ->
  exists m, l = m ++ rest /\ length m = length kc /\ map fst m = map fst kc
            /\ map (fun x => canonicalize (snd x)) m = map (fun x => canonicalize (snd x)) kc.
Proof.
  revert l. induction kc as [|[pn pc] kc IH]; intros l H; cbn [cmatch] in H.
  - injection H as ->. now exists [].
  - destruct l as [|[n c] l]; [discriminate|].
    destruct ((n =? pn) && cu_eqb (canonicalize pc) (canonicalize c)) eqn:E; [|discriminate].
    apply andb_prop in E as [En Ec]. apply Nat.eqb_eq in En. apply cu_eqb_eq in Ec.
    destruct (IH l H) as (m & -> & Hlen & Hf & Hs).
    exists ((n, c) :: m). cbn [app length map fst snd]. rewrite Hlen, Hf, Hs, En, Ec.
    auto.
Qed.

Lemma flat_app (a b : list cell) (n : nat) (c : code_unit) (tr : nat) :
  flat (a ++ (n, c) :: b) tr = flat a n ++ c :: flat b tr.
Proof.
  induction a as [|[k d] a IH]; cbn [app flat]; [reflexivity|].
  now rewrite IH, <- app_assoc.
Qed.

Lemma flat_length_counts (a b : list cell) (tr : nat) :
  map fst a = map fst b -> length (flat a tr) = length (flat b tr).
Proof.
  revert b. induction a as [|[n c] a IH]; intros [|[n' c'] b] H; try discriminate.
  - reflexivity.
  - cbn [map fst] in H. injection H as -> H. cbn [flat].
    rewrite !length_app. cbn [length]. now rewrite (IH b H).
Qed.

Lemma kw_shaped_spec (k : jsstring) :
  kw_shaped k = true ->
  k = flat (cells_from 0 k) 0
  /\ starts_word (cells_from 0 k) = true
  /\ Forall (fun x => is_word (snd x) = true) (cells_from 0 k).
Proof.
  unfold kw_shaped. intros H. apply andb_prop in H as [H H3]. apply andb_prop in H as [H1 H2].
  apply str_eqb_eq in H1. rewrite forallb_forall in H3. repeat split; auto.
  now apply Forall_forall.
Qed.

Lemma hd_flat_is_word (l : list cell) (tr : nat) :
  is_word_opt (hd_error (flat l tr)) = starts_word l.
Proof.
  destruct l as [|[[|n] c] l]; cbn [flat starts_word spaces repeat app hd_error is_word_opt].
  - now destruct tr.
  - reflexivity.
  - reflexivity.
Qed.

Lemma last_char_is_word (m kc : list cell) (p : option code_unit) :
  map (fun x => canonicalize (snd x)) m = map (fun x => canonicalize (snd x)) kc ->
  Forall (fun x => is_word (snd x) = true) kc -> kc <> [] ->
  is_word_opt (last_char p m) = true.
Proof.
  revert kc p. induction m as [|[n c] m IH]; intros [|[pn pc] kc] p Hm Hw Hne;
    try discriminate; [congruence|].
  cbn [map snd] in Hm. injection Hm as Hc Hm. inversion Hw as [|? ? Hpc Hw']; subst.
  unfold last_char. cbn [fold_left snd]. fold (last_char (Some c) m).
  destruct kc as [|y kc].
  - destruct m; [|discriminate]. cbn. cbn in Hpc.
    now rewrite (canonicalize_is_word c pc).
  - apply (IH (y :: kc)); [assumption|assumption|discriminate].
Qed.

Lemma starts_word_nonempty (l : list cell) : starts_word l = true -> l <> [].
Proof. now destruct l. Qed.

Lemma alt_matches_cells (k : jsstring) (p : option code_unit) (c : code_unit)
    (t : list cell) (tr : nat) :
  kw_shaped k = true -> valid t -> is_space c = false ->
  alt_matches k p (c :: flat t tr) = calt_matches k c t.
Proof.
  intros Hk Ht Hc. destruct (kw_shaped_spec k Hk) as (Hflat & Hs & Hw).
  unfold alt_matches, calt_matches. rewrite Hflat at 1.
  change (c :: flat t tr) with (flat ((0, c) :: t) tr).
  rewrite lit_ci_cells.
  - destruct (cmatch (cells_from 0 k) ((0, c) :: t)) as [rest|] eqn:E; [|reflexivity].
    apply cmatch_app in E as (m & Hm & Hlen & _ & Hcan).
    unfold word_boundary. rewrite hd_flat_is_word.
    rewrite Hm, <- Hlen, firstn_app, firstn_all, Nat.sub_diag, app_nil_r.
    rewrite (last_char_is_word m (cells_from 0 k) p Hcan Hw (starts_word_nonempty _ Hs)).
    reflexivity.
  - apply cells_from_valid.
  - now apply valid_cons.
  - now apply starts_word_nonempty.
Qed.

Section CellWords.

Variable alts : list jsstring.
Hypothesis alts_shaped : forallb kw_shaped alts = true.

Lemma alts_kw_shaped (k : jsstring) : In k alts -> kw_shaped k = true.
Proof. rewrite forallb_forall in alts_shaped. apply alts_shaped. Qed.

Lemma first_alt_cells (p : option code_unit) (c : code_unit) (t : list cell) (tr : nat) :
valid t -> is_space c = false ->
match cfirst_alt alts c t with
| Some m =>
exists k rest, In k alts /\ m = length (cells_from 0 k)
/\ first_alt alts p (c :: flat t tr) = Some (length k)
/\ cmatch (cells_from 0 k) ((0, c) :: t) = Some rest
/\ starts_word rest = false
| None => first_alt alts p (c :: flat t tr) = None
end.
Proof.
intros Ht Hc. pose proof alts_kw_shaped as Hall. clear alts_shaped.
induction alts as [|k rest IH]; [reflexivity|].
cbn [cfirst_alt first_alt].
rewrite alt_matches_cells by (auto; apply Hall; now left).
destruct (calt_matches k c t) eqn:E.
- unfold calt_matches in E.
destruct (cmatch (cells_from 0 k) ((0, c) :: t)) as [r|] eqn:Em; [|discriminate].
exists k, r. repeat split; auto with datatypes. now apply negb_true_iff.
- assert (Hr : forall k', In k' rest -> kw_shaped k' = true)
by (intros k' Hk'; apply Hall; now right).
specialize (IH Hr). destruct (cfirst_alt rest c t) as [m|]; [|assumption].
destruct IH as (k' & r & Hin & Hm & Hf & Hcm & Hs).
exists k', r. repeat split; auto with datatypes.
Qed.

Lemma re_words_space (p : option code_unit) (s : jsstring) :
re_words alts p (cu_space :: s) = None.
Proof.
unfold re_words. destruct (word_boundary p (hd_error (cu_space :: s))); [|reflexivity].
pose proof alts_kw_shaped as Hall. clear alts_shaped.
induction alts as [|k rest IH]; [reflexivity|]. cbn [first_alt].
assert (E : alt_matches k p (cu_space :: s) = false).
{ destruct (kw_shaped_spec k (Hall k (or_introl eq_refl))) as (Hflat & Hs & Hw).
unfold alt_matches. rewrite Hflat.
destruct (cells_from 0 k) as [|[[|n] c] kc]; try discriminate.
cbn [flat spaces repeat app lit_ci]. cbn [starts_word] in Hs.
destruct (cu_eqb (canonicalize c) (canonicalize cu_space)) eqn:E; [|reflexivity].
apply cu_eqb_eq, canonicalize_space in E. subst c. discriminate. }
rewrite E. apply IH. intros k' Hk'. apply Hall. now right.
Qed.

End CellWords.

(** ** [split] on cells *)

Lemma split_from_skip_app (m : matcher) (a s : jsstring) (p : option code_unit) (j : nat) :
  split_from m p (a ++ s) (length a + j) = split_from m (last_cu p a) s j.
Proof.
  revert p. induction a as [|c a IH]; intros p; [reflexivity|].
  cbn [app length Nat.add split_from]. unfold last_cu. cbn [fold_left]. apply IH.
Qed.

Lemma split_from_nonempty (m : matcher) (s : jsstring) (p : option code_unit) (k : nat) :
  split_from m p s k <> [].
Proof.
  revert p k. induction s as [|c t IH]; intros p k; cbn [split_from]; [discriminate|].
  destruct k; [|apply IH].
  destruct (m p (c :: t)) as [[|j]|]; try discriminate;
    (specialize (IH (Some c) 0); now destruct (split_from m (Some c) t 0)).
Qed.

Lemma cons_group_nonempty (x : cell) (g : list (list cell)) : cons_group x g <> [].
Proof. now destruct g. Qed.

Lemma cgroups_nonempty (alts : list jsstring) (l : list cell) (p : option code_unit) (k : nat) :
  cgroups alts p l k <> [].
Proof.
  destruct l as [|[n c] t]; [discriminate|].
  destruct k as [|[|k]]; cbn [cgroups].
  - destruct (cre_words _ _ _) as [[|[|j]]|];
      try discriminate; apply cons_group_nonempty.
  - discriminate.
  - apply cons_group_nonempty.
Qed.

Lemma render_cons_group (n : nat) (c : code_unit) (g : list (list cell)) (tr : nat) :
  g <> [] ->
  render_groups true (cons_group (n, c) g) tr
  = prepend (spaces n) (cons_head c (render_groups true g tr)).
Proof.
  destruct g as [|x r]; [congruence|]. intros _.
  cbn [cons_group render_groups flat cons_head prepend]. reflexivity.
Qed.

Lemma firstn_flat_app (a b : list cell) (tr : nat) :
  firstn (length (flat a 0)) (flat (a ++ b) tr) = flat a 0.
Proof.
  induction a as [|[n c] a IH]; [reflexivity|].
  cbn [app flat]. rewrite length_app, firstn_app.
  rewrite firstn_all2 by lia.
  replace (length (spaces n) + length (c :: flat a 0) - length (spaces n))
    with (S (length (flat a 0))) by (cbn [length]; lia).
  cbn [firstn]. now rewrite IH.
Qed.

Lemma split_from_skip_cell (m : matcher) (q : option code_unit) (n : nat) (c : code_unit)
    (t g : list cell) (tr : nat) :
  split_from m q (flat ((n, c) :: t) tr) (length (flat ((n, c) :: g) 0))
  = split_from m (Some c) (flat t tr) (length (flat g 0)).
Proof.
  cbn [flat].
  replace (spaces n ++ c :: flat t tr) with ((spaces n ++ [c]) ++ flat t tr)
    by (rewrite <- app_assoc; reflexivity).
  replace (length (spaces n ++ c :: flat g 0))
    with (length (spaces n ++ [c]) + length (flat g 0))
    by (rewrite !length_app; cbn [length]; lia).
  now rewrite split_from_skip_app, last_cu_app.
Qed.

Section SplitCells.

Variable alts : list jsstring.
Hypothesis alts_shaped : forallb kw_shaped alts = true.

Lemma split_spaces (n : nat) (s : jsstring) (p : option code_unit) :
split_from (re_words alts) p (spaces n ++ s) 0
= prepend (spaces n)
(split_from (re_words alts) (if n =? 0 then p else Some cu_space) s 0).
Proof.
revert p. induction n as [|n IH]; intros p.
- cbn [spaces repeat app Nat.eqb].
pose proof (split_from_nonempty (re_words alts) s p 0).
now destruct (split_from (re_words alts) p s 0).
- rewrite spaces_S. cbn [app split_from]. rewrite (re_words_space alts alts_shaped).
rewrite IH. cbn [Nat.eqb].
replace (if n =? 0 then Some cu_space else Some cu_space) with (Some cu_space)
by now destruct n.
pose proof (split_from_nonempty (re_words alts) s (Some cu_space) 0).
now destruct (split_from (re_words alts) (Some cu_space) s 0).
Qed.

Lemma re_words_cells (q p : option code_unit) (n : nat) (c : code_unit)
(t : list cell) (tr : nat) :
valid t -> is_space c = false -> is_word_opt q = is_word_opt p ->
match cre_words alts p ((n, c) :: t) with
| Some m =>
exists k rest, In k alts /\ m = length (cells_from 0 k)
/\ re_words alts (if n =? 0 then q else Some cu_space) (c :: flat t tr)
   = Some (length k)
/\ cmatch (cells_from 0 k) ((0, c) :: t) = Some rest
/\ starts_word rest = false
| None =>
re_words alts (if n =? 0 then q else Some cu_space) (c :: flat t tr) = None
end.
Proof.
intros Ht Hc Hq. unfold cre_words, re_words.
assert (E : word_boundary (if n =? 0 then q else Some cu_space) (hd_error (c :: flat t tr))
        = xorb ((n =? 0) && is_word_opt p) (is_word c)).
{ unfold word_boundary. cbn [hd_error is_word_opt]. f_equal.
destruct n; cbn [Nat.eqb andb]; [assumption|reflexivity]. }
rewrite E. destruct (xorb ((n =? 0) && is_word_opt p) (is_word c)); [|reflexivity].
apply (first_alt_cells alts alts_shaped); assumption.
Qed.

Lemma split_cells (l : list cell) (tr : nat) :
valid l ->
(forall q p, is_word_opt q = is_word_opt p ->
 split_from (re_words alts) q (flat l tr) 0
 = render_groups true (cgroups alts p l 0) tr)
/\ (forall j q p, 1 <= j <= length l ->
  exists g, cgroups alts p l j = firstn j l :: g
    /\ split_from (re_words alts) q (flat l tr) (length (flat (firstn j l) 0))
       = render_groups true g tr).
Proof.
induction l as [|[n c] t IH]; intros Hv.
- split; [|intros j q p Hj; cbn in Hj; lia].
intros q p _. cbn [flat cgroups render_groups concat first_count].
rewrite <- (app_nil_r (spaces tr)) at 1. rewrite split_spaces.
cbn [split_from prepend]. now rewrite app_nil_r.
- apply valid_cons in Hv as [Hc Hv]. destruct (IH Hv) as [IHm IHs]. clear IH.
split.
+ intros q p Hq. cbn [flat]. rewrite split_spaces. cbn [split_from cgroups].
remember (cre_words _ _ _) as r eqn:Er.
assert (Hre : match r with
  | Some m =>
    exists k rest, In k alts /\ m = length (cells_from 0 k)
      /\ re_words alts (if n =? 0 then q else Some cu_space) (c :: flat t tr)
         = Some (length k)
      /\ cmatch (cells_from 0 k) ((0, c) :: t) = Some rest
      /\ starts_word rest = false
  | None =>
    re_words alts (if n =? 0 then q else Some cu_space) (c :: flat t tr) = None
  end) by (subst r; now apply re_words_cells).
clear Er. destruct r as [m|].
* destruct Hre as (k & rest & Hk & Hm & Hre & Hcm & _). rewrite Hre.
  apply cmatch_app in Hcm as (M & HM & Hlen & Hcnt & _).
  destruct (kw_shaped_spec k (alts_kw_shaped alts alts_shaped k Hk)) as (Hflat & Hsw & _).
  destruct M as [|[n0 c0] M'].
  { destruct (cells_from 0 k); discriminate. }
  cbn [app] in HM. injection HM as <- <- Ht.
  assert (Hlk : length k = S (length (flat M' 0))).
  { rewrite Hflat at 1.
    rewrite <- (flat_length_counts ((0, c) :: M') (cells_from 0 k) 0 Hcnt).
    reflexivity. }
  rewrite Hlk. cbn [firstn]. rewrite Ht, firstn_flat_app, <- Ht.
  assert (HM' : M' = firstn (length M') t)
    by (rewrite Ht, firstn_app, firstn_all, Nat.sub_diag, app_nil_r; reflexivity).
  cbn [length] in Hlen. rewrite Hm, <- Hlen.
  destruct (length M') as [|j] eqn:Ej.
  -- destruct M'; [|discriminate]. cbn [flat spaces repeat length].
     rewrite (IHm (Some c) (Some c) eq_refl).
     cbn [render_groups negb concat app first_count unlead flat prepend].
     now rewrite app_nil_r.
  -- destruct (IHs (S j) (Some c) (Some c)) as (g & Hg & Hsp).
     { split; [lia|]. rewrite Ht, length_app. lia. }
     rewrite Hg. rewrite <- HM' in Hsp. rewrite <- HM', Hsp.
     cbn [cons_group render_groups negb concat app first_count unlead flat prepend].
     now rewrite app_nil_r.
* rewrite Hre. rewrite (IHm (Some c) (Some c) eq_refl).
  rewrite render_cons_group by apply cgroups_nonempty. reflexivity.
+ intros j q p Hj. cbn [length] in Hj. cbn [cgroups].
destruct j as [|[|j]]; [lia| |].
* exists (cgroups alts (Some c) t 0). split; [reflexivity|].
  change (firstn 1 ((n, c) :: t)) with ((n, c) :: @nil cell).
  rewrite split_from_skip_cell. cbn [flat spaces repeat length]. now apply IHm.
* destruct (IHs (S j) (Some c) (Some c) ltac:(lia)) as (g & Hg & Hsp).
  exists g. rewrite Hg. split; [reflexivity|].
  rewrite <- Hsp.
  change (firstn (S (S j)) ((n, c) :: t)) with ((n, c) :: firstn (S j) t).
  apply split_from_skip_cell.
Qed.

End SplitCells.

(** ** The groups of a text that is spaced differently *)

Lemma respaced_weaken (p q : option code_unit) (l l' : list cell) :
  (is_word_opt q = true -> is_word_opt p = true) ->
  respaced p l l' -> respaced q l l'.
Proof.
  destruct l as [|[n c] t], l' as [|[n' c'] t']; cbn [respaced]; auto.
  intros Hq (Hc & Hn & Ht). repeat split; auto.
  destruct Hn as [Hn|Hn]; [now left|right].
  destruct (is_word_opt q) eqn:E; [|reflexivity]. now rewrite Hq in Hn.
Qed.

Lemma respaced_starts_word (p : option code_unit) (l l' : list cell) :
  is_word_opt p = true -> respaced p l l' -> starts_word l = starts_word l'.
Proof.
  intros Hp. destruct l as [|[n c] t], l' as [|[n' c'] t']; cbn [respaced]; try tauto.
  intros (Hc & Hn & _). rewrite Hp in Hn. cbn [andb] in Hn.
  cbn [starts_word]. rewrite <- (canonicalize_is_word c c' Hc).
  destruct Hn as [<-|Hn]; [reflexivity|]. rewrite Hn. now destruct n, n'.
Qed.

Lemma cmatch_respaced (kc : list cell) :
  Forall (fun x => is_word (snd x) = true) kc ->
  forall (l l' : list cell) (p : option code_unit),
  is_word_opt p = true -> respaced p l l' ->
  match cmatch kc l, cmatch kc l' with
  | Some r, Some r' =>
    exists q, is_word_opt q = true /\ respaced q r r'
  | None, None => True
  | _, _ => False
  end.
Proof.
  induction kc as [|[pn pc] kc IH]; intros Hw l l' p Hp Hr.
  - cbn [cmatch]. now exists p.
  - inversion Hw as [|? ? Hpc Hw']; subst. cbn [snd] in Hpc. cbn [cmatch].
    destruct l as [|[n c] t], l' as [|[n' c'] t']; cbn [respaced] in Hr; try tauto.
    destruct Hr as (Hc & Hn & Ht). rewrite <- Hc.
    destruct (cu_eqb (canonicalize pc) (canonicalize c)) eqn:E.
    + apply cu_eqb_eq in E.
      assert (Hwc : is_word c = true) by (rewrite <- (canonicalize_is_word pc c E); exact Hpc).
      rewrite Hp, Hwc in Hn. cbn [andb] in Hn. destruct Hn as [<-|Hn]; [|discriminate].
      rewrite !andb_true_r. destruct (n =? pn); [|exact I].
      apply (IH Hw' t t' (Some c)); assumption.
    + now rewrite !andb_false_r.
Qed.

Lemma cmatch_not_word (k : jsstring) (c : code_unit) (t : list cell) :
  kw_shaped k = true -> is_word c = false -> calt_matches k c t = false.
Proof.
  intros Hk Hc. destruct (kw_shaped_spec k Hk) as (_ & Hs & Hw).
  unfold calt_matches. destruct (cells_from 0 k) as [|[pn pc] kc]; [discriminate|].
  inversion Hw as [|? ? Hpc _]; subst. cbn [snd] in Hpc. cbn [cmatch].
  destruct (cu_eqb (canonicalize pc) (canonicalize c)) eqn:E.
  - apply cu_eqb_eq in E. rewrite (canonicalize_is_word pc c E) in Hpc. congruence.
  - now rewrite andb_false_r.
Qed.

Lemma map_length_cons_group (x : cell) (g : list (list cell)) :
  map (@length cell) (cons_group x g) = cons_len (map (@length cell) g).
Proof. now destruct g. Qed.

Section Respaced.

Variable alts : list jsstring.
Hypothesis alts_shaped : forallb kw_shaped alts = true.

Lemma calt_matches_respaced (k : jsstring) (c c' : code_unit) (t t' : list cell) :
In k alts -> canonicalize c = canonicalize c' -> respaced (Some c) t t' ->
calt_matches k c t = calt_matches k c' t'.
Proof.
intros Hk Hc Ht. pose proof (alts_kw_shaped alts alts_shaped k Hk) as Hsh.
destruct (is_word c) eqn:Hw.
- destruct (kw_shaped_spec k Hsh) as (_ & _ & Hwk).
unfold calt_matches.
pose proof (cmatch_respaced (cells_from 0 k) Hwk ((0, c) :: t) ((0, c') :: t')
              (Some c) Hw) as H.
cbn [respaced] in H. specialize (H (conj Hc (conj (or_introl eq_refl) Ht))).
destruct (cmatch (cells_from 0 k) ((0, c) :: t)) as [r|],
         (cmatch (cells_from 0 k) ((0, c') :: t')) as [r'|]; try tauto.
destruct H as (q & Hq & Hr). now rewrite (respaced_starts_word q r r' Hq Hr).
- rewrite !cmatch_not_word; auto. now rewrite <- (canonicalize_is_word c c' Hc).
Qed.

Lemma cfirst_alt_respaced (c c' : code_unit) (t t' : list cell) :
canonicalize c = canonicalize c' -> respaced (Some c) t t' ->
cfirst_alt alts c t = cfirst_alt alts c' t'.
Proof.
intros Hc Ht. pose proof calt_matches_respaced as H. clear alts_shaped.
induction alts as [|k rest IH]; [reflexivity|]. cbn [cfirst_alt].
rewrite (H k c c' t t') by (auto with datatypes).
destruct (calt_matches k c' t'); [reflexivity|].
apply IH. intros k' d d' u u' Hk'. apply H. now right.
Qed.

Lemma cfirst_alt_not_word (c : code_unit) (t : list cell) :
is_word c = false -> cfirst_alt alts c t = None.
Proof.
intros Hc. pose proof (alts_kw_shaped alts alts_shaped) as H. clear alts_shaped.
induction alts as [|k rest IH]; [reflexivity|]. cbn [cfirst_alt].
rewrite cmatch_not_word by (auto with datatypes). apply IH.
intros k' Hk'. apply H. now right.
Qed.

Lemma cre_words_respaced (p p' : option code_unit) (l l' : list cell) :
is_word_opt p = is_word_opt p' -> respaced p l l' ->
cre_words alts p l = cre_words alts p' l'.
Proof.
intros Hp. destruct l as [|[n c] t], l' as [|[n' c'] t']; cbn [respaced]; try tauto.
intros (Hc & Hn & Ht). unfold cre_words.
rewrite <- (canonicalize_is_word c c' Hc), <- Hp.
destruct (is_word c) eqn:Hw.
- rewrite andb_true_r in Hn.
assert (E : (n =? 0) && is_word_opt p = (n' =? 0) && is_word_opt p).
{ destruct Hn as [<-|Hn]; [reflexivity|]. now rewrite Hn, !andb_false_r. }
rewrite E. now rewrite (cfirst_alt_respaced c c' t t' Hc Ht).
- rewrite !cfirst_alt_not_word by (rewrite <- ?(canonicalize_is_word c c' Hc); assumption).
now destruct (xorb _ _), (xorb _ _).
Qed.

Lemma cgroups_respaced (l : list cell) :
forall (l' : list cell) (p p' : option code_unit) (k : nat),
is_word_opt p = is_word_opt p' -> respaced p l l' ->
map (@length cell) (cgroups alts p l k) = map (@length cell) (cgroups alts p' l' k).
Proof.
induction l as [|[n c] t IH]; intros l' p p' k Hp Hr.
- destruct l'; [reflexivity|contradiction].
- destruct l' as [|[n' c'] t']; [contradiction|].
pose proof (cre_words_respaced p p' _ _ Hp Hr) as Hre.
cbn [respaced] in Hr. destruct Hr as (Hc & Hn & Ht).
assert (Hw : is_word_opt (Some c) = is_word_opt (Some c'))
  by (cbn; now apply canonicalize_is_word).
assert (Ht' : forall q, respaced q t t' -> True) by auto.
cbn [cgroups]. destruct k as [|[|k]].
+ remember (cre_words _ p _) as r eqn:Er.
  remember (cre_words _ p' _) as r' eqn:Er'.
  assert (E : r = r') by (subst r r'; exact Hre). clear Er Er' Hre. subst r'.
  destruct r as [[|[|j]]|]; cbn [map length]; rewrite ?map_length_cons_group.
  * f_equal. now apply IH.
  * do 2 f_equal. now apply IH.
  * do 2 f_equal. now apply IH.
  * f_equal. now apply IH.
+ cbn [map length]. f_equal. now apply IH.
+ rewrite !map_length_cons_group. f_equal. now apply IH.
Qed.

End Respaced.

(** ** Spacing that is already normal *)

Lemma h_normalize_idem (p c : option code_unit) (n : nat) :
  h_normalize p (h_normalize p n c) c = h_normalize p n c.
Proof.
  unfold h_normalize, h_collapse, h_spaced, h_operators.
  destruct (opt_is cu_rparen p), (opt_is cu_rparen c), (opt_is cu_lparen p),
    (opt_is cu_lparen c), (opt_is cu_comma p), (opt_is cu_comma c),
    (opt_operator p), (opt_operator c); cbn [orb andb negb Nat.add];
    try reflexivity; destruct n as [|[|n]]; reflexivity.
Qed.

Lemma h_normalize_le (p c : option code_unit) (n : nat) : h_normalize p n c <= 1.
Proof. unfold h_normalize, h_collapse. apply Nat.le_min_r. Qed.

Lemma opt_is_canon (x : code_unit) (p : option code_unit) :
  is_lower_letter x = false -> is_upper_letter x = false ->
  opt_is x (opt_canon p) = opt_is x p.
Proof.
  destruct p as [c|]; [|reflexivity]. cbn [opt_canon opt_is]. intros H1 H2. class_cases.
Qed.

Lemma opt_operator_canon (p : option code_unit) :
  opt_operator (opt_canon p) = opt_operator p.
Proof. destruct p as [c|]; [|reflexivity]. cbn [opt_canon opt_operator]. class_cases. Qed.

Lemma h_normalize_canon (p c : option code_unit) (n : nat) :
  h_normalize (opt_canon p) n (opt_canon c) = h_normalize p n c.
Proof.
  unfold h_normalize, h_collapse, h_spaced, h_operators.
  now rewrite !opt_is_canon, !opt_operator_canon by reflexivity.
Qed.

Lemma h_normalize_cv (p p' c c' : option code_unit) (n : nat) :
  opt_canon p = opt_canon p' -> opt_canon c = opt_canon c' ->
  h_normalize p n c = h_normalize p' n c'.
Proof.
  intros Hp Hc. rewrite <- (h_normalize_canon p c), <- (h_normalize_canon p' c').
  now rewrite Hp, Hc.
Qed.

Lemma stable_respace (l : list cell) (p : option code_unit) :
  stable p (respace h_normalize p l).
Proof.
  revert p. induction l as [|[n c] t IH]; intros p; cbn [respace stable]; [exact I|].
  split; [apply h_normalize_idem|apply IH].
Qed.

Lemma stable_fixed (l : list cell) (p : option code_unit) :
  stable p l -> respace h_normalize p l = l.
Proof.
  revert p. induction l as [|[n c] t IH]; intros p; cbn [respace stable]; [reflexivity|].
  intros [-> H]. now rewrite IH.
Qed.

(** ** Texts that agree up to case *)

Lemma cv_refl (a : jsstring) : cv a a.
Proof. reflexivity. Qed.

Lemma cv_sym (a b : jsstring) : cv a b -> cv b a.
Proof. unfold cv. now intros ->. Qed.

Lemma cv_trans (a b c : jsstring) : cv a b -> cv b c -> cv a c.
Proof. unfold cv. now intros -> ->. Qed.

Lemma cv_app (a a' b b' : jsstring) : cv a a' -> cv b b' -> cv (a ++ b) (a' ++ b').
Proof. unfold cv. intros H1 H2. now rewrite !map_app, H1, H2. Qed.

Lemma cv_length (a b : jsstring) : cv a b -> length a = length b.
Proof.
  unfold cv. intros H. now rewrite <- (length_map canonicalize a), H, length_map.
Qed.

Lemma cv_canon (a : jsstring) : cv (map canonicalize a) a.
Proof.
  unfold cv. rewrite map_map. apply map_ext. intros c. apply canonicalize_idem.
Qed.

Lemma is_space_letter (c : code_unit) : (65 <= c <= 122)%N -> is_space c = false.
Proof.
  intros H. unfold is_space, in_range.
  replace (c <=? 13)%N with false by (symmetry; apply N.leb_gt; lia).
  replace (0x2000 <=? c)%N with false by (symmetry; apply N.leb_gt; lia).
  repeat match goal with
  | |- context [(c =? ?b)%N] =>
    replace (c =? b)%N with false by (symmetry; apply N.eqb_neq; lia)
  end.
  now rewrite andb_false_r.
Qed.

Lemma is_space_canonicalize (c : code_unit) : is_space (canonicalize c) = is_space c.
Proof.
  unfold canonicalize. destruct (is_lower_letter c) eqn:E; [|reflexivity].
  unfold is_lower_letter, in_range in E.
  apply andb_true_iff in E as [E1 E2]. apply N.leb_le in E1, E2.
  rewrite !is_space_letter by lia. reflexivity.
Qed.

Lemma upper_code_unit_canonicalize (c : code_unit) :
  upper_code_unit (canonicalize c) = upper_code_unit c.
Proof.
  unfold canonicalize. destruct (is_lower_letter c) eqn:E; [|reflexivity].
  unfold upper_code_unit. rewrite E.
  unfold is_lower_letter, in_range in *.
  apply andb_true_iff in E as [E1 E2]. apply N.leb_le in E1, E2.
  replace (97 <=? c - 32)%N with false by (symmetry; apply N.leb_gt; lia).
  cbn [andb].
  repeat match goal with
  | |- context [(c - 32 =? ?b)%N] =>
    replace (c - 32 =? b)%N with false by (symmetry; apply N.eqb_neq; lia)
  end.
  reflexivity.
Qed.

Lemma toUpperCase_canon (a : jsstring) : toUpperCase (map canonicalize a) = toUpperCase a.
Proof.
  unfold toUpperCase. induction a as [|c a IH]; [reflexivity|].
  cbn [map flat_map]. now rewrite IH, upper_code_unit_canonicalize.
Qed.

Lemma toUpperCase_cv (a b : jsstring) : cv a b -> toUpperCase a = toUpperCase b.
Proof.
  intros H. rewrite <- (toUpperCase_canon a), <- (toUpperCase_canon b). now rewrite H.
Qed.

Lemma drop_while_canon (a : jsstring) :
  map canonicalize (drop_while is_space a) = drop_while is_space (map canonicalize a).
Proof.
  induction a as [|c a IH]; [reflexivity|].
  cbn [drop_while map]. rewrite is_space_canonicalize.
  now destruct (is_space c).
Qed.

Lemma trim_canon (a : jsstring) : map canonicalize (trim a) = trim (map canonicalize a).
Proof.
  unfold trim, trimEnd, trimStart.
  now rewrite map_rev, drop_while_canon, map_rev, drop_while_canon.
Qed.

Lemma trim_cv (a b : jsstring) : cv a b -> cv (trim a) (trim b).
Proof. unfold cv. intros H. now rewrite !trim_canon, H. Qed.

Lemma truthy_cv (a b : jsstring) : cv a b -> truthy a = truthy b.
Proof. intros H. apply cv_length in H. now destruct a, b. Qed.

Lemma array_join_cv (sep : jsstring) (l l' : list jsstring) :
  Forall2 cv l l' -> cv (array_join sep l) (array_join sep l').
Proof.
  induction 1 as [|a a' l l' Ha Hl IH]; [reflexivity|].
  destruct Hl as [|b b' l l' Hb Hl]; [exact Ha|].
  change (cv (a ++ sep ++ array_join sep (b :: l)) (a' ++ sep ++ array_join sep (b' :: l'))).
  apply cv_app; [exact Ha|]. apply cv_app; [apply cv_refl|exact IH].
Qed.

(** ** The groups of a text *)

Lemma cons_group_concat (x : cell) (g : list (list cell)) :
  concat (cons_group x g) = x :: concat g.
Proof. destruct g; reflexivity. Qed.

Lemma cgroups_concat (alts : list jsstring) (l : list cell) :
  forall p k, concat (cgroups alts p l k) = l.
Proof.
  induction l as [|[n c] t IH]; intros p k; [reflexivity|].
  cbn [cgroups]. destruct k as [|[|k]].
  - destruct (cre_words _ _ _) as [[|[|m]]|];
      cbn [concat app]; rewrite ?cons_group_concat, ?IH; reflexivity.
  - cbn [concat app]. now rewrite IH.
  - now rewrite cons_group_concat, IH.
Qed.

Lemma valid_app (a b : list cell) : valid (a ++ b) <-> valid a /\ valid b.
Proof. apply Forall_app. Qed.

Lemma valid_concat (g : list (list cell)) : valid (concat g) -> Forall valid g.
Proof.
  induction g as [|x g IH]; [constructor|].
  cbn [concat]. intros [H1 H2]%valid_app. constructor; auto.
Qed.

Lemma cgroups_valid (alts : list jsstring) (l : list cell) (p : option code_unit) (k : nat) :
  valid l -> Forall valid (cgroups alts p l k).
Proof. intros H. apply valid_concat. now rewrite cgroups_concat. Qed.

Lemma trim_cstr (g : list cell) : valid g -> trim (cstr g) = cstr g.
Proof.
  intros H. unfold cstr. rewrite trim_flat by now apply unlead_valid.
  now destruct g as [|[n c] t].
Qed.

Lemma truthy_cstr (g : list cell) :
  truthy (cstr g) = match g with [] => false | _ :: _ => true end.
Proof. now destruct g as [|[n c] t]. Qed.

Lemma render_trim (g : list (list cell)) :
  Forall valid g ->
  forall text tr, map trim (render_groups text g tr) = map cstr g.
Proof.
  induction 1 as [|x g Hx Hg IH]; intros text tr; [reflexivity|].
  cbn [render_groups map]. rewrite IH. f_equal.
  destruct text; [now apply trim_flat|now apply trim_cstr].
Qed.

Lemma join_fold_items (l : list jsstring) (st : seg_state) :
  fold_left join_piece l st = fold_left join_item (map trim l) st.
Proof.
  revert st. induction l as [|p l IH]; intros st; [reflexivity|].
  cbn [fold_left map]. now rewrite IH.
Qed.

(** ** The cells of the output of the segmentation *)

Lemma unlead_setfirst (l : list cell) : unlead l = setfirst 0 l.
Proof. reflexivity. Qed.

Lemma setfirst_app (n : nat) (a b : list cell) :
  a <> [] -> setfirst n (a ++ b) = setfirst n a ++ b.
Proof. destruct a as [|[m c] a]; [congruence|reflexivity]. Qed.

Lemma setfirst_setfirst (n m : nat) (l : list cell) :
  setfirst n (setfirst m l) = setfirst n l.
Proof. now destruct l as [|[k c] l]. Qed.

Lemma setfirst_nil (n : nat) (l : list cell) : setfirst n l = [] <-> l = [].
Proof. destruct l as [|[k c] l]; cbn [setfirst]; split; intros H; congruence. Qed.

Lemma cells_from_app (a b : jsstring) (sp : nat) :
  cells_from sp (a ++ b) = cells_from sp a ++ cells_from (trail_from sp a) b.
Proof.
  revert sp. induction a as [|c a IH]; intros sp; [reflexivity|].
  cbn [app cells_from trail_from]. destruct (is_space c); [apply IH|].
  cbn [app]. now rewrite IH.
Qed.

Lemma cells_from_one (s : jsstring) : cells_from 1 s = setfirst 1 (cells_from 0 s).
Proof.
  destruct s as [|c s]; [reflexivity|]. cbn [cells_from].
  destruct (is_space c); [|reflexivity].
  induction s as [|d s IH]; [reflexivity|]. cbn [cells_from].
  destruct (is_space d); [exact IH|reflexivity].
Qed.

Lemma cells_from_blank (s : jsstring) (sp : nat) :
  forallb is_space s = true -> cells_from sp s = [].
Proof.
  revert sp. induction s as [|c s IH]; intros sp; [reflexivity|].
  cbn [forallb cells_from]. intros [-> H]%andb_true_iff. now apply IH.
Qed.

Lemma drop_while_split (s : jsstring) :
  exists ws, s = ws ++ drop_while is_space s /\ forallb is_space ws = true.
Proof.
  induction s as [|c s (ws & IH1 & IH2)]; [now exists []|].
  cbn [drop_while]. destruct (is_space c) eqn:E.
  - exists (c :: ws). cbn [app forallb]. rewrite E, IH2. now rewrite <- IH1.
  - now exists [].
Qed.

Lemma cells_from_trimStart (s : jsstring) (sp sp' : nat) :
  cells_from sp (trimStart s) = setfirst sp (cells_from sp' s).
Proof.
  unfold trimStart. revert sp'. induction s as [|c s IH]; intros sp'; [reflexivity|].
  cbn [drop_while cells_from]. destruct (is_space c) eqn:E; [apply IH|].
  cbn [cells_from]. now rewrite E.
Qed.

Lemma cells_from_trimEnd (s : jsstring) (sp : nat) :
  cells_from sp (trimEnd s) = cells_from sp s.
Proof.
  unfold trimEnd. destruct (drop_while_split (rev s)) as (ws & H1 & H2).
  rewrite <- (rev_involutive s) at 2. rewrite H1 at 2.
  rewrite rev_app_distr, cells_from_app.
  rewrite (cells_from_blank (rev ws)); [now rewrite app_nil_r|].
  now rewrite forallb_rev.
Qed.

Lemma cells_from_trim (s : jsstring) (sp : nat) :
  cells_from sp (trim s) = setfirst sp (cells_from 0 s).
Proof. unfold trim. rewrite cells_from_trimEnd. apply cells_from_trimStart. Qed.

Lemma array_join_snoc (sep : jsstring) (l : list jsstring) (x : jsstring) :
  array_join sep (l ++ [x])
  = match l with [] => x | _ :: _ => array_join sep l ++ sep ++ x end.
Proof.
  induction l as [|a l IH]; [reflexivity|].
  destruct l as [|b l]; [reflexivity|].
  change (a ++ sep ++ array_join sep ((b :: l) ++ [x])
          = (a ++ sep ++ array_join sep (b :: l)) ++ sep ++ x).
  rewrite IH. now rewrite <- !app_assoc.
Qed.

Lemma cells_join_snoc (l : list jsstring) (x : jsstring) :
  cells_from 0 (array_join [cu_newline] (l ++ [x]))
  = cells_from 0 (array_join [cu_newline] l)
    ++ cells_from (match l with [] => 0 | _ :: _ => 1 end) x.
Proof.
  rewrite array_join_snoc. destruct l as [|a l]; [reflexivity|].
  rewrite cells_from_app. reflexivity.
Qed.

Lemma push_current_cells (st : seg_state) :
  cells_from 0 (array_join [cu_newline] (push_current st)) = state_cells st.
Proof.
  destruct st as [res cur]. unfold push_current, state_cells. cbn [fst snd].
  destruct cur as [|c cur]; cbn [truthy].
  - cbn [cells_from setfirst]. now rewrite app_nil_r.
  - rewrite cells_join_snoc, cells_from_trim. reflexivity.
Qed.

Lemma cells_nil_blank (s : jsstring) (sp : nat) :
  cells_from sp s = [] -> forallb is_space s = true.
Proof.
  revert sp. induction s as [|c s IH]; intros sp; [reflexivity|].
  cbn [cells_from forallb]. destruct (is_space c); [apply IH|discriminate].
Qed.

Lemma truthy_trim_cells (s : jsstring) :
  truthy (trim s) = true -> cells_from 0 s <> [].
Proof.
  intros H E. apply cells_nil_blank in E.
  unfold trim, trimStart in H. rewrite (drop_while_all _ _ E) in H. discriminate.
Qed.

Lemma cells_truthy_trim (s : jsstring) :
  cells_from 0 s <> [] -> truthy (trim s) = true.
Proof.
  intros H. destruct (trim s) eqn:E; [|reflexivity].
  exfalso. apply H. apply (setfirst_nil 0). rewrite <- cells_from_trim. now rewrite E.
Qed.

Lemma unlead_app (a b : list cell) : a <> [] -> unlead (a ++ b) = unlead a ++ b.
Proof. apply setfirst_app. Qed.

Lemma seg_inv_start (st : seg_state) (acc : list cell) (q : jsstring) :
  seg_inv st acc -> cells_from 0 q <> [] ->
  seg_inv (push_current st, q) (acc ++ setfirst 1 (cells_from 0 q)).
Proof.
  intros (H1 & H2 & H3 & H4) Hq.
  assert (Hq1 : setfirst 1 (cells_from 0 q) <> []) by now rewrite setfirst_nil.
  assert (Hq' : q <> []) by (intros ->; now apply Hq).
  split; [|split; [|split]]; cbn [fst snd].
  - unfold state_cells. cbn [fst snd]. rewrite push_current_cells, H1.
    destruct st as [res cur]. cbn [fst snd] in *. destruct cur as [|c cur].
    + destruct (H2 eq_refl) as [-> ->]. cbn [push_current truthy app].
      symmetry. apply (setfirst_setfirst 0 1).
    + destruct (H3 ltac:(discriminate)) as [_ Hacc].
      rewrite unlead_app by assumption. f_equal.
      cbn [push_current truthy]. now destruct res.
  - intros ->. now contradiction Hq'.
  - intros _. split; [assumption|]. intros [_ E]%app_eq_nil. now apply Hq1.
  - destruct st as [res cur]. cbn [fst snd push_current] in *.
    destruct cur as [|c cur]; cbn [truthy]; [assumption|].
    apply Forall_app. split; [assumption|]. constructor; [|constructor].
    apply cells_truthy_trim. apply H3. discriminate.
Qed.

Lemma seg_inv_append (st : seg_state) (acc : list cell) (j : jsstring) :
  seg_inv st acc -> cells_from 0 j <> [] ->
  seg_inv (fst st, snd st ++ js " " ++ j) (acc ++ setfirst 1 (cells_from 0 j)).
Proof.
  intros (H1 & H2 & H3 & H4) Hj.
  assert (Hj1 : setfirst 1 (cells_from 0 j) <> []) by now rewrite setfirst_nil.
  assert (Hc : cells_from 0 (snd st ++ js " " ++ j)
               = cells_from 0 (snd st) ++ setfirst 1 (cells_from 0 j)).
  { rewrite cells_from_app. f_equal.
    change (js " " ++ j) with (cu_space :: j). cbn [cells_from].
    change (is_space cu_space) with true. cbn iota. apply cells_from_one. }
  split; [|split; [|split]]; cbn [fst snd].
  - unfold state_cells in *. cbn [fst snd]. rewrite Hc.
    destruct st as [res cur]. cbn [fst snd] in *. destruct cur as [|c cur].
    + destruct (H2 eq_refl) as [-> ->]. cbn [cells_from array_join app].
      reflexivity.
    + destruct (H3 ltac:(discriminate)) as [Hcur Hacc].
      rewrite setfirst_app by assumption. rewrite app_assoc, H1.
      now rewrite unlead_app.
  - intros [_ E]%app_eq_nil. discriminate.
  - intros _. rewrite Hc. split; intros [_ E]%app_eq_nil; now apply Hj1.
  - assumption.
Qed.

Lemma seg_inv_item (st : seg_state) (acc : list cell) (j : jsstring) :
  seg_inv st acc -> (truthy j = true -> cells_from 0 j <> []) ->
  seg_inv (join_item st j) (acc ++ setfirst 1 (cells_from 0 j)).
Proof.
  intros H Hj. unfold join_item. destruct (truthy j) eqn:E; cbn [negb].
  - destruct (endsWith _ _); [apply seg_inv_start|apply seg_inv_append]; auto.
  - destruct j; [|discriminate]. cbn [cells_from setfirst]. now rewrite app_nil_r.
Qed.

Lemma seg_inv_items (l : list jsstring) :
  forall st acc, seg_inv st acc ->
  seg_inv (fold_left join_item (map trim l) st)
          (acc ++ concat (map (fun p => setfirst 1 (cells_from 0 (trim p))) l)).
Proof.
  induction l as [|p l IH]; intros st acc H.
  - cbn [map fold_left concat]. now rewrite app_nil_r.
  - cbn [map fold_left concat]. rewrite app_assoc. apply IH.
    apply seg_inv_item; [assumption|]. intros Hp.
    rewrite cells_from_trim, setfirst_nil. now apply truthy_trim_cells.
Qed.

Lemma seg_inv_piece (st : seg_state) (acc : list cell) (part : jsstring) :
  seg_inv st acc -> seg_inv (main_piece st part) (acc ++ piece_cells part).
Proof.
  intros H. unfold main_piece, piece_cells.
  destruct (truthy (trim part)) eqn:E; cbn [negb].
  - destruct (array_includes _ _).
    + apply seg_inv_start; [assumption|now apply truthy_trim_cells].
    + rewrite join_fold_items. now apply seg_inv_items.
  - now rewrite app_nil_r.
Qed.

Lemma seg_inv_pieces (l : list jsstring) :
  forall st acc, seg_inv st acc ->
  seg_inv (fold_left main_piece l st) (acc ++ concat (map piece_cells l)).
Proof.
  induction l as [|p l IH]; intros st acc H.
  - cbn [map fold_left concat]. now rewrite app_nil_r.
  - cbn [map fold_left concat]. rewrite app_assoc. apply IH. now apply seg_inv_piece.
Qed.

Lemma seg_inv_init : seg_inv ([], []) [].
Proof.
  split; [reflexivity|]. split; [now intros _|]. split; [now intros []|constructor].
Qed.

Lemma push_current_truthy (st : seg_state) (acc : list cell) :
  seg_inv st acc -> Forall (fun c => truthy c = true) (push_current st).
Proof.
  intros (_ & _ & H3 & H4). destruct st as [res cur]. cbn [fst snd push_current] in *.
  destruct cur as [|c cur]; cbn [truthy]; [assumption|].
  apply Forall_app. split; [assumption|]. constructor; [|constructor].
  apply cells_truthy_trim. apply H3. discriminate.
Qed.

(** The cells of the joined clauses are the cells of the pieces, each piece
    coming after one separator. *)
Lemma clauses_cells (s : jsstring) :
  cells_from 0 (array_join [cu_newline] (clauses_of s))
  = unlead (concat (map piece_cells (split majorRegex s)))
  /\ Forall (fun c => truthy c = true) (clauses_of s).
Proof.
  unfold clauses_of.
  pose proof (seg_inv_pieces (split majorRegex s) _ _ seg_inv_init) as H.
  cbn [app] in H. split.
  - rewrite push_current_cells. apply H.
  - now apply (push_current_truthy _ _ H).
Qed.

(** * Further properties *)

(** ** The parser and the printer *)

(** X1. Printing with the declared [defaultOptions] as sqlFormatter gives,
    for every node, what printing without any sqlFormatter gives: the
    declared defaults are the behaviour of the absent options. *)
Theorem print_defaultOptions_absent (path : AstPath) :
  print path {| sqlFormatter := Some defaultOptions |}
  = print path {| sqlFormatter := None |}.
Proof.
  unfold print. cbn [sqlFormatter].
  unfold formatSqlString, normalize, space_commas, comma_text, keyword_case,
    assemble, recase_on.
  reflexivity.
Qed.

(** X2. Parsing a text and printing the node formats the text that was
    parsed, under the options found in sqlFormatter and under the empty
    options when there are none; the options given to the parser play no
    part.  So the helper [formatSQL] of the test suite is the formatter. *)
Theorem print_parse (text : jsstring) (parserOptions : SqlFormatterOptions)
    (options : PrinterOptions) :
  print (createMockPath (parse text parserOptions)) options
  = match sqlFormatter options with
    | Some o => formatSqlString text o
    | None => formatSqlString text no_options
    end
  /\ formatSQL text parserOptions = formatSqlString text parserOptions.
Proof.
  split; [|reflexivity].
  unfold print. cbn [createMockPath getValue parse value].
  now destruct (sqlFormatter options).
Qed.

(** ** The normalization stage for any options *)

Lemma h_stage_lparen (o : SqlFormatterOptions) (p : option code_unit) (n : nat) :
  is_word_opt p = true -> h_stage o p n (Some cu_lparen) = 0.
Proof.
  intros Hp. unfold h_stage, h_collapse, h_spaced.
  assert (E : opt_is cu_rparen p = false).
  { destruct p as [c|]; [|reflexivity]. cbn in *. clear n. class_cases. }
  rewrite E. cbn. now destruct (opt_is cu_lparen p).
Qed.

Lemma call_ok_stage (o : SqlFormatterOptions) (l : list cell) (p : option code_unit) :
  call_ok p (respace (h_stage o) p l).
Proof.
  revert p. induction l as [|[n c] l IH]; intros p; cbn [respace call_ok]; [exact I|].
  split; [|apply IH]. intros -> Hp. now apply h_stage_lparen.
Qed.

Lemma comma_text_spaces (o : SqlFormatterOptions) :
  comma_text o = spaces (comma_lead o) ++ cu_comma :: spaces 1.
Proof. unfold comma_text, comma_lead. now destruct (option_is _ _). Qed.

Lemma normalize_stage_cells (o : SqlFormatterOptions) (sql : jsstring) :
  normalize o sql
  = flat (respace (h_stage o) None (unlead (cells_from 0 sql)))
         (respace_trail (h_stage o) None (unlead (cells_from 0 sql)) 0).
Proof.
  unfold normalize. rewrite normalize_whitespace_cells.
  set (l0 := unlead (cells_from 0 sql)).
  assert (Hv0 : valid l0) by apply unlead_valid, cells_from_valid.
  rewrite (operators_rule l0 0 Hv0).
  set (l1 := respace h_operators None l0).
  assert (Hv1 : valid l1) by now apply respace_valid.
  unfold space_commas. rewrite comma_text_spaces.
  rewrite (spaced_rule cu_comma (comma_lead o) 1 eq_refl l1 _ Hv1).
  set (l2 := respace (h_spaced cu_comma (comma_lead o) 1) None l1).
  assert (Hv2 : valid l2) by now apply respace_valid.
  unfold open_parens.
  change (fun _ : jsstring => js "(")
    with (fun _ : jsstring => spaces 0 ++ cu_lparen :: spaces 0).
  rewrite (spaced_rule cu_lparen 0 0 eq_refl l2 _ Hv2).
  set (l3 := respace (h_spaced cu_lparen 0 0) None l2).
  assert (Hv3 : valid l3) by now apply respace_valid.
  unfold close_parens.
  change (fun _ : jsstring => js ") ")
    with (fun _ : jsstring => spaces 0 ++ cu_rparen :: spaces 1).
  rewrite (spaced_rule cu_rparen 0 1 eq_refl l3 _ Hv3).
  set (l4 := respace (h_spaced cu_rparen 0 1) None l3).
  assert (Hv4 : valid l4) by now apply respace_valid.
  rewrite (collapse_rule l4 _ Hv4).
  assert (El : respace h_collapse None l4 = respace (h_stage o) None l0).
  { subst l4 l3 l2 l1. now rewrite !respace_respace. }
  assert (Et : respace_trail h_collapse None l4
                 (respace_trail (h_spaced cu_rparen 0 1) None l3
                    (respace_trail (h_spaced cu_lparen 0 0) None l2
                       (respace_trail (h_spaced cu_comma (comma_lead o) 1) None l1
                          (respace_trail h_operators None l0 0))))
               = respace_trail (h_stage o) None l0 0).
  { unfold respace_trail. subst l4 l3 l2 l1. now rewrite !last_char_respace. }
  rewrite El, Et. apply call_rule.
  - now apply respace_valid.
  - apply call_ok_stage.
Qed.

Lemma h_stage_le (o : SqlFormatterOptions) (p c : option code_unit) (n : nat) :
  h_stage o p n c <= 1.
Proof. unfold h_stage, h_collapse. apply Nat.le_min_r. Qed.

Lemma h_stage_idem (o : SqlFormatterOptions) (p c : option code_unit) (n : nat) :
  h_stage o p (h_stage o p n c) c = h_stage o p n c.
Proof.
  unfold h_stage, h_collapse, h_spaced, h_operators, comma_lead.
  destruct (option_is (commaPosition o) "before");
  destruct (opt_is cu_rparen p), (opt_is cu_rparen c), (opt_is cu_lparen p),
    (opt_is cu_lparen c), (opt_is cu_comma p), (opt_is cu_comma c),
    (opt_operator p), (opt_operator c); cbn [orb andb negb Nat.add];
    try reflexivity; destruct n as [|[|n]]; reflexivity.
Qed.

Lemma small_respace_stage (o : SqlFormatterOptions) (l : list cell) (p : option code_unit) :
  small (respace (h_stage o) p l).
Proof.
  revert p. induction l as [|[n c] l IH]; intros p; cbn [respace]; constructor.
  - apply h_stage_le.
  - apply IH.
Qed.

Lemma single_spaced_flat (l : list cell) (tr : nat) :
  valid l -> small l -> tr <= 1 -> single_spaced (flat l tr) = true.
Proof.
  intros Hv Hs Ht. induction l as [|[n c] l IH].
  - cbn [flat]. destruct tr as [|[|tr]]; [reflexivity|reflexivity|lia].
  - apply valid_cons in Hv as [Hc Hv]. inversion Hs as [|x y Hn Hs']; subst.
    cbn [fst] in Hn. specialize (IH Hv Hs').
    assert (Hc' : single_spaced (c :: flat l tr) = true).
    { cbn [single_spaced]. now rewrite Hc, IH. }
    cbn [flat]. destruct n as [|[|n]]; [exact Hc'| |lia].
    cbn [spaces repeat app].
    change (single_spaced (cu_space :: c :: flat l tr))
      with ((negb (is_space cu_space)
             || (cu_eqb cu_space cu_space && negb (is_space c)))
            && single_spaced (c :: flat l tr)).
    now rewrite Hc', Hc.
Qed.

(** X3. After the normalization stage, whatever the options, every
    white-space code unit of the text is a plain space and no two of them
    are adjacent: tabs and line breaks are gone and runs of spaces have
    length one. *)
Theorem normalize_single_spaced (o : SqlFormatterOptions) (sql : jsstring) :
  single_spaced (normalize o sql) = true.
Proof.
  rewrite normalize_stage_cells. apply single_spaced_flat.
  - apply respace_valid, unlead_valid, cells_from_valid.
  - apply small_respace_stage.
  - apply h_stage_le.
Qed.

Lemma respace_collapse_small (l : list cell) (p : option code_unit) :
  small l -> respace h_collapse p l = l.
Proof.
  revert p. induction l as [|[n c] l IH]; intros p Hs; [reflexivity|].
  inversion Hs as [|x y Hn Hs']; subst. cbn [fst] in Hn.
  cbn [respace]. rewrite IH by assumption. unfold h_collapse.
  now rewrite Nat.min_l.
Qed.

Lemma respace_stage_idem (o : SqlFormatterOptions) (l : list cell) (p : option code_unit) :
  respace (h_stage o) p (respace (h_stage o) p l) = respace (h_stage o) p l.
Proof.
  revert p. induction l as [|[n c] l IH]; intros p; [reflexivity|].
  cbn [respace]. now rewrite IH, h_stage_idem.
Qed.

Lemma last_char_unlead (l : list cell) (p : option code_unit) :
  last_char p (unlead l) = last_char p l.
Proof. now destruct l as [|[n c] l]. Qed.

Lemma unlead_unlead (l : list cell) : unlead (unlead l) = unlead l.
Proof. now destruct l as [|[n c] l]. Qed.

Lemma respace_stage_unlead (o : SqlFormatterOptions) (l : list cell) :
  respace (h_stage o) None (unlead (respace (h_stage o) None (unlead l)))
  = respace (h_stage o) None (unlead l).
Proof.
  destruct l as [|[n c] l]; [reflexivity|].
  cbn [unlead respace]. now rewrite respace_stage_idem.
Qed.

(** X4. The normalization stage is idempotent, whatever the options:
    normalizing a text that is already normalized changes nothing. *)
Theorem normalize_idempotent (o : SqlFormatterOptions) (sql : jsstring) :
  normalize o (normalize o sql) = normalize o sql.
Proof.
  rewrite (normalize_stage_cells o (normalize o sql)).
  rewrite (normalize_stage_cells o sql).
  set (l0 := unlead (cells_from 0 sql)).
  assert (Hv : valid (respace (h_stage o) None l0))
    by apply respace_valid, unlead_valid, cells_from_valid.
  destruct (cells_from_flat _ (respace_trail (h_stage o) None l0 0) Hv) as [-> _].
  rewrite respace_collapse_small by apply small_respace_stage.
  unfold respace_trail at 1. rewrite last_char_unlead, last_char_respace.
  subst l0. now rewrite respace_stage_unlead.
Qed.

(** ** What the stages keep *)

Lemma content_app (a b : jsstring) : content (a ++ b) = content a ++ content b.
Proof. apply filter_app. Qed.

Lemma content_cells (s : jsstring) (sp : nat) : map snd (cells_from sp s) = content s.
Proof.
  revert sp. induction s as [|c s IH]; intros sp; [reflexivity|].
  cbn [cells_from content filter]. destruct (is_space c); cbn [negb map snd].
  - apply IH.
  - f_equal. apply IH.
Qed.

Lemma map_snd_respace (h : spacing) (l : list cell) (p : option code_unit) :
  map snd (respace h p l) = map snd l.
Proof.
  revert p. induction l as [|[n c] l IH]; intros p; [reflexivity|].
  cbn [respace map snd]. now rewrite IH.
Qed.

Lemma map_snd_unlead (l : list cell) : map snd (unlead l) = map snd l.
Proof. now destruct l as [|[n c] l]. Qed.

Lemma content_spaces (n : nat) : content (spaces n) = [].
Proof. induction n as [|n IH]; [reflexivity|exact IH]. Qed.

Lemma content_flat (l : list cell) (tr : nat) : valid l -> content (flat l tr) = map snd l.
Proof.
  induction l as [|[n c] l IH]; intros Hv.
  - apply content_spaces.
  - apply valid_cons in Hv as [Hc Hv]. cbn [flat map snd].
    rewrite content_app, content_spaces. cbn [app content filter].
    rewrite Hc. cbn [negb]. f_equal. now apply IH.
Qed.

Lemma content_canon (s : jsstring) :
  map canonicalize (content s) = content (map canonicalize s).
Proof.
  induction s as [|c s IH]; [reflexivity|].
  cbn [content filter map]. rewrite is_space_canonicalize.
  destruct (is_space c); cbn [negb map]; [exact IH|]. f_equal. exact IH.
Qed.

Lemma content_cv (a b : jsstring) : cv a b -> cv (content a) (content b).
Proof. unfold cv. intros H. now rewrite !content_canon, H. Qed.

Lemma normalize_content_eq (o : SqlFormatterOptions) (sql : jsstring) :
  content (normalize o sql) = content sql.
Proof.
  rewrite normalize_stage_cells.
  rewrite content_flat by apply respace_valid, unlead_valid, cells_from_valid.
  now rewrite map_snd_respace, map_snd_unlead, content_cells.
Qed.

(** X5. The normalization stage only changes white space: the code units
    that are not white space are, in the same order, those of its input,
    whatever the options. *)
Theorem normalize_content (o : SqlFormatterOptions) (sql : jsstring) :
  content (normalize o sql) = content sql.
Proof. apply normalize_content_eq. Qed.

Lemma recase_cv (g : code_unit -> code_unit) (mask : list bool) (s : jsstring) :
  (forall c, canonicalize (g (canonicalize c)) = canonicalize c) ->
  length mask = length s -> cv (recase g mask s) s.
Proof.
  intros Hg. unfold cv. revert mask.
  induction s as [|c s IH]; intros [|b mask] H; try discriminate; [reflexivity|].
  cbn [recase map]. rewrite IH by now injection H.
  f_equal. destruct b; [apply Hg|reflexivity].
Qed.

Lemma recase_recase (g : code_unit -> code_unit) (mask : list bool) (s : jsstring) :
  (forall c, g (canonicalize (g (canonicalize c))) = g (canonicalize c)) ->
  recase g mask (recase g mask s) = recase g mask s.
Proof.
  intros Hg. revert mask.
  induction s as [|c s IH]; intros [|b mask]; try reflexivity.
  cbn [recase]. rewrite IH. f_equal. destruct b; [apply Hg|reflexivity].
Qed.

Lemma lit_ci_cv (k : jsstring) :
  forall (p p' : option code_unit) (s s' : jsstring),
  cv s s' -> is_word_opt p = is_word_opt p' ->
  match lit_ci k p s, lit_ci k p' s' with
  | Some (l, r), Some (l', r') => cv r r' /\ is_word_opt l = is_word_opt l'
  | None, None => True
  | _, _ => False
  end.
Proof.
  induction k as [|x k IH]; intros p p' s s' Hs Hp.
  - cbn [lit_ci]. now split.
  - cbn [lit_ci]. destruct s as [|c s], s' as [|c' s']; try discriminate; [exact I|].
    unfold cv in Hs. cbn [map] in Hs. injection Hs as Hc Hs. rewrite Hc.
    destruct (cu_eqb (canonicalize x) (canonicalize c')); [|exact I].
    apply IH; [exact Hs|]. cbn [is_word_opt]. now apply canonicalize_is_word.
Qed.

Lemma hd_error_cv (r r' : jsstring) :
  cv r r' -> is_word_opt (hd_error r) = is_word_opt (hd_error r').
Proof.
  destruct r as [|c r], r' as [|c' r']; try discriminate; [reflexivity|].
  unfold cv. cbn [map]. intros H. injection H as Hc _.
  cbn [hd_error is_word_opt]. now apply canonicalize_is_word.
Qed.

Lemma alt_matches_cv (k : jsstring) (p p' : option code_unit) (s s' : jsstring) :
  cv s s' -> is_word_opt p = is_word_opt p' ->
  alt_matches k p s = alt_matches k p' s'.
Proof.
  intros Hs Hp. unfold alt_matches. pose proof (lit_ci_cv k p p' s s' Hs Hp) as H.
  destruct (lit_ci k p s) as [[l r]|], (lit_ci k p' s') as [[l' r']|];
    try contradiction; [|reflexivity].
  destruct H as [Hr Hl]. unfold word_boundary. now rewrite Hl, (hd_error_cv r r').
Qed.

Lemma re_words_cv (alts : list jsstring) (p p' : option code_unit) (s s' : jsstring) :
  cv s s' -> is_word_opt p = is_word_opt p' ->
  re_words alts p s = re_words alts p' s'.
Proof.
  intros Hs Hp. unfold re_words, word_boundary.
  rewrite Hp, (hd_error_cv s s' Hs).
  destruct (xorb _ _); [|reflexivity].
  induction alts as [|k alts IH]; [reflexivity|].
  cbn [first_alt]. rewrite (alt_matches_cv k p p' s s' Hs Hp), IH. reflexivity.
Qed.

Lemma cover_cv (alts : list jsstring) (s : jsstring) :
  forall (s' : jsstring) (p p' : option code_unit) (k : nat),
  cv s s' -> is_word_opt p = is_word_opt p' ->
  cover (re_words alts) p s k = cover (re_words alts) p' s' k.
Proof.
  induction s as [|c s IH]; intros [|c' s'] p p' k Hs Hp; try discriminate; [reflexivity|].
  assert (Hcs := Hs). unfold cv in Hs. cbn [map] in Hs. injection Hs as Hc Hs.
  assert (Hw : is_word_opt (Some c) = is_word_opt (Some c'))
    by (cbn [is_word_opt]; now apply canonicalize_is_word).
  cbn [cover]. destruct k as [|k].
  - rewrite (re_words_cv alts p p' (c :: s) (c' :: s') Hcs Hp).
    destruct (re_words alts p' (c' :: s')) as [[|n]|]; f_equal; now apply IH.
  - f_equal. now apply IH.
Qed.

(** ** The keyword stage *)

Lemma keyword_upper_cover (s : jsstring) :
  replace keywordRegex toUpperCase s
  = recase (fun c => c) (cover keywordRegex None s 0) s.
Proof.
  apply (replace_recase _ _ (fun c => c) (re_words_bounded keywords)
           (re_words_recase keywords _ _ keyword_upper_recase)).
Qed.

Lemma keyword_lower_cover (s : jsstring) :
  replace keywordRegex toLowerCase s
  = recase ascii_lower (cover keywordRegex None s 0) s.
Proof.
  apply (replace_recase _ _ ascii_lower (re_words_bounded keywords)
           (re_words_recase keywords _ _ keyword_lower_recase)).
Qed.

Lemma canonicalize_lower (c : code_unit) :
  canonicalize (ascii_lower (canonicalize c)) = canonicalize c.
Proof. class_cases. Qed.

Lemma lower_canonicalize_lower (c : code_unit) :
  ascii_lower (canonicalize (ascii_lower (canonicalize c))) = ascii_lower (canonicalize c).
Proof. now rewrite canonicalize_lower. Qed.

Lemma keyword_case_only_case_cv (o : SqlFormatterOptions) (s : jsstring) :
  cv (keyword_case o s) s.
Proof.
  unfold keyword_case.
  destruct (option_is (keywordCase o) "upper" || option_falsy (keywordCase o)).
  - rewrite keyword_upper_cover. apply recase_cv.
    + intros c. apply canonicalize_idem.
    + apply cover_length.
  - destruct (option_is (keywordCase o) "lower"); [|apply cv_refl].
    rewrite keyword_lower_cover. apply recase_cv.
    + apply canonicalize_lower.
    + apply cover_length.
Qed.

(** X6. The keyword stage only changes the case of ASCII letters, whatever
    the options: up to case, its result is its input code unit by code
    unit, so nothing is added, removed or moved. *)
Theorem keyword_case_only_case (o : SqlFormatterOptions) (s : jsstring) :
  map canonicalize (keyword_case o s) = map canonicalize s.
Proof. apply keyword_case_only_case_cv. Qed.

Lemma recase_words_idem (alts : list jsstring) (g : code_unit -> code_unit) (s : jsstring) :
  (forall c, canonicalize (g (canonicalize c)) = canonicalize c) ->
  (forall c, g (canonicalize (g (canonicalize c))) = g (canonicalize c)) ->
  recase g (cover (re_words alts) None (recase g (cover (re_words alts) None s 0) s) 0)
    (recase g (cover (re_words alts) None s 0) s)
  = recase g (cover (re_words alts) None s 0) s.
Proof.
  intros H1 H2.
  rewrite (cover_cv alts _ s None None 0); [now apply recase_recase| |reflexivity].
  apply recase_cv; [exact H1|apply cover_length].
Qed.

(** X7. The keyword stage is idempotent, whatever the options: applied to
    its own result it changes nothing. *)
Theorem keyword_case_idempotent (o : SqlFormatterOptions) (s : jsstring) :
  keyword_case o (keyword_case o s) = keyword_case o s.
Proof.
  unfold keyword_case.
  destruct (option_is (keywordCase o) "upper" || option_falsy (keywordCase o)).
  - rewrite !keyword_upper_cover. apply recase_words_idem.
    + intros c. apply canonicalize_idem.
    + intros c. apply canonicalize_idem.
  - destruct (option_is (keywordCase o) "lower"); [|reflexivity].
    rewrite !keyword_lower_cover. apply recase_words_idem.
    + apply canonicalize_lower.
    + apply lower_canonicalize_lower.
Qed.

(** ** The final pass *)

Lemma recase_on_cover (o : SqlFormatterOptions) (clause : jsstring) :
  recase_on o clause
  = if includes (toUpperCase clause) (js "JOIN")
    then recase (on_letter o) (cover onRegex None clause 0) clause
    else clause.
Proof.
  change (recase_on o clause)
    with (if includes (toUpperCase clause) (js "JOIN")
          then replace (re_words [js "ON"]) (fun _ => on_keyword o) clause
          else clause).
  destruct (includes _ _); [|reflexivity].
  apply (replace_recase _ _ _ (re_words_bounded [js "ON"])
           (re_words_recase [js "ON"] _ _ (on_recase o))).
Qed.

Lemma on_letter_canon (o : SqlFormatterOptions) (c : code_unit) :
  canonicalize (on_letter o (canonicalize c)) = canonicalize c.
Proof.
  unfold on_letter. destruct (option_is _ _);
    [apply canonicalize_lower|apply canonicalize_idem].
Qed.

Lemma on_letter_idem (o : SqlFormatterOptions) (c : code_unit) :
  on_letter o (canonicalize (on_letter o (canonicalize c))) = on_letter o (canonicalize c).
Proof. now rewrite on_letter_canon. Qed.

Lemma recase_on_cv (o : SqlFormatterOptions) (clause : jsstring) :
  cv (recase_on o clause) clause.
Proof.
  rewrite recase_on_cover. destruct (includes _ _); [|apply cv_refl].
  apply recase_cv; [apply on_letter_canon|apply cover_length].
Qed.

(** X8. The final pass over a clause only changes the case of ASCII
    letters, whatever the options and whether the clause has a JOIN or
    not: up to case, the clause it returns is the clause it was given. *)
Theorem recase_on_only_case (o : SqlFormatterOptions) (clause : jsstring) :
  map canonicalize (recase_on o clause) = map canonicalize clause.
Proof. apply recase_on_cv. Qed.

(** X9. The final pass is idempotent: a clause it has written is returned
    unchanged when it goes through the pass again with the same options. *)
Theorem recase_on_idempotent (o : SqlFormatterOptions) (clause : jsstring) :
  recase_on o (recase_on o clause) = recase_on o clause.
Proof.
  rewrite (recase_on_cover o (recase_on o clause)).
  rewrite (toUpperCase_cv _ _ (recase_on_cv o clause)).
  rewrite (recase_on_cover o clause).
  destruct (includes _ _); [|reflexivity].
  apply recase_words_idem; [apply on_letter_canon|apply on_letter_idem].
Qed.

(** ** The segmentation stage *)

Lemma cons_head_concat (c : code_unit) (l : list jsstring) :
  concat (cons_head c l) = c :: concat l.
Proof. destruct l; reflexivity. Qed.

Lemma split_from_concat (m : matcher) (s : jsstring) :
  forall p k, concat (split_from m p s k) = skipn k s.
Proof.
  induction s as [|c t IH]; intros p k; [now destruct k|].
  cbn [split_from]. destruct k as [|k]; [|apply IH].
  destruct (m p (c :: t)) as [[|n]|].
  - now rewrite cons_head_concat, IH.
  - cbn [concat app firstn]. rewrite IH. cbn [app skipn]. f_equal. apply firstn_skipn.
  - now rewrite cons_head_concat, IH.
Qed.

Lemma split_pieces (m : matcher) (s : jsstring) : concat (split m s) = s.
Proof. unfold split. now rewrite split_from_concat. Qed.

(** X10. [split] loses nothing: for every expression, the pieces of a
    text, the captured matches included, concatenate to the text.  This
    holds for [mainParts] and for every [joinParts]. *)
Theorem split_concat (m : matcher) (s : jsstring) : concat (split m s) = s.
Proof. apply split_pieces. Qed.

Lemma content_concat (l : list jsstring) : content (concat l) = concat (map content l).
Proof.
  induction l as [|a l IH]; [reflexivity|].
  cbn [concat map]. now rewrite content_app, IH.
Qed.

Lemma map_snd_setfirst (n : nat) (l : list cell) : map snd (setfirst n l) = map snd l.
Proof. now destruct l as [|[k c] l]. Qed.

Lemma content_trim (s : jsstring) : content (trim s) = content s.
Proof.
  rewrite <- (content_cells (trim s) 0), cells_from_trim, map_snd_setfirst.
  apply content_cells.
Qed.

Lemma piece_cells_content (part : jsstring) : map snd (piece_cells part) = content part.
Proof.
  unfold piece_cells. destruct (truthy (trim part)) eqn:E; cbn [negb].
  - destruct (array_includes _ _).
    + rewrite map_snd_setfirst. apply content_cells.
    + rewrite <- (split_pieces joinRegex part) at 2.
      rewrite content_concat, concat_map, map_map. f_equal.
      apply map_ext. intros p.
      rewrite map_snd_setfirst, content_cells. apply content_trim.
  - rewrite <- content_trim. now destruct (trim part).
Qed.

Lemma content_join (l : list jsstring) :
  content (array_join [cu_newline] l) = concat (map content l).
Proof.
  induction l as [|a l IH]; [reflexivity|].
  destruct l as [|b l].
  - cbn [array_join map concat]. now rewrite app_nil_r.
  - change (array_join [cu_newline] (a :: b :: l))
      with (a ++ [cu_newline] ++ array_join [cu_newline] (b :: l)).
    rewrite !content_app, IH. reflexivity.
Qed.

Lemma clauses_content (s : jsstring) :
  concat (map content (clauses_of s)) = content s.
Proof.
  destruct (clauses_cells s) as [H1 _].
  rewrite <- content_join, <- (content_cells _ 0), H1, map_snd_unlead.
  rewrite concat_map, map_map.
  rewrite <- (split_pieces majorRegex s) at 2.
  rewrite content_concat. f_equal. apply map_ext. apply piece_cells_content.
Qed.

(** X11. The segmentation stage only changes white space: the code units
    of the clauses that are not white space are, in the same order, those
    of the text that was segmented, and no clause is empty. *)
Theorem clauses_of_content (formattedSql : jsstring) :
  concat (map content (clauses_of formattedSql)) = content formattedSql
  /\ Forall (fun clause => clause <> []) (clauses_of formattedSql).
Proof.
  split; [apply clauses_content|].
  destruct (clauses_cells formattedSql) as [_ H2].
  eapply Forall_impl; [|exact H2]. intros c Hc ->. discriminate.
Qed.

Lemma filter_truthy (l : list jsstring) :
  Forall (fun c => truthy c = true) l -> filter truthy l = l.
Proof.
  induction 1 as [|a l Ha Hl IH]; [reflexivity|].
  cbn [filter]. now rewrite Ha, IH.
Qed.

Lemma map_recase_on_cv (o : SqlFormatterOptions) (l : list jsstring) :
  Forall2 cv (map (recase_on o) l) l.
Proof.
  induction l as [|a l IH]; constructor; [apply recase_on_cv|exact IH].
Qed.

Lemma format_text_content (sql : jsstring) (o : SqlFormatterOptions) :
  cv (content (format_text sql o)) (content sql).
Proof.
  unfold format_text, assemble.
  set (s := keyword_case o (normalize o sql)).
  destruct (clauses_cells s) as [H1 H2].
  rewrite (filter_truthy _ H2).
  eapply cv_trans.
  { apply content_cv, array_join_cv, map_recase_on_cv. }
  rewrite content_join, clauses_content.
  eapply cv_trans.
  { apply content_cv. exact (keyword_case_only_case_cv o (normalize o sql)). }
  rewrite normalize_content_eq. apply cv_refl.
Qed.

(** ** The formatter as a whole *)

(** X12. The formatter only changes white space and the case of ASCII
    letters: whatever the options, it completes with a text whose code
    units that are not white space are, up to case and in the same order,
    those of the input. *)
Theorem formatSqlString_content (sql : jsstring) (o : SqlFormatterOptions) :
  exists out : jsstring,
    formatSqlString sql o = Normal out
    /\ map canonicalize (content out) = map canonicalize (content sql).
Proof.
  exists (format_text sql o). split; [apply formatSqlString_text|].
  apply format_text_content.
Qed.

Lemma content_blank (s : jsstring) : content s = [] -> forallb is_space s = true.
Proof.
  induction s as [|c s IH]; [reflexivity|].
  cbn [content filter forallb]. destruct (is_space c); cbn [negb]; [exact IH|discriminate].
Qed.

(** X13. A text with at least one code unit that is not white space is
    never formatted to the empty string, whatever the options. *)
Theorem formatSqlString_nonblank (sql : jsstring) (o : SqlFormatterOptions) :
  forallb is_space sql = false ->
  exists out : jsstring, formatSqlString sql o = Normal out /\ out <> [].
Proof.
  intros H. exists (format_text sql o). split; [apply formatSqlString_text|].
  intros E. pose proof (format_text_content sql o) as Hc. rewrite E in Hc.
  apply cv_length in Hc. cbn [content filter length] in Hc.
  symmetry in Hc. apply length_zero_iff_nil, content_blank in Hc. congruence.
Qed.

Lemma formatSqlString_nonblank_witness :
  forallb is_space (js " x ") = false
  /\ exists out : jsstring, formatSqlString (js " x ") no_options = Normal out /\ out <> [].
Proof.
  split; [reflexivity|]. apply formatSqlString_nonblank. reflexivity.
Defined.

(** ** The lines of the output *)

Lemma single_spaced_plain (s : jsstring) :
  single_spaced s = true -> plain_spaced s = true.
Proof.
  induction s as [|c s IH]; [reflexivity|].
  cbn [single_spaced plain_spaced forallb]. intros [H1 H2]%andb_true_iff.
  fold (plain_spaced s). rewrite (IH H2), andb_true_r. unfold plain_space.
  destruct (is_space c); cbn [negb orb] in *; [|reflexivity].
  now apply andb_true_iff in H1 as [H1 _].
Qed.

Lemma canonicalize_is_space (c : code_unit) : is_space c = true -> canonicalize c = c.
Proof.
  intros H. unfold canonicalize. destruct (is_lower_letter c) eqn:E; [|reflexivity].
  unfold is_lower_letter, in_range in E.
  apply andb_true_iff in E as [E1 E2]. apply N.leb_le in E1, E2.
  rewrite is_space_letter in H by lia. discriminate.
Qed.

Lemma plain_space_canon (c : code_unit) : plain_space (canonicalize c) = plain_space c.
Proof.
  unfold plain_space. rewrite is_space_canonicalize.
  destruct (is_space c) eqn:E; [|reflexivity]. now rewrite canonicalize_is_space.
Qed.

Lemma plain_spaced_cv (a b : jsstring) : cv a b -> plain_spaced a = plain_spaced b.
Proof.
  assert (H : forall s, plain_spaced (map canonicalize s) = plain_spaced s).
  { induction s as [|c s IH]; [reflexivity|].
    cbn [map plain_spaced forallb]. fold (plain_spaced (map canonicalize s)).
    fold (plain_spaced s). now rewrite IH, plain_space_canon. }
  intros Hc. rewrite <- (H a), <- (H b). now rewrite Hc.
Qed.

Lemma forallb_drop_while (P q : code_unit -> bool) (s : jsstring) :
  forallb P s = true -> forallb P (drop_while q s) = true.
Proof.
  induction s as [|c s IH]; [reflexivity|]. intros H.
  cbn [drop_while]. destruct (q c); [|exact H].
  apply IH. cbn [forallb] in H. now apply andb_true_iff in H as [_ H].
Qed.

Lemma plain_spaced_trim (s : jsstring) : plain_spaced s = true -> plain_spaced (trim s) = true.
Proof.
  unfold plain_spaced, trim, trimEnd, trimStart. intros H.
  rewrite forallb_rev. apply forallb_drop_while. rewrite forallb_rev.
  now apply forallb_drop_while.
Qed.

Lemma drop_while_idem (q : code_unit -> bool) (s : jsstring) :
  drop_while q (drop_while q s) = drop_while q s.
Proof.
  induction s as [|c s IH]; [reflexivity|].
  cbn [drop_while]. destruct (q c) eqn:E; [exact IH|]. cbn [drop_while]. now rewrite E.
Qed.

Lemma trimStart_trimEnd (y : jsstring) :
  trimStart y = y -> trimStart (trimEnd y) = trimEnd y.
Proof.
  destruct y as [|c t]; [reflexivity|]. unfold trimStart. cbn [drop_while].
  destruct (is_space c) eqn:E.
  - intros H. exfalso.
    destruct (drop_while_split t) as (ws & H1 & _).
    rewrite H in H1. apply (f_equal (@length code_unit)) in H1.
    rewrite length_app in H1. cbn [length] in H1. lia.
  - intros _. rewrite trimEnd_cons, E. cbn [andb drop_while]. now rewrite E.
Qed.

Lemma trim_idem (s : jsstring) : trim (trim s) = trim s.
Proof.
  unfold trim. rewrite trimStart_trimEnd by apply drop_while_idem.
  unfold trimEnd. now rewrite rev_involutive, drop_while_idem.
Qed.

Lemma trim_split (s : jsstring) : exists a b, s = a ++ trim s ++ b.
Proof.
  unfold trim, trimEnd, trimStart.
  destruct (drop_while_split s) as (a & Ha & _).
  destruct (drop_while_split (rev (drop_while is_space s))) as (b & Hb & _).
  exists a, (rev b). rewrite <- rev_app_distr, <- Hb, rev_involutive. exact Ha.
Qed.

Lemma trim_length_eq (s : jsstring) : length (trim s) = length s -> trim s = s.
Proof.
  intros H. destruct (trim_split s) as (a & b & E).
  apply (f_equal (@length code_unit)) in E as El. rewrite !length_app in El.
  assert (a = []) by (apply length_zero_iff_nil; lia).
  assert (b = []) by (apply length_zero_iff_nil; lia).
  subst a b. now rewrite app_nil_r in E.
Qed.

Lemma trim_fixed_cv (a b : jsstring) : cv a b -> trim b = b -> trim a = a.
Proof.
  intros H Hb. apply trim_length_eq.
  rewrite (cv_length _ _ (trim_cv _ _ H)), Hb. symmetry. now apply cv_length.
Qed.

Lemma clause_shaped_cv (a b : jsstring) : cv a b -> clause_shaped b -> clause_shaped a.
Proof.
  intros H (H1 & H2 & H3). split; [|split].
  - intros ->. apply cv_length in H. destruct b; [congruence|discriminate].
  - now apply (trim_fixed_cv a b).
  - now rewrite (plain_spaced_cv a b).
Qed.

Lemma shape_inv_push (st : seg_state) :
  shape_inv st ->
  Forall (fun c => trim c = c /\ plain_spaced c = true) (push_current st).
Proof.
  intros [H1 H2]. destruct st as [res cur]. cbn [fst snd push_current] in *.
  destruct (truthy cur); [|assumption].
  apply Forall_app. split; [assumption|]. constructor; [|constructor].
  split; [apply trim_idem|now apply plain_spaced_trim].
Qed.

Lemma shape_inv_item (st : seg_state) (j : jsstring) :
  shape_inv st -> plain_spaced j = true -> shape_inv (join_item st j).
Proof.
  intros H Hj. unfold join_item. destruct (negb (truthy j)); [assumption|].
  destruct (endsWith _ _).
  - split; [now apply shape_inv_push|assumption].
  - destruct H as [H1 H2]. split; [assumption|]. cbn [fst snd].
    unfold plain_spaced in *. rewrite !forallb_app, H2, Hj. reflexivity.
Qed.

Lemma plain_spaced_concat (l : list jsstring) :
  plain_spaced (concat l) = true -> Forall (fun p => plain_spaced p = true) l.
Proof.
  induction l as [|a l IH]; [constructor|].
  cbn [concat]. unfold plain_spaced at 1. rewrite forallb_app.
  intros [H1 H2]%andb_true_iff. constructor; [exact H1|now apply IH].
Qed.

Lemma shape_inv_items (l : list jsstring) :
  Forall (fun p => plain_spaced p = true) l ->
  forall st, shape_inv st -> shape_inv (fold_left join_item (map trim l) st).
Proof.
  induction 1 as [|p l Hp Hl IH]; intros st H; [exact H|].
  cbn [map fold_left]. apply IH. apply shape_inv_item; [exact H|].
  now apply plain_spaced_trim.
Qed.

Lemma shape_inv_piece (st : seg_state) (part : jsstring) :
  shape_inv st -> plain_spaced part = true -> shape_inv (main_piece st part).
Proof.
  intros H Hp. unfold main_piece. destruct (negb (truthy (trim part))); [assumption|].
  destruct (array_includes _ _).
  - split; [now apply shape_inv_push|assumption].
  - rewrite join_fold_items. apply shape_inv_items; [|assumption].
    apply plain_spaced_concat. now rewrite split_pieces.
Qed.

Lemma shape_inv_pieces (l : list jsstring) :
  Forall (fun p => plain_spaced p = true) l ->
  forall st, shape_inv st -> shape_inv (fold_left main_piece l st).
Proof.
  induction 1 as [|p l Hp Hl IH]; intros st H; [exact H|].
  cbn [fold_left]. apply IH. now apply shape_inv_piece.
Qed.

Lemma clauses_shaped (s : jsstring) :
  plain_spaced s = true -> Forall clause_shaped (clauses_of s).
Proof.
  intros Hs.
  assert (H : Forall (fun c => trim c = c /\ plain_spaced c = true) (clauses_of s)).
  { unfold clauses_of. apply shape_inv_push, shape_inv_pieces.
    - apply plain_spaced_concat. now rewrite split_pieces.
    - split; [constructor|reflexivity]. }
  destruct (clauses_cells s) as [_ Ht].
  rewrite Forall_forall in *. intros c Hc. specialize (H c Hc). specialize (Ht c Hc).
  split; [|exact H]. intros ->. discriminate.
Qed.

Lemma format_text_lines (sql : jsstring) (o : SqlFormatterOptions) :
  let clauses := clauses_of (keyword_case o (normalize o sql)) in
  format_text sql o = array_join [cu_newline] (map (recase_on o) clauses)
  /\ Forall clause_shaped (map (recase_on o) clauses).
Proof.
  cbn zeta. set (s := keyword_case o (normalize o sql)).
  destruct (clauses_cells s) as [_ Ht]. split.
  - unfold format_text, assemble. fold s. now rewrite (filter_truthy _ Ht).
  - assert (Hs : plain_spaced s = true).
    { subst s. rewrite (plain_spaced_cv _ _ (keyword_case_only_case_cv o _)).
      apply single_spaced_plain. rewrite normalize_stage_cells. apply single_spaced_flat.
      - apply respace_valid, unlead_valid, cells_from_valid.
      - apply small_respace_stage.
      - apply h_stage_le. }
    apply Forall_map. eapply Forall_impl; [|apply (clauses_shaped s Hs)].
    intros c Hc. apply (clause_shaped_cv _ c); [apply recase_on_cv|exact Hc].
Qed.

(** X14. The output is a list of lines joined by line feeds, one line for
    each clause of the segmentation; every line is non-empty, has no white
    space at its start or at its end, and contains no white space other than
    plain spaces, so no line feed, tab or other separator. *)
Theorem formatSqlString_lines (sql : jsstring) (o : SqlFormatterOptions) :
  exists lines : list jsstring,
    formatSqlString sql o = Normal (array_join [cu_newline] lines)
    /\ length lines = length (clauses_of (keyword_case o (normalize o sql)))
    /\ Forall (fun line => line <> [] /\ trim line = line /\ plain_spaced line = true)
              lines.
Proof.
  destruct (format_text_lines sql o) as [H1 H2].
  exists (map (recase_on o) (clauses_of (keyword_case o (normalize o sql)))).
  split; [|split].
  - rewrite formatSqlString_text. now f_equal.
  - apply length_map.
  - exact H2.
Qed.

Lemma count_newline_plain (s : jsstring) :
  plain_spaced s = true -> count_occ N.eq_dec s cu_newline = 0.
Proof.
  induction s as [|c s IH]; [reflexivity|].
  cbn [plain_spaced forallb]. intros [H1 H2]%andb_true_iff.
  cbn [count_occ]. destruct (N.eq_dec c cu_newline) as [->|_]; [discriminate|].
  now apply IH.
Qed.

Lemma line_count_join (lines : list jsstring) :
  Forall clause_shaped lines ->
  line_count (array_join [cu_newline] lines) = length lines.
Proof.
  induction 1 as [|a l Ha Hl IH]; [reflexivity|].
  destruct Ha as (Ha1 & _ & Ha3).
  destruct l as [|b l].
  - cbn [array_join length]. destruct a as [|c a]; [congruence|].
    unfold line_count. now rewrite count_newline_plain.
  - change (array_join [cu_newline] (a :: b :: l))
      with (a ++ [cu_newline] ++ array_join [cu_newline] (b :: l)).
    remember (array_join [cu_newline] (b :: l)) as J eqn:EJ.
    assert (HJ : S (@count_occ code_unit N.eq_dec J cu_newline) = length (b :: l)).
    { rewrite <- IH. unfold line_count. destruct J as [|x J']; [|reflexivity].
      exfalso. inversion Hl as [|y z (Hb & _) _]; subst. apply Hb.
      destruct l as [|b' l']; [now symmetry|].
      change (array_join [cu_newline] (b :: b' :: l'))
        with (b ++ [cu_newline] ++ array_join [cu_newline] (b' :: l')) in EJ.
      symmetry in EJ. now apply app_eq_nil in EJ as [EJ _]. }
    unfold line_count. destruct a as [|c a]; [congruence|].
    rewrite <- app_comm_cons. rewrite app_comm_cons.
    rewrite !count_occ_app, count_newline_plain by assumption.
    cbn [count_occ length] in *. destruct (N.eq_dec cu_newline cu_newline); [|congruence].
    cbn [Nat.add]. now rewrite HJ.
Qed.

(** X15. The output has exactly one line for each clause that the
    segmentation pushed: its number of lines is the number of clauses. *)
Theorem formatSqlString_line_count (sql : jsstring) (o : SqlFormatterOptions) :
  exists out : jsstring,
    formatSqlString sql o = Normal out
    /\ line_count out = length (clauses_of (keyword_case o (normalize o sql))).
Proof.
  destruct (format_text_lines sql o) as [H1 H2].
  exists (format_text sql o). split; [apply formatSqlString_text|].
  rewrite H1, line_count_join by exact H2. apply length_map.
Qed.

(** ** The spacing the normalization stage guarantees *)

Lemma adjacent_spec (R : code_unit -> option code_unit -> bool) (s : jsstring) :
  forall p, adjacent R p s = true ->
  forall a x b, s = a ++ x :: b -> R x (hd_error b) = true.
Proof.
  induction s as [|c s IH]; intros p H a x b E.
  - now destruct a.
  - cbn [adjacent] in H. apply andb_true_iff in H as [_ H].
    destruct a as [|d a]; cbn [app] in E; injection E as -> ->.
    + destruct b as [|y b]; cbn [adjacent hd_error] in *; [exact H|].
      now apply andb_true_iff in H as [H _].
    + now apply (IH _ H a x b).
Qed.

Lemma adjacent_flat (R : code_unit -> option code_unit -> bool) (l : list cell) (tr : nat) :
  forall p,
  (fix ok (p : option code_unit) (l : list cell) : Prop :=
     match l with
     | [] => gap R p tr None
     | (n, c) :: t => gap R p n (Some c) /\ ok (Some c) t
     end) p l ->
  adjacent R p (flat l tr) = true.
Proof.
  induction l as [|[n c] l IH]; intros p H.
  - cbn [flat]. destruct tr as [|[|tr]]; cbn [gap] in H; [| |contradiction].
    + cbn [spaces repeat adjacent]. now destruct p.
    + cbn [spaces repeat adjacent]. destruct H as [H1 H2]. rewrite H2.
      destruct p; [now rewrite H1|reflexivity].
  - destruct H as [H1 H2]. specialize (IH _ H2). cbn [flat].
    destruct n as [|[|n]]; cbn [gap] in H1; [| |contradiction].
    + cbn [spaces repeat app adjacent]. rewrite IH.
      destruct p; [now rewrite H1|reflexivity].
    + cbn [spaces repeat app adjacent]. destruct H1 as [H1 H1']. rewrite IH, H1'.
      destruct p; [now rewrite H1|reflexivity].
Qed.

Lemma adjacent_respace (R : code_unit -> option code_unit -> bool) (h : spacing)
    (l : list cell) :
  (forall p n c, is_space c = false -> gap R p (h p n (Some c)) (Some c)) ->
  (forall p n, gap R p (h p n None) None) ->
  valid l ->
  forall p, adjacent R p (flat (respace h p l) (respace_trail h p l 0)) = true.
Proof.
  intros H1 H2 Hv p. apply adjacent_flat. unfold respace_trail.
  revert p. induction l as [|[n c] l IH]; intros p.
  - cbn [respace last_char fold_left]. apply H2.
  - apply valid_cons in Hv as [Hc Hv]. cbn [respace]. split; [now apply H1|].
    change (last_char p ((n, c) :: l)) with (last_char (Some c) l). now apply IH.
Qed.

Lemma normalize_adjacent (R : code_unit -> option code_unit -> bool)
    (o : SqlFormatterOptions) (sql : jsstring) :
  (forall p n c, is_space c = false -> gap R p (h_stage o p n (Some c)) (Some c)) ->
  (forall p n, gap R p (h_stage o p n None) None) ->
  forall a x b, normalize o sql = a ++ x :: b -> R x (hd_error b) = true.
Proof.
  intros H1 H2. apply (adjacent_spec R _ None).
  rewrite normalize_stage_cells. apply adjacent_respace; try assumption.
  apply unlead_valid, cells_from_valid.
Qed.

Lemma h_stage_after_rparen (o : SqlFormatterOptions) (n : nat) (c : option code_unit) :
  h_stage o (Some cu_rparen) n c = 1.
Proof.
  unfold h_stage, h_collapse, h_spaced. cbn [opt_is].
  change (cu_eqb cu_rparen cu_rparen) with true. cbn [orb].
  now destruct (opt_is cu_rparen c).
Qed.

Lemma h_stage_after_lparen (o : SqlFormatterOptions) (n : nat) (c : option code_unit) :
  h_stage o (Some cu_lparen) n c = 0.
Proof.
  unfold h_stage, h_collapse, h_spaced. cbn [opt_is].
  change (cu_eqb cu_lparen cu_rparen) with false.
  change (cu_eqb cu_lparen cu_lparen) with true. cbn [orb Nat.add].
  now destruct (opt_is cu_rparen c), (opt_is cu_lparen c).
Qed.

Lemma gap_cases (R : code_unit -> option code_unit -> bool) (o : SqlFormatterOptions)
    (p c : option code_unit) (n : nat) :
  (h_stage o p n c = 0 -> gap R p 0 c) -> (h_stage o p n c = 1 -> gap R p 1 c) ->
  gap R p (h_stage o p n c) c.
Proof.
  intros H0 H1. pose proof (h_stage_le o p c n) as Hle.
  destruct (h_stage o p n c) as [|[|k]]; [now apply H0|now apply H1|lia].
Qed.

(** X16. In the normalized text no opening parenthesis is followed by
    white space, whatever the options. *)
Theorem normalize_open_paren (o : SqlFormatterOptions) (sql a b : jsstring) :
  normalize o sql = a ++ cu_lparen :: b ->
  match b with y :: _ => is_space y = false | [] => True end.
Proof.
  intros E.
  assert (H : open_tight cu_lparen (hd_error b) = true).
  { apply (normalize_adjacent open_tight o sql) with (a := a); [| |exact E].
    - intros p n c Hc. apply gap_cases; intros Hh; cbn [gap].
      + destruct p as [x|]; [|exact I]. unfold open_tight. now rewrite Hc, andb_false_r.
      + split.
        * destruct p as [x|]; [|exact I]. unfold open_tight.
          destruct (cu_eqb x cu_lparen) eqn:Ex; [|reflexivity].
          apply cu_eqb_eq in Ex. subst x. rewrite h_stage_after_lparen in Hh. discriminate.
        * unfold open_tight. now rewrite Hc, andb_false_r.
    - intros p n. apply gap_cases; intros Hh; cbn [gap].
      + destruct p as [x|]; [|exact I]. unfold open_tight. now rewrite andb_false_r.
      + split; [|reflexivity].
        destruct p as [x|]; [|exact I]. unfold open_tight.
        destruct (cu_eqb x cu_lparen) eqn:Ex; [|reflexivity].
        apply cu_eqb_eq in Ex. subst x. rewrite h_stage_after_lparen in Hh. discriminate. }
  unfold open_tight in H. change (cu_eqb cu_lparen cu_lparen) with true in H.
  destruct b as [|y b]; [exact I|]. cbn [hd_error andb] in H.
  now apply negb_true_iff in H.
Qed.

Lemma normalize_open_paren_witness :
  match js "x) " with y :: _ => is_space y = false | [] => True end.
Proof.
  apply (normalize_open_paren no_options (js "f  (  x )") (js "f") (js "x) ")).
  vm_compute. reflexivity.
Defined.

(** X17. In the normalized text every closing parenthesis is followed by a
    plain space, at the end of the text too, whatever the options. *)
Theorem normalize_close_paren (o : SqlFormatterOptions) (sql a b : jsstring) :
  normalize o sql = a ++ cu_rparen :: b ->
  exists b', b = cu_space :: b'.
Proof.
  intros E.
  assert (H : close_spaced cu_rparen (hd_error b) = true).
  { apply (normalize_adjacent close_spaced o sql) with (a := a); [| |exact E].
    - intros p n c Hc. apply gap_cases; intros Hh; cbn [gap].
      + destruct p as [x|]; [|exact I]. unfold close_spaced.
        destruct (cu_eqb x cu_rparen) eqn:Ex; [|reflexivity].
        apply cu_eqb_eq in Ex. subst x. rewrite h_stage_after_rparen in Hh. discriminate.
      + split; [|reflexivity]. destruct p as [x|]; [|exact I].
        unfold close_spaced. cbn [opt_is]. rewrite cu_eqb_refl. apply orb_true_r.
    - intros p n. apply gap_cases; intros Hh; cbn [gap].
      + destruct p as [x|]; [|exact I]. unfold close_spaced.
        destruct (cu_eqb x cu_rparen) eqn:Ex; [|reflexivity].
        apply cu_eqb_eq in Ex. subst x. rewrite h_stage_after_rparen in Hh. discriminate.
      + split; [|reflexivity]. destruct p as [x|]; [|exact I].
        unfold close_spaced. cbn [opt_is]. rewrite cu_eqb_refl. apply orb_true_r. }
  unfold close_spaced in H. change (cu_eqb cu_rparen cu_rparen) with true in H.
  cbn [negb orb] in H. destruct b as [|y b]; [discriminate|].
  cbn [hd_error opt_is] in H. apply cu_eqb_eq in H. subst y. now exists b.
Qed.

Lemma normalize_close_paren_witness : exists b', js " " = cu_space :: b'.
Proof.
  apply (normalize_close_paren no_options (js "f(x)") (js "f(x") (js " ")).
  vm_compute. reflexivity.
Defined.

Lemma operator_classes (x : code_unit) :
  is_operator x = true ->
  cu_eqb x cu_comma = false /\ cu_eqb x cu_lparen = false /\ cu_eqb x cu_rparen = false
  /\ is_word x = false /\ is_space x = false.
Proof.
  intros H. unfold is_operator in H.
  assert (Hx : x = 61%N \/ x = 60%N \/ x = 62%N \/ x = 33%N).
  { repeat (apply orb_true_iff in H as [H|H]); apply N.eqb_eq in H; auto. }
  destruct Hx as [-> | [-> | [-> | ->]]]; repeat split; reflexivity.
Qed.

Lemma word_classes (y : code_unit) :
  is_word y = true ->
  cu_eqb y cu_comma = false /\ cu_eqb y cu_lparen = false /\ cu_eqb y cu_rparen = false
  /\ is_operator y = false.
Proof.
  intros H.
  assert (Hy : (48 <= y <= 122)%N).
  { unfold is_word, is_upper_letter, is_lower_letter, is_digit, in_range in H.
    repeat (apply orb_true_iff in H as [H|H]);
      try (apply andb_true_iff in H as [H1 H2]; apply N.leb_le in H1, H2; lia).
    apply N.eqb_eq in H. lia. }
  unfold cu_eqb, cu_comma, cu_lparen, cu_rparen.
  repeat split; try (apply N.eqb_neq; lia).
  unfold is_operator.
  destruct (y =? 61)%N eqn:E1; [apply N.eqb_eq in E1; subst; discriminate|].
  destruct (y =? 60)%N eqn:E2; [apply N.eqb_eq in E2; subst; discriminate|].
  destruct (y =? 62)%N eqn:E3; [apply N.eqb_eq in E3; subst; discriminate|].
  cbn [orb]. apply N.eqb_neq. lia.
Qed.

Lemma h_stage_operator_word (o : SqlFormatterOptions) (x y : code_unit) (n : nat) :
  (is_operator x = true /\ is_word y = true) \/ (is_word x = true /\ is_operator y = true) ->
  h_stage o (Some x) n (Some y) = 1.
Proof.
  intros [[Hx Hy]|[Hx Hy]].
  - destruct (operator_classes x Hx) as (A1 & A2 & A3 & _).
    destruct (word_classes y Hy) as (B1 & B2 & B3 & B4).
    unfold h_stage, h_collapse, h_spaced, h_operators. cbn [opt_is opt_operator].
    rewrite A1, A2, A3, B1, B2, B3, B4, Hx. cbn [orb andb negb]. lia.
  - destruct (operator_classes y Hy) as (A1 & A2 & A3 & _).
    destruct (word_classes x Hx) as (B1 & B2 & B3 & B4).
    unfold h_stage, h_collapse, h_spaced, h_operators. cbn [opt_is opt_operator].
    rewrite A1, A2, A3, B1, B2, B3, B4, Hy. cbn [orb andb negb]. lia.
Qed.

Lemma operator_apart_space_r (x : code_unit) : operator_apart x (Some cu_space) = true.
Proof.
  unfold operator_apart. change (is_word cu_space) with false.
  change (is_operator cu_space) with false. now rewrite !andb_false_r.
Qed.

(** X18. In the normalized text an operator character (one of = < > !)
    and a word character are never next to each other, whatever the
    options: the operator rule has put a space between them and no later
    rule removes it. *)
Theorem normalize_operator_apart (o : SqlFormatterOptions) (sql a b : jsstring)
    (x y : code_unit) :
  normalize o sql = a ++ x :: y :: b ->
  (is_operator x && is_word y) || (is_word x && is_operator y) = false.
Proof.
  intros E.
  assert (H : operator_apart x (hd_error (y :: b)) = true).
  { apply (normalize_adjacent operator_apart o sql) with (a := a); [| |exact E].
    - intros p n c Hc. apply gap_cases; intros Hh; cbn [gap].
      + destruct p as [u|]; [|exact I]. unfold operator_apart.
        apply negb_true_iff. apply not_true_is_false. intros Hu.
        rewrite h_stage_operator_word in Hh; [discriminate|].
        apply orb_true_iff in Hu as [Hu|Hu]; apply andb_true_iff in Hu; auto.
      + split; [destruct p; [apply operator_apart_space_r|exact I]|reflexivity].
    - intros p n. apply gap_cases; intros Hh; cbn [gap].
      + now destruct p.
      + split; [destruct p; [apply operator_apart_space_r|exact I]|reflexivity]. }
  cbn [hd_error operator_apart] in H. now apply negb_true_iff in H.
Qed.

Lemma normalize_operator_apart_witness :
  (is_operator 61%N && is_word cu_space) || (is_word 61%N && is_operator cu_space) = false.
Proof.
  apply (normalize_operator_apart no_options (js "a=b") (js "a ") (js "b") 61%N cu_space).
  vm_compute. reflexivity.
Defined.

Lemma h_stage_after_comma (o : SqlFormatterOptions) (n : nat) (c : option code_unit) :
  opt_is cu_lparen c = false -> opt_is cu_rparen c = false ->
  h_stage o (Some cu_comma) n c = 1.
Proof.
  intros H1 H2. unfold h_stage, h_collapse, h_spaced. cbn [opt_is].
  rewrite H1, H2.
  change (cu_eqb cu_comma cu_rparen) with false.
  change (cu_eqb cu_comma cu_lparen) with false.
  change (cu_eqb cu_comma cu_comma) with true. cbn [orb].
  destruct (opt_is cu_comma c); lia.
Qed.

(** X19. In the normalized text every comma is followed by a plain space,
    unless a parenthesis comes directly after it; this holds at the end of
    the text too and for every commaPosition. *)
Theorem normalize_comma (o : SqlFormatterOptions) (sql a b : jsstring) :
  normalize o sql = a ++ cu_comma :: b ->
  exists y b', b = y :: b' /\ (y = cu_space \/ y = cu_lparen \/ y = cu_rparen).
Proof.
  intros E.
  assert (H : comma_spaced cu_comma (hd_error b) = true).
  { apply (normalize_adjacent comma_spaced o sql) with (a := a); [| |exact E].
    - intros p n c Hc. apply gap_cases; intros Hh; cbn [gap].
      + destruct p as [x|]; [|exact I]. unfold comma_spaced.
        destruct (cu_eqb x cu_comma) eqn:Ex; [|reflexivity].
        apply cu_eqb_eq in Ex. subst x. cbn [negb orb].
        destruct (opt_is cu_lparen (Some c)) eqn:E1; [now rewrite orb_true_r|].
        destruct (opt_is cu_rparen (Some c)) eqn:E2; [apply orb_true_r|].
        rewrite h_stage_after_comma in Hh by assumption. discriminate.
      + split; [|reflexivity]. destruct p as [x|]; [|exact I].
        unfold comma_spaced. cbn [opt_is]. rewrite cu_eqb_refl.
        now rewrite orb_true_r.
    - intros p n. apply gap_cases; intros Hh; cbn [gap].
      + destruct p as [x|]; [|exact I]. unfold comma_spaced.
        destruct (cu_eqb x cu_comma) eqn:Ex; [|reflexivity].
        apply cu_eqb_eq in Ex. subst x.
        rewrite h_stage_after_comma in Hh by reflexivity. discriminate.
      + split; [|reflexivity]. destruct p as [x|]; [|exact I].
        unfold comma_spaced. cbn [opt_is]. rewrite cu_eqb_refl.
        now rewrite orb_true_r. }
  unfold comma_spaced in H. change (cu_eqb cu_comma cu_comma) with true in H.
  cbn [negb orb] in H. destruct b as [|y b]; [discriminate|].
  cbn [hd_error opt_is] in H. exists y, b. split; [reflexivity|].
  apply orb_true_iff in H as [H|H]; [apply orb_true_iff in H as [H|H]|];
    apply cu_eqb_eq in H; auto.
Qed.

Lemma normalize_comma_witness :
  exists y b', js "(b) " = y :: b' /\ (y = cu_space \/ y = cu_lparen \/ y = cu_rparen).
Proof.
  apply (normalize_comma no_options (js "a , (b)") (js "a") (js "(b) ")).
  vm_compute. reflexivity.
Defined.

(** ** How the clauses start *)

Lemma trim_split_blank (s : jsstring) :
  exists a b, s = a ++ trim s ++ b
              /\ forallb is_space a = true /\ forallb is_space b = true.
Proof.
  unfold trim, trimEnd, trimStart.
  destruct (drop_while_split s) as (a & Ha & Ha').
  destruct (drop_while_split (rev (drop_while is_space s))) as (b & Hb & Hb').
  exists a, (rev b). split; [|split; [exact Ha'|now rewrite forallb_rev]].
  rewrite <- rev_app_distr, <- Hb, rev_involutive. exact Ha.
Qed.

Lemma trimStart_blank_app (a y : jsstring) :
  forallb is_space a = true -> trimStart (a ++ y) = trimStart y.
Proof.
  unfold trimStart. induction a as [|c a IH]; [reflexivity|].
  cbn [forallb app drop_while]. intros [-> H]%andb_true_iff. now apply IH.
Qed.

Lemma drop_while_length (q : code_unit -> bool) (s : jsstring) :
  length (drop_while q s) <= length s.
Proof.
  induction s as [|c s IH]; [reflexivity|].
  cbn [drop_while]. destruct (q c); cbn [length]; lia.
Qed.

Lemma drop_while_fixed_head (q : code_unit -> bool) (c : code_unit) (t : jsstring) :
  drop_while q (c :: t) = c :: t -> q c = false.
Proof.
  cbn [drop_while]. destruct (q c); [|reflexivity]. intros H.
  pose proof (drop_while_length q t) as Hl. rewrite H in Hl. cbn [length] in Hl. lia.
Qed.

Lemma trim_fixed (j : jsstring) : trim j = j -> trimStart j = j /\ trimEnd j = j.
Proof.
  intros H. split.
  - rewrite <- H at 1. unfold trim at 1.
    rewrite trimStart_trimEnd by apply drop_while_idem. exact H.
  - rewrite <- H at 1. unfold trim, trimEnd at 1 2.
    rewrite rev_involutive, drop_while_idem. exact H.
Qed.

Lemma trimEnd_app_fixed (y j : jsstring) :
  trimEnd j = j -> j <> [] -> trimEnd (y ++ j) = y ++ j.
Proof.
  intros H Hj. unfold trimEnd in *.
  assert (Hr : drop_while is_space (rev j) = rev j).
  { rewrite <- (rev_involutive (drop_while is_space (rev j))). now rewrite H. }
  rewrite rev_app_distr.
  destruct (rev j) as [|c t] eqn:E.
  - exfalso. apply Hj. rewrite <- (rev_involutive j), E. reflexivity.
  - apply drop_while_fixed_head in Hr. cbn [app drop_while]. rewrite Hr.
    change (c :: t ++ rev y) with ((c :: t) ++ rev y).
    rewrite <- E, <- rev_app_distr. apply rev_involutive.
Qed.

Lemma trim_append (a j : jsstring) :
  trim a <> [] -> trim j = j -> j <> [] ->
  exists y, trim (a ++ js " " ++ j) = trim a ++ y.
Proof.
  intros Ha Hj Hne.
  destruct (trim_split_blank a) as (a1 & b1 & E & H1 & _).
  destruct (trim_fixed j Hj) as [_ Hje].
  destruct (trim_fixed (trim a) (trim_idem a)) as [Has _].
  exists (b1 ++ js " " ++ j).
  rewrite E at 1. rewrite <- !app_assoc. unfold trim at 1.
  rewrite trimStart_blank_app by assumption.
  destruct (trim a) as [|c t] eqn:Et; [congruence|].
  unfold trimStart in *. apply drop_while_fixed_head in Has.
  cbn [app drop_while]. rewrite Has.
  replace (c :: t ++ b1 ++ js " " ++ j) with (((c :: t) ++ b1 ++ js " ") ++ j)
    by (now rewrite <- !app_assoc).
  rewrite trimEnd_app_fixed by assumption. now rewrite <- !app_assoc.
Qed.

Lemma headed_app (c y : jsstring) : headed c -> headed (c ++ y).
Proof.
  intros (w & t & -> & Hw & Hh). exists w, (t ++ y). now rewrite app_assoc.
Qed.

Lemma head_inv_start (st : seg_state) (q : jsstring) :
  head_inv st -> truthy (trim q) = true -> clause_head (trim q) = true ->
  head_inv (push_current st, q).
Proof.
  intros [H1 H2] Hq Hh. destruct st as [res cur]. cbn [fst snd push_current] in *.
  assert (Hn : headed (trim q)).
  { exists (trim q), []. rewrite app_nil_r. repeat split; [|exact Hh].
    intros E. rewrite E in Hq. discriminate. }
  split; [|intros _; exact Hn]. cbn [fst].
  destruct (truthy cur); [|exact H1].
  destruct res as [|r res]; [constructor|].
  cbn [app tl] in *. apply Forall_app. split; [exact H1|].
  constructor; [|constructor]. apply H2. discriminate.
Qed.

Lemma head_inv_item (st : seg_state) (j : jsstring) :
  head_inv st -> trim j = j -> head_inv (join_item st j).
Proof.
  intros H Hj. unfold join_item. destruct (truthy j) eqn:Ej; cbn [negb]; [|exact H].
  destruct (endsWith _ _) eqn:Ee.
  - apply head_inv_start; [exact H|now rewrite Hj|].
    rewrite Hj. unfold clause_head. rewrite Ee. apply orb_true_r.
  - destruct H as [H1 H2]. split; [exact H1|]. cbn [fst snd]. intros Hr.
    specialize (H2 Hr).
    assert (Ha : trim (snd st) <> []).
    { destruct H2 as (w & t & E & Hw & _). rewrite E. intros E'.
      now apply app_eq_nil in E' as [E' _]. }
    destruct (trim_append (snd st) j Ha Hj) as (y & ->).
    + intros ->. discriminate.
    + now apply headed_app.
Qed.

Lemma head_inv_items (l : list jsstring) :
  forall st, head_inv st -> head_inv (fold_left join_item (map trim l) st).
Proof.
  induction l as [|p l IH]; intros st H; [exact H|].
  cbn [map fold_left]. apply IH. apply head_inv_item; [exact H|apply trim_idem].
Qed.

Lemma head_inv_piece (st : seg_state) (part : jsstring) :
  head_inv st -> head_inv (main_piece st part).
Proof.
  intros H. unfold main_piece. destruct (truthy (trim part)) eqn:E; cbn [negb]; [|exact H].
  destruct (array_includes _ _) eqn:Em.
  - apply head_inv_start; [exact H|exact E|]. unfold clause_head. now rewrite Em.
  - rewrite join_fold_items. now apply head_inv_items.
Qed.

Lemma head_inv_pieces (l : list jsstring) :
  forall st, head_inv st -> head_inv (fold_left main_piece l st).
Proof.
  induction l as [|p l IH]; intros st H; [exact H|].
  cbn [fold_left]. apply IH. now apply head_inv_piece.
Qed.

Lemma clauses_headed (s : jsstring) : Forall headed (tl (clauses_of s)).
Proof.
  unfold clauses_of.
  assert (Hi : head_inv (fold_left main_piece (split majorRegex s) ([], []))).
  { apply head_inv_pieces. split; [constructor|]. now intros []. }
  destruct Hi as [H1 H2].
  destruct (fold_left main_piece _ _) as [res cur]. cbn [fst snd push_current] in *.
  destruct (truthy cur); [|exact H1].
  destruct res as [|r res]; [constructor|].
  cbn [app tl] in *. apply Forall_app. split; [exact H1|].
  constructor; [|constructor]. apply H2. discriminate.
Qed.

(** X20. Every clause of the segmentation but the first starts with the
    text that opened it: one of the seven clause keywords (up to case), or
    a piece whose upper case ends in JOIN.  Only the first clause can start
    with other text. *)
Theorem clauses_of_headed (formattedSql : jsstring) :
  Forall (fun clause =>
            exists w t, clause = w ++ t /\ w <> []
              /\ (array_includes major_keywords (toUpperCase w) = true
                  \/ endsWith (toUpperCase w) (js "JOIN") = true))
         (tl (clauses_of formattedSql)).
Proof.
  eapply Forall_impl; [|apply clauses_headed].
  intros c (w & t & E & Hw & Hh). exists w, t. repeat split; try assumption.
  now apply orb_true_iff.
Qed.

Lemma cv_firstn (n : nat) (a b : jsstring) : cv a b -> cv (firstn n a) (firstn n b).
Proof. unfold cv. intros H. now rewrite <- !firstn_map, H. Qed.

Lemma headed_cv (c c' : jsstring) : cv c' c -> headed c -> headed c'.
Proof.
  intros Hc (w & t & E & Hw & Hh).
  exists (firstn (length w) c'), (skipn (length w) c').
  assert (Hcw : cv (firstn (length w) c') w).
  { pose proof (cv_firstn (length w) _ _ Hc) as H. rewrite E in H.
    now rewrite firstn_app, firstn_all, Nat.sub_diag, app_nil_r in H. }
  split; [now rewrite firstn_skipn|]. split.
  - intros E'. rewrite E' in Hcw. apply cv_length in Hcw.
    destruct w; [congruence|discriminate].
  - unfold clause_head in *. now rewrite (toUpperCase_cv _ _ Hcw).
Qed.

(** X21. Every line of the output but the first starts with the text that
    opened its clause: one of the seven clause keywords (up to case), or a
    piece whose upper case ends in JOIN.  The lines are those of the
    output: none of them contains a line feed. *)
Theorem formatSqlString_headed (sql : jsstring) (o : SqlFormatterOptions) :
  exists lines : list jsstring,
    formatSqlString sql o = Normal (array_join [cu_newline] lines)
    /\ Forall (fun line => existsb (cu_eqb cu_newline) line = false) lines
    /\ Forall (fun line =>
                 exists w t, line = w ++ t /\ w <> []
                   /\ (array_includes major_keywords (toUpperCase w) = true
                       \/ endsWith (toUpperCase w) (js "JOIN") = true))
              (tl lines).
Proof.
  destruct (format_text_lines sql o) as [H1 H2].
  set (clauses := clauses_of (keyword_case o (normalize o sql))) in *.
  exists (map (recase_on o) clauses). split; [|split].
  - rewrite formatSqlString_text. now f_equal.
  - eapply Forall_impl; [|exact H2]. intros c (_ & _ & Hp).
    unfold plain_spaced in Hp. rewrite forallb_forall in Hp.
    destruct (existsb _ c) eqn:E; [|reflexivity].
    apply existsb_exists in E as (x & Hx & Ex). apply cu_eqb_eq in Ex. subst x.
    specialize (Hp _ Hx). discriminate.
  - pose proof (clauses_headed (keyword_case o (normalize o sql))) as H. fold clauses in H.
    replace (tl (map (recase_on o) clauses)) with (map (recase_on o) (tl clauses))
      by now destruct clauses.
    apply Forall_map. eapply Forall_impl; [|exact H].
    intros c Hc. apply (headed_cv c (recase_on o c) (recase_on_cv o c)) in Hc.
    destruct Hc as (w & t & E & Hw & Hh). exists w, t. repeat split; try assumption.
    now apply orb_true_iff.
Qed.

(** ** keywordCase and the line breaks *)

Lemma cons_head_cv (c c' : code_unit) (l l' : list jsstring) :
  canonicalize c = canonicalize c' -> Forall2 cv l l' ->
  Forall2 cv (cons_head c l) (cons_head c' l').
Proof.
  intros Hc [|a a' r r' Ha Hr]; cbn [cons_head].
  - constructor; [|constructor]. unfold cv. cbn [map]. now rewrite Hc.
  - constructor; [|exact Hr]. unfold cv in *. cbn [map]. now rewrite Hc, Ha.
Qed.

Lemma split_from_cv (alts : list jsstring) (s : jsstring) :
  forall (s' : jsstring) (p p' : option code_unit) (k : nat),
  cv s s' -> is_word_opt p = is_word_opt p' ->
  Forall2 cv (split_from (re_words alts) p s k) (split_from (re_words alts) p' s' k).
Proof.
  induction s as [|c s IH]; intros [|c' s'] p p' k Hs Hp; try discriminate.
  - cbn [split_from]. constructor; [apply cv_refl|constructor].
  - assert (Hcs := Hs). unfold cv in Hs. cbn [map] in Hs. injection Hs as Hc Hs.
    assert (Hw : is_word_opt (Some c) = is_word_opt (Some c'))
      by (cbn [is_word_opt]; now apply canonicalize_is_word).
    cbn [split_from]. destruct k as [|k]; [|now apply IH].
    rewrite (re_words_cv alts p p' (c :: s) (c' :: s') Hcs Hp).
    destruct (re_words alts p' (c' :: s')) as [[|n]|].
    + apply cons_head_cv; [exact Hc|now apply IH].
    + constructor; [apply cv_refl|]. constructor; [now apply cv_firstn|now apply IH].
    + apply cons_head_cv; [exact Hc|now apply IH].
Qed.

Lemma push_current_cv (st st' : seg_state) :
  state_cv st st' -> Forall2 cv (push_current st) (push_current st').
Proof.
  intros [H1 H2]. destruct st as [res cur], st' as [res' cur'].
  cbn [fst snd push_current] in *. rewrite (truthy_cv _ _ H2).
  destruct (truthy cur'); [|exact H1].
  apply Forall2_app; [exact H1|]. constructor; [now apply trim_cv|constructor].
Qed.

Lemma join_piece_cv (st st' : seg_state) (p p' : jsstring) :
  state_cv st st' -> cv p p' -> state_cv (join_piece st p) (join_piece st' p').
Proof.
  intros H Hp. unfold join_piece. pose proof (trim_cv _ _ Hp) as Ht.
  rewrite (truthy_cv _ _ Ht), (toUpperCase_cv _ _ Ht).
  destruct (negb (truthy (trim p'))); [exact H|].
  destruct (endsWith _ _).
  - split; [now apply push_current_cv|exact Ht].
  - destruct H as [H1 H2]. split; [exact H1|]. cbn [fst snd].
    apply cv_app; [exact H2|]. apply cv_app; [apply cv_refl|exact Ht].
Qed.

Lemma join_pieces_cv (l l' : list jsstring) :
  Forall2 cv l l' ->
  forall st st', state_cv st st' ->
  state_cv (fold_left join_piece l st) (fold_left join_piece l' st').
Proof.
  induction 1 as [|p p' l l' Hp Hl IH]; intros st st' H; [exact H|].
  cbn [fold_left]. apply IH. now apply join_piece_cv.
Qed.

Lemma main_piece_cv (st st' : seg_state) (p p' : jsstring) :
  state_cv st st' -> cv p p' -> state_cv (main_piece st p) (main_piece st' p').
Proof.
  intros H Hp. unfold main_piece. pose proof (trim_cv _ _ Hp) as Ht.
  rewrite (truthy_cv _ _ Ht), (toUpperCase_cv _ _ Ht).
  destruct (negb (truthy (trim p'))); [exact H|].
  destruct (array_includes _ _).
  - split; [now apply push_current_cv|exact Hp].
  - apply join_pieces_cv; [|exact H]. now apply split_from_cv.
Qed.

Lemma main_pieces_cv (l l' : list jsstring) :
  Forall2 cv l l' ->
  forall st st', state_cv st st' ->
  state_cv (fold_left main_piece l st) (fold_left main_piece l' st').
Proof.
  induction 1 as [|p p' l l' Hp Hl IH]; intros st st' H; [exact H|].
  cbn [fold_left]. apply IH. now apply main_piece_cv.
Qed.

Lemma clauses_of_cv (s s' : jsstring) :
  cv s s' -> Forall2 cv (clauses_of s) (clauses_of s').
Proof.
  intros H. unfold clauses_of. apply push_current_cv, main_pieces_cv.
  - now apply split_from_cv.
  - split; [constructor|apply cv_refl].
Qed.

Lemma Forall2_cv_trans (l1 l2 l3 : list jsstring) :
  Forall2 cv l1 l2 -> Forall2 cv l2 l3 -> Forall2 cv l1 l3.
Proof.
  intros H. revert l3. induction H as [|a b l1 l2 Hab Hl IH]; intros l3 H3.
  - inversion H3. constructor.
  - inversion H3 as [|b' c l2' l3' Hbc Hl3]; subst. constructor.
    + now apply (cv_trans a b c).
    + now apply IH.
Qed.

Lemma Forall2_cv_sym (l1 l2 : list jsstring) : Forall2 cv l1 l2 -> Forall2 cv l2 l1.
Proof. induction 1; constructor; [now apply cv_sym|assumption]. Qed.

(** X22. keywordCase only affects the case of letters: two options records
    with the same commaPosition give, on every input, outputs that are
    equal up to case, code unit by code unit, so with the same line breaks
    and the same spacing. *)
Theorem keywordCase_only_case (sql : jsstring) (o1 o2 : SqlFormatterOptions) :
  commaPosition o1 = commaPosition o2 ->
  exists out1 out2 : jsstring,
    formatSqlString sql o1 = Normal out1 /\ formatSqlString sql o2 = Normal out2
    /\ map canonicalize out1 = map canonicalize out2.
Proof.
  intros Hc. exists (format_text sql o1), (format_text sql o2).
  split; [apply formatSqlString_text|]. split; [apply formatSqlString_text|].
  unfold format_text, assemble.
  assert (HN : normalize o1 sql = normalize o2 sql).
  { unfold normalize, space_commas, comma_text. now rewrite Hc. }
  set (s1 := keyword_case o1 (normalize o1 sql)).
  set (s2 := keyword_case o2 (normalize o2 sql)).
  assert (Hs : cv s1 s2).
  { apply (cv_trans _ (normalize o1 sql)); [apply keyword_case_only_case_cv|].
    rewrite HN. apply cv_sym, keyword_case_only_case_cv. }
  destruct (clauses_cells s1) as [_ Ht1]. destruct (clauses_cells s2) as [_ Ht2].
  rewrite (filter_truthy _ Ht1), (filter_truthy _ Ht2).
  apply array_join_cv.
  apply (Forall2_cv_trans _ (clauses_of s1)); [apply map_recase_on_cv|].
  apply (Forall2_cv_trans _ (clauses_of s2)); [now apply clauses_of_cv|].
  apply Forall2_cv_sym, map_recase_on_cv.
Qed.

Lemma keywordCase_only_case_witness :
  exists out1 out2 : jsstring,
    formatSqlString (js "select a from t") (with_keywordCase no_options (Some "lower"%string))
    = Normal out1
    /\ formatSqlString (js "select a from t") no_options = Normal out2
    /\ map canonicalize out1 = map canonicalize out2.
Proof.
  apply keywordCase_only_case. reflexivity.
Defined.

(** ** White space in the input *)

Lemma cells_from_blank_app (ws b : jsstring) (sp : nat) :
  forallb is_space ws = true -> ws <> [] -> cells_from sp (ws ++ b) = cells_from 1 b.
Proof.
  intros H Hne. destruct ws as [|c ws]; [congruence|].
  cbn [forallb] in H. apply andb_true_iff in H as [Hc H].
  cbn [app cells_from]. rewrite Hc. clear Hc Hne c.
  induction ws as [|c ws IH]; [reflexivity|].
  cbn [forallb] in H. apply andb_true_iff in H as [Hc H].
  cbn [app cells_from]. rewrite Hc. now apply IH.
Qed.

Lemma normalize_cells_only (o : SqlFormatterOptions) (s1 s2 : jsstring) :
  unlead (cells_from 0 s1) = unlead (cells_from 0 s2) ->
  formatSqlString s1 o = formatSqlString s2 o.
Proof.
  intros H. rewrite !formatSqlString_text. f_equal. unfold format_text.
  now rewrite !normalize_stage_cells, H.
Qed.

(** X23. The formatter does not see which white space separates two parts
    of its input, nor how much of it: replacing a non-empty run of white
    space by any other non-empty run (spaces, tabs, line breaks) leaves the
    output unchanged, whatever the options. *)
Theorem formatSqlString_whitespace_runs (a b ws1 ws2 : jsstring) (o : SqlFormatterOptions) :
  forallb is_space ws1 = true -> ws1 <> [] ->
  forallb is_space ws2 = true -> ws2 <> [] ->
  formatSqlString (a ++ ws1 ++ b) o = formatSqlString (a ++ ws2 ++ b) o.
Proof.
  intros H1 N1 H2 N2. apply normalize_cells_only.
  rewrite (cells_from_app a (ws1 ++ b)), (cells_from_app a (ws2 ++ b)).
  now rewrite (cells_from_blank_app ws1), (cells_from_blank_app ws2).
Qed.

Lemma formatSqlString_whitespace_runs_witness :
  formatSqlString (js "select a" ++ [9%N; cu_newline] ++ js "from t") no_options
  = formatSqlString (js "select a" ++ js "   " ++ js "from t") no_options.
Proof.
  apply formatSqlString_whitespace_runs; try reflexivity; discriminate.
Defined.

(** X24. White space at the start and at the end of the input is ignored:
    the input with white space added around it is formatted as the input
    itself, whatever the options. *)
Theorem formatSqlString_whitespace_ends (s ws1 ws2 : jsstring) (o : SqlFormatterOptions) :
  forallb is_space ws1 = true -> forallb is_space ws2 = true ->
  formatSqlString (ws1 ++ s ++ ws2) o = formatSqlString s o.
Proof.
  intros H1 H2. apply normalize_cells_only.
  assert (E : cells_from 0 (s ++ ws2) = cells_from 0 s).
  { rewrite (cells_from_app s ws2), (cells_from_blank ws2) by assumption. apply app_nil_r. }
  destruct ws1 as [|c ws1]; [cbn [app]; now rewrite E|].
  rewrite cells_from_blank_app by (assumption || discriminate).
  rewrite cells_from_one, E. unfold unlead at 1.
  now destruct (cells_from 0 s) as [|[n d] l].
Qed.

Lemma formatSqlString_whitespace_ends_witness :
  formatSqlString ([cu_newline; cu_space] ++ js "select 1" ++ [9%N]) no_options
  = formatSqlString (js "select 1") no_options.
Proof.
  apply formatSqlString_whitespace_ends; reflexivity.
Defined.

(** ** The body of the loop over joinParts *)

(** X25. At an index inside [joinParts] the body of the inner loop
    completes normally: it never reads outside the array, the piece before
    the current one included, and what it does depends on the current piece
    only, since the branches of lines 114 and 117 append the same text. *)
Theorem join_body_in_range (joinParts : list jsstring) (i : nat) (x : jsstring)
    (st : seg_state) :
  nth_error joinParts i = Some x ->
  join_body joinParts i st
  = Normal (if negb (truthy (trim x)) then st
            else if endsWith (toUpperCase (trim x)) (js "JOIN")
                 then (push_current st, trim x)
                 else (fst st, snd st ++ js " " ++ trim x)).
Proof.
  intros H. apply nth_error_split in H as (l1 & l2 & -> & <-).
  apply join_body_piece.
Qed.

Lemma join_body_in_range_witness :
  join_body [js "a "; js "JOIN"; js " b"] 2 (@nil jsstring, js "JOIN")
  = Normal (if negb (truthy (trim (js " b"))) then (@nil jsstring, js "JOIN")
            else if endsWith (toUpperCase (trim (js " b"))) (js "JOIN")
                 then (push_current (@nil jsstring, js "JOIN"), trim (js " b"))
                 else (@nil jsstring, js "JOIN" ++ js " " ++ trim (js " b"))).
Proof.
  apply (join_body_in_range [js "a "; js "JOIN"; js " b"] 2 (js " b")
           (@nil jsstring, js "JOIN")).
  reflexivity.
Defined.

(** ** The spacing before parentheses and commas *)

Lemma separated_spec (R : code_unit -> bool -> code_unit -> bool) (s : jsstring) :
  forall p sp, separated R p sp s = true ->
  forall a x y b, is_space x = false -> is_space y = false ->
  (s = a ++ x :: y :: b -> R x false y = true)
  /\ (s = a ++ x :: cu_space :: y :: b -> R x true y = true).
Proof.
  induction s as [|c s IH]; intros p sp H a x y b Hx Hy.
  - split; intros E; now destruct a.
  - cbn [separated] in H.
    assert (Hs : exists p' sp', separated R p' sp' s = true).
    { destruct (is_space c); [now exists p, true|].
      apply andb_true_iff in H as [_ H]. now exists (Some c), false. }
    destruct Hs as (p' & sp' & Hs).
    destruct a as [|d a].
    + split; intros E; cbn [app] in E; injection E as -> ->.
      * rewrite Hx in H. apply andb_true_iff in H as [_ H].
        cbn [separated] in H. rewrite Hy in H. now apply andb_true_iff in H as [H _].
      * rewrite Hx in H. apply andb_true_iff in H as [_ H].
        cbn [separated] in H. change (is_space cu_space) with true in H. cbn iota in H.
        rewrite Hy in H. now apply andb_true_iff in H as [H _].
    + destruct (IH p' sp' Hs a x y b Hx Hy) as [I1 I2].
      split; intros E; cbn [app] in E; injection E as -> ->; auto.
Qed.

Lemma separated_spaces (R : code_unit -> bool -> code_unit -> bool) (n : nat)
    (s : jsstring) (p : option code_unit) (sp : bool) :
  separated R p sp (spaces n ++ s) = separated R p (sp || (0 <? n)) s.
Proof.
  revert sp. induction n as [|n IH]; intros sp.
  - now rewrite orb_false_r.
  - cbn [spaces repeat app separated]. change (is_space cu_space) with true. cbn iota.
    fold (spaces n). rewrite IH. now rewrite orb_true_r.
Qed.

Lemma separated_flat (R : code_unit -> bool -> code_unit -> bool) (h : spacing)
    (l : list cell) (tr : nat) :
  (forall x n c, R x (0 <? h (Some x) n (Some c)) c = true) ->
  valid l ->
  forall p, separated R p false (flat (respace h p l) tr) = true.
Proof.
  intros HR Hv. induction l as [|[n c] l IH]; intros p.
  - cbn [respace flat]. rewrite <- (app_nil_r (spaces tr)), separated_spaces. reflexivity.
  - apply valid_cons in Hv as [Hc Hv]. cbn [respace flat].
    rewrite separated_spaces. cbn [separated orb]. rewrite Hc, IH by assumption.
    destruct p as [x|]; [|reflexivity]. now rewrite HR.
Qed.

Lemma normalize_separated (R : code_unit -> bool -> code_unit -> bool)
    (o : SqlFormatterOptions) (sql : jsstring) :
  (forall x n c, R x (0 <? h_stage o (Some x) n (Some c)) c = true) ->
  separated R None false (normalize o sql) = true.
Proof.
  intros HR. rewrite normalize_stage_cells. apply separated_flat; [exact HR|].
  apply unlead_valid, cells_from_valid.
Qed.

Lemma h_stage_before_lparen (o : SqlFormatterOptions) (x : code_unit) (n : nat) :
  cu_eqb x cu_rparen = false -> h_stage o (Some x) n (Some cu_lparen) = 0.
Proof.
  intros H. unfold h_stage, h_collapse, h_spaced. cbn [opt_is]. rewrite H.
  change (cu_eqb cu_lparen cu_rparen) with false.
  change (cu_eqb cu_lparen cu_lparen) with true. cbn [orb].
  now destruct (cu_eqb x cu_lparen).
Qed.

(** X26. In the normalized text white space comes before an opening
    parenthesis only directly after a closing parenthesis; in particular no
    white space is left between a word and the parenthesis that follows it,
    whatever the options. *)
Theorem normalize_before_open_paren (o : SqlFormatterOptions) (sql a b : jsstring)
    (x : code_unit) :
  normalize o sql = a ++ x :: cu_space :: cu_lparen :: b ->
  is_space x = false -> x = cu_rparen.
Proof.
  intros E Hx.
  assert (H : open_after x true cu_lparen = true).
  { refine (proj2 (separated_spec open_after _ None false _ a x cu_lparen b Hx eq_refl) E).
    apply normalize_separated. intros u n c. unfold open_after.
    destruct (cu_eqb u cu_rparen) eqn:Eu; [apply orb_true_r|].
    destruct (cu_eqb c cu_lparen) eqn:Ec; [|now rewrite andb_false_r].
    apply cu_eqb_eq in Ec. subst c. now rewrite h_stage_before_lparen. }
  unfold open_after in H. change (cu_eqb cu_lparen cu_lparen) with true in H.
  cbn [andb negb orb] in H. now apply cu_eqb_eq.
Qed.

Lemma normalize_before_open_paren_witness : cu_rparen = cu_rparen.
Proof.
  apply (normalize_before_open_paren no_options (js "f (a)(b)") (js "f(a") (js "b) ")).
  - vm_compute. reflexivity.
  - reflexivity.
Defined.

Lemma h_stage_before_comma (o : SqlFormatterOptions) (x : code_unit) (n : nat) :
  option_is (commaPosition o) "before" = false ->
  cu_eqb x cu_comma = false -> cu_eqb x cu_rparen = false ->
  h_stage o (Some x) n (Some cu_comma) = 0.
Proof.
  intros Ho H1 H2. unfold h_stage, h_collapse, h_spaced, comma_lead. cbn [opt_is].
  rewrite Ho, H1, H2.
  change (cu_eqb cu_comma cu_rparen) with false.
  change (cu_eqb cu_comma cu_lparen) with false.
  change (cu_eqb cu_comma cu_comma) with true. cbn [orb Nat.add].
  now destruct (cu_eqb x cu_lparen).
Qed.

Lemma h_stage_before_comma_lead (o : SqlFormatterOptions) (x : code_unit) (n : nat) :
  option_is (commaPosition o) "before" = true ->
  cu_eqb x cu_lparen = false ->
  h_stage o (Some x) n (Some cu_comma) = 1.
Proof.
  intros Ho H1. unfold h_stage, h_collapse, h_spaced, comma_lead. cbn [opt_is].
  rewrite Ho, H1.
  change (cu_eqb cu_comma cu_rparen) with false.
  change (cu_eqb cu_comma cu_lparen) with false.
  change (cu_eqb cu_comma cu_comma) with true. cbn [orb].
  destruct (cu_eqb x cu_rparen), (cu_eqb x cu_comma); reflexivity.
Qed.

(** X27. When commaPosition is not 'before', white space comes before a
    comma of the normalized text only directly after another comma or a
    closing parenthesis: after anything else the comma rule has removed
    it. *)
Theorem normalize_before_comma (o : SqlFormatterOptions) (sql a b : jsstring)
    (x : code_unit) :
  option_is (commaPosition o) "before" = false ->
  normalize o sql = a ++ x :: cu_space :: cu_comma :: b ->
  is_space x = false -> x = cu_comma \/ x = cu_rparen.
Proof.
  intros Ho E Hx.
  assert (H : comma_after x true cu_comma = true).
  { refine (proj2 (separated_spec comma_after _ None false _ a x cu_comma b Hx eq_refl) E).
    apply normalize_separated. intros u n c. unfold comma_after.
    destruct (cu_eqb u cu_comma) eqn:E1; [now rewrite orb_true_r|].
    destruct (cu_eqb u cu_rparen) eqn:E2; [apply orb_true_r|].
    destruct (cu_eqb c cu_comma) eqn:Ec; [|now rewrite andb_false_r].
    apply cu_eqb_eq in Ec. subst c. now rewrite h_stage_before_comma. }
  unfold comma_after in H. change (cu_eqb cu_comma cu_comma) with true in H.
  cbn [andb negb orb] in H.
  apply orb_true_iff in H as [H|H]; apply cu_eqb_eq in H; auto.
Qed.

Lemma normalize_before_comma_witness : cu_comma = cu_comma \/ cu_comma = cu_rparen.
Proof.
  apply (normalize_before_comma no_options (js "a , , b") (js "a") (js " b")).
  - reflexivity.
  - vm_compute. reflexivity.
  - reflexivity.
Defined.

(** X28. When commaPosition is 'before', a comma of the normalized text
    comes directly after an opening parenthesis only: after any other code
    unit that is not white space there is a space before the comma. *)
Theorem normalize_comma_leading (o : SqlFormatterOptions) (sql a b : jsstring)
    (x : code_unit) :
  option_is (commaPosition o) "before" = true ->
  normalize o sql = a ++ x :: cu_comma :: b ->
  is_space x = false -> x = cu_lparen.
Proof.
  intros Ho E Hx.
  assert (H : comma_before x false cu_comma = true).
  { refine (proj1 (separated_spec comma_before _ None false _ a x cu_comma b Hx eq_refl) E).
    apply normalize_separated. intros u n c. unfold comma_before.
    destruct (cu_eqb u cu_lparen) eqn:E1; [apply orb_true_r|].
    destruct (cu_eqb c cu_comma) eqn:Ec; [|now rewrite andb_false_r].
    apply cu_eqb_eq in Ec. subst c. now rewrite h_stage_before_comma_lead. }
  unfold comma_before in H. change (cu_eqb cu_comma cu_comma) with true in H.
  cbn [andb negb orb] in H. now apply cu_eqb_eq.
Qed.

Lemma normalize_comma_leading_witness : cu_lparen = cu_lparen.
Proof.
  apply (normalize_comma_leading
           {| keywordCase := None; indentStyle := None; linesBetweenQueries := None;
              maxColumnLength := None; commaPosition := Some "before"%string |}
           (js "f( ,a)") (js "f") (js " a) ")).
  - reflexivity.
  - vm_compute. reflexivity.
  - reflexivity.
Defined.

(** X29. commaPosition is only compared with 'before': two options records
    that agree on keywordCase and on whether commaPosition is 'before' give
    the same output on every input.  So 'preserve' and every other value
    behave as 'after' does. *)
Theorem commaPosition_only_before (sql : jsstring) (o1 o2 : SqlFormatterOptions) :
  keywordCase o1 = keywordCase o2 ->
  option_is (commaPosition o1) "before" = option_is (commaPosition o2) "before" ->
  formatSqlString sql o1 = formatSqlString sql o2.
Proof.
  intros Hk Hc.
  unfold formatSqlString, normalize, space_commas, comma_text, keyword_case,
    assemble, recase_on.
  rewrite Hk, Hc. reflexivity.
Qed.

Lemma commaPosition_only_before_witness :
  formatSqlString (js "select a ,b from t")
    {| keywordCase := None; indentStyle := None; linesBetweenQueries := None;
       maxColumnLength := None; commaPosition := Some "preserve"%string |}
  = formatSqlString (js "select a ,b from t")
    {| keywordCase := None; indentStyle := None; linesBetweenQueries := None;
       maxColumnLength := None; commaPosition := Some "after"%string |}.
Proof.
  apply commaPosition_only_before; reflexivity.
Defined.

(** ** Text without clause keywords *)

(** X30. A text in which the clause expression and the JOIN expression
    find no match, and whose trimmed upper case neither is a clause keyword
    nor ends in JOIN, is not cut: the segmentation gives one clause, the
    trimmed text. *)
Theorem clauses_of_unsplit (s : jsstring) :
  split majorRegex s = [s] -> split joinRegex s = [s] ->
  array_includes major_keywords (toUpperCase (trim s)) = false ->
  endsWith (toUpperCase (trim s)) (js "JOIN") = false ->
  truthy (trim s) = true ->
  clauses_of s = [trim s].
Proof.
  intros H1 H2 H3 H4 H5. unfold clauses_of. rewrite H1. cbn [fold_left].
  unfold main_piece. rewrite H5, H3, H2. cbn [negb fold_left].
  unfold join_piece. rewrite H5, H4. cbn [negb fst snd app push_current].
  change (js " " ++ trim s) with (cu_space :: trim s). cbn [truthy]. f_equal.
  unfold trim at 1, trimStart. cbn [drop_while]. change (is_space cu_space) with true.
  cbn iota. apply trim_idem.
Qed.

Lemma clauses_of_unsplit_witness : clauses_of (js " a, b ") = [trim (js " a, b ")].
Proof.
  apply clauses_of_unsplit; reflexivity.
Defined.

(** ** Commas in the normalized text *)

Lemma normalize_spaced (o : SqlFormatterOptions) (sql : jsstring) :
  single_spaced (normalize o sql) = true.
Proof.
  rewrite normalize_stage_cells. apply single_spaced_flat.
  - apply respace_valid, unlead_valid, cells_from_valid.
  - apply small_respace_stage.
  - apply h_stage_le.
Qed.

Lemma single_spaced_suffix (a s : jsstring) :
  single_spaced (a ++ s) = true -> single_spaced s = true.
Proof.
  induction a as [|c a IH]; [trivial|].
  cbn [app single_spaced]. intros [_ H]%andb_true_iff. now apply IH.
Qed.

Lemma single_spaced_pair (x y : code_unit) (t : jsstring) :
  single_spaced (x :: y :: t) = true -> is_space x = true ->
  x = cu_space /\ is_space y = false.
Proof.
  cbn [single_spaced]. intros [H _]%andb_true_iff Hx. rewrite Hx in H.
  cbn [negb orb] in H. apply andb_true_iff in H as [H1 H2].
  split; [now apply cu_eqb_eq|now apply negb_true_iff].
Qed.

Lemma normalize_first (o : SqlFormatterOptions) (sql b : jsstring) (x : code_unit) :
  is_space x = false ->
  (normalize o sql = x :: b -> h_stage o None 0 (Some x) = 0)
  /\ (normalize o sql = cu_space :: x :: b -> h_stage o None 0 (Some x) = 1).
Proof.
  intros Hx. rewrite normalize_stage_cells.
  destruct (cells_from 0 sql) as [|[n c] l] eqn:El.
  - cbn [unlead respace respace_trail last_char fold_left flat].
    pose proof (h_stage_le o None None 0) as Hle.
    destruct (h_stage o None 0 None) as [|[|k]]; [| |lia];
      cbn [spaces repeat]; split; intros E; try discriminate;
      injection E as E; subst x; discriminate.
  - assert (Hc : is_space c = false).
    { pose proof (cells_from_valid sql 0) as Hv. rewrite El in Hv.
      now apply valid_cons in Hv. }
    cbn [unlead respace flat].
    pose proof (h_stage_le o None (Some c) 0) as Hle.
    destruct (h_stage o None 0 (Some c)) as [|[|k]] eqn:Eh; [| |lia];
      cbn [spaces repeat app]; split; intros E.
    + injection E as E _. now subst c.
    + injection E as E _. subst c. discriminate.
    + injection E as E _. subst x. discriminate.
    + injection E as E _. now subst c.
Qed.

Lemma h_stage_first_comma (o : SqlFormatterOptions) :
  h_stage o None 0 (Some cu_comma) = comma_lead o.
Proof.
  unfold h_stage, h_collapse, h_spaced, h_operators, comma_lead. cbn [opt_is opt_operator].
  change (cu_eqb cu_comma cu_rparen) with false.
  change (cu_eqb cu_comma cu_lparen) with false.
  change (cu_eqb cu_comma cu_comma) with true.
  change (is_operator cu_comma) with false. cbn [orb andb negb Nat.add].
  now destruct (option_is (commaPosition o) "before").
Qed.

Lemma normalize_comma_next (o : SqlFormatterOptions) (sql a b : jsstring) :
  normalize o sql = a ++ cu_comma :: b ->
  comma_spaced cu_comma (hd_error b) = true.
Proof.
  intros E. apply (normalize_adjacent comma_spaced o sql) with (a := a); [| |exact E].
  - intros p n c Hc. apply gap_cases; intros Hh; cbn [gap].
    + destruct p as [x|]; [|exact I]. unfold comma_spaced.
      destruct (cu_eqb x cu_comma) eqn:Ex; [|reflexivity].
      apply cu_eqb_eq in Ex. subst x. cbn [negb orb].
      destruct (opt_is cu_lparen (Some c)) eqn:E1; [now rewrite orb_true_r|].
      destruct (opt_is cu_rparen (Some c)) eqn:E2; [apply orb_true_r|].
      rewrite h_stage_after_comma in Hh by assumption. discriminate.
    + split; [|reflexivity]. destruct p as [x|]; [|exact I].
      unfold comma_spaced. cbn [opt_is]. rewrite cu_eqb_refl.
      now rewrite orb_true_r.
  - intros p n. apply gap_cases; intros Hh; cbn [gap].
    + destruct p as [x|]; [|exact I]. unfold comma_spaced.
      destruct (cu_eqb x cu_comma) eqn:Ex; [|reflexivity].
      apply cu_eqb_eq in Ex. subst x.
      rewrite h_stage_after_comma in Hh by reflexivity. discriminate.
    + split; [|reflexivity]. destruct p as [x|]; [|exact I].
      unfold comma_spaced. cbn [opt_is]. rewrite cu_eqb_refl.
      now rewrite orb_true_r.
Qed.

Lemma normalize_comma_prev (o : SqlFormatterOptions) (sql a b : jsstring) (x : code_unit) :
  option_is (commaPosition o) "before" = true ->
  normalize o sql = a ++ x :: cu_comma :: b ->
  x = cu_space \/ x = cu_lparen.
Proof.
  intros Ho E.
  assert (H : comma_led x (hd_error (cu_comma :: b)) = true).
  { apply (normalize_adjacent comma_led o sql) with (a := a); [| |exact E].
    - intros p n c Hc. apply gap_cases; intros Hh; cbn [gap].
      + destruct p as [u|]; [|exact I]. unfold comma_led. cbn [opt_is].
        destruct (cu_eqb c cu_comma) eqn:Ec; [|reflexivity].
        apply cu_eqb_eq in Ec. subst c. cbn [negb orb].
        destruct (cu_eqb u cu_lparen) eqn:Eu; [apply orb_true_r|].
        rewrite h_stage_before_comma_lead in Hh by assumption. discriminate.
      + split.
        * destruct p as [u|]; [|exact I]. reflexivity.
        * unfold comma_led. rewrite cu_eqb_refl. now rewrite orb_true_r.
    - intros p n. apply gap_cases; intros Hh; cbn [gap].
      + now destruct p.
      + split; [now destruct p|reflexivity]. }
  unfold comma_led in H. cbn [hd_error opt_is] in H.
  change (cu_eqb cu_comma cu_comma) with true in H. cbn [negb orb] in H.
  apply orb_true_iff in H as [H|H]; apply cu_eqb_eq in H; auto.
Qed.

Lemma normalize_comma_far (o : SqlFormatterOptions) (sql a b : jsstring) (x : code_unit) :
  option_is (commaPosition o) "before" = false ->
  normalize o sql = a ++ x :: cu_space :: cu_comma :: b ->
  is_space x = false -> x = cu_comma \/ x = cu_rparen.
Proof.
  intros Ho E Hx.
  assert (H : comma_after x true cu_comma = true).
  { refine (proj2 (separated_spec comma_after _ None false _ a x cu_comma b Hx eq_refl) E).
    apply normalize_separated. intros u n c. unfold comma_after.
    destruct (cu_eqb u cu_comma) eqn:E1; [now rewrite orb_true_r|].
    destruct (cu_eqb u cu_rparen) eqn:E2; [apply orb_true_r|].
    destruct (cu_eqb c cu_comma) eqn:Ec; [|now rewrite andb_false_r].
    apply cu_eqb_eq in Ec. subst c. now rewrite h_stage_before_comma. }
  unfold comma_after in H. change (cu_eqb cu_comma cu_comma) with true in H.
  cbn [andb negb orb] in H.
  apply orb_true_iff in H as [H|H]; apply cu_eqb_eq in H; auto.
Qed.

Lemma last_cu_snoc (p : option code_unit) (a : jsstring) (x : code_unit) :
  last_cu p (a ++ [x]) = Some x.
Proof. now rewrite last_cu_app. Qed.

(** C3, amended.  In the text the normalization stage produces, whatever
    the input:
    - every comma is followed by exactly one plain space, unless a
      parenthesis comes directly after it;
    - when commaPosition is 'before', every comma is also preceded by
      exactly one plain space, unless an opening parenthesis comes directly
      before it;
    - for any other commaPosition, absent included, no white space comes
      before a comma, unless the code unit before that one space is another
      comma or a closing parenthesis. *)
Theorem normalize_commas (o : SqlFormatterOptions) (sql a b : jsstring) :
  normalize o sql = a ++ cu_comma :: b ->
  ((hd_error b = Some cu_space /\ is_space_opt (hd_error (tl b)) = false)
   \/ hd_error b = Some cu_lparen \/ hd_error b = Some cu_rparen)
  /\ (commaPosition o = Some "before"%string ->
      (last_cu None a = Some cu_space
       /\ is_space_opt (last_cu None (removelast a)) = false)
      \/ last_cu None a = Some cu_lparen)
  /\ (commaPosition o <> Some "before"%string ->
      is_space_opt (last_cu None a) = false
      \/ (last_cu None a = Some cu_space
          /\ (last_cu None (removelast a) = Some cu_comma
              \/ last_cu None (removelast a) = Some cu_rparen))).
Proof.
  intros E. pose proof (normalize_spaced o sql) as Hs. rewrite E in Hs.
  split; [|split].
  - pose proof (normalize_comma_next o sql a b E) as H.
    unfold comma_spaced in H. change (cu_eqb cu_comma cu_comma) with true in H.
    cbn [negb orb] in H. destruct b as [|y b]; [discriminate|].
    cbn [hd_error opt_is tl] in *.
    apply orb_true_iff in H as [H|H]; [apply orb_true_iff in H as [H|H]|];
      apply cu_eqb_eq in H; subst y; auto.
    left. split; [reflexivity|].
    apply single_spaced_suffix in Hs. apply single_spaced_suffix with (a := [cu_comma]) in Hs.
    destruct b as [|d b]; [reflexivity|].
    now apply single_spaced_pair in Hs as [_ Hs].
  - intros Hb.
    assert (Ho : option_is (commaPosition o) "before" = true) by now rewrite Hb.
    destruct a as [|x a'] using rev_ind.
    + exfalso. cbn [app] in E.
      destruct (normalize_first o sql b cu_comma eq_refl) as [H _].
      specialize (H E). rewrite h_stage_first_comma in H.
      unfold comma_lead in H. rewrite Ho in H. discriminate.
    + clear IHa'. rewrite <- app_assoc in E, Hs. cbn [app] in E, Hs.
      rewrite last_cu_snoc, removelast_last.
      destruct (normalize_comma_prev o sql a' b x Ho E) as [-> | ->]; [left|now right].
      split; [reflexivity|].
      destruct a' as [|y a''] using rev_ind; [reflexivity|].
      rewrite last_cu_snoc. cbn [is_space_opt].
      rewrite <- app_assoc in Hs. cbn [app] in Hs.
      apply single_spaced_suffix in Hs.
      destruct (is_space y) eqn:Ey; [|reflexivity].
      now apply single_spaced_pair in Hs as [_ Hs].
  - intros Hb.
    assert (Ho : option_is (commaPosition o) "before" = false).
    { destruct (commaPosition o) as [p|]; [|reflexivity]. cbn [option_is].
      destruct (String.eqb_spec p "before"); [congruence|reflexivity]. }
    destruct a as [|x a'] using rev_ind; [now left|].
    clear IHa'. rewrite <- app_assoc in E, Hs. cbn [app] in E, Hs.
    rewrite last_cu_snoc, removelast_last. cbn [is_space_opt].
    destruct (is_space x) eqn:Ex; [right|now left].
    assert (Hx : x = cu_space).
    { apply single_spaced_suffix in Hs. now apply single_spaced_pair in Hs as [Hs _]. }
    subst x. split; [reflexivity|].
    destruct a' as [|y a''] using rev_ind.
    + exfalso. cbn [app] in E.
      destruct (normalize_first o sql b cu_comma eq_refl) as [_ H].
      specialize (H E). rewrite h_stage_first_comma in H.
      unfold comma_lead in H. rewrite Ho in H. discriminate.
    + clear IHa''. rewrite <- app_assoc in E, Hs. cbn [app] in E, Hs.
      rewrite last_cu_snoc.
      assert (Hy : is_space y = false).
      { apply single_spaced_suffix in Hs.
        destruct (is_space y) eqn:Ey; [|reflexivity].
        now apply single_spaced_pair in Hs as [_ Hs]. }
      destruct (normalize_comma_far o sql a'' b y Ho E Hy) as [-> | ->]; auto.
Qed.

Lemma normalize_commas_witness :
  ((hd_error (js "(c) ") = Some cu_space
    /\ is_space_opt (hd_error (tl (js "(c) "))) = false)
   \/ hd_error (js "(c) ") = Some cu_lparen \/ hd_error (js "(c) ") = Some cu_rparen)
  /\ (commaPosition no_options = Some "before"%string ->
      (last_cu None (js "a, b") = Some cu_space
       /\ is_space_opt (last_cu None (removelast (js "a, b"))) = false)
      \/ last_cu None (js "a, b") = Some cu_lparen)
  /\ (commaPosition no_options <> Some "before"%string ->
      is_space_opt (last_cu None (js "a, b")) = false
      \/ (last_cu None (js "a, b") = Some cu_space
          /\ (last_cu None (removelast (js "a, b")) = Some cu_comma
              \/ last_cu None (removelast (js "a, b")) = Some cu_rparen))).
Proof.
  apply (normalize_commas no_options (js "a ,b  , (c)") (js "a, b") (js "(c) ")).
  vm_compute. reflexivity.
Defined.
